(** * ae-ease-to-gsap-customease: keyframe eases to CustomEase paths

    A shallow embedding of [ae-ease-to-gsap-customease.jsx] (both script
    variants found in the source file) and the properties of its
    keyframe-pair to cubic-Bezier conversion.

    - JavaScript numbers are IEEE-754 binary64 values ([spec_float] with
      [prec = 53], [emax = 1024]), with the operations of the
      Standard Library's executable specification.
    - [Number.prototype.toFixed], number-to-string conversion,
      [parseFloat] and [isNaN] follow ECMA-262.
    - [Point] objects live in a store and are referred to by address, since
      [Path.prototype.invertYAxis] updates them in place.
    - The script's effects (exceptions, [alert], [$.writeln]) are threaded
      through a small state-and-exception monad; the main logic of each
      variant runs above it, with the commands passed to
      [system.callSystem]. The second variant's loop over the layers need
      not end, and takes a bound on its number of turns. *)

From Stdlib Require Import ZArith List String Ascii Bool Lia.
From Stdlib Require Import Floats.SpecFloat.
From Stdlib Require Import DecimalString.
From stdpp Require Import base list.

Import ListNotations.

#[local] Open Scope string_scope.
#[local] Open Scope Z_scope.

(** ** JavaScript numbers *)

Module Num.

Definition prec : Z := 53.
Definition emax : Z := 1024.

Definition number : Type := spec_float.

Definition add : number -> number -> number := SFadd prec emax.
Definition sub : number -> number -> number := SFsub prec emax.
Definition mul : number -> number -> number := SFmul prec emax.
Definition div : number -> number -> number := SFdiv prec emax.
Definition neg : number -> number := SFopp.
Definition abs : number -> number := SFabs.

(** [a < b], [a > b], [a <= b], [a >= b] and [a === b] on numbers: all
    false as soon as one side is NaN. *)
Definition ltb (a b : number) : bool := SFltb a b.
Definition gtb (a b : number) : bool := SFltb b a.
Definition leb (a b : number) : bool := SFleb a b.
Definition geb (a b : number) : bool := SFleb b a.
Definition eqb (a b : number) : bool := SFeqb a b.

Definition is_nan (a : number) : bool :=
  match a with S754_nan => true | _ => false end.

Definition NaN : number := S754_nan.
Definition POSITIVE_INFINITY : number := S754_infinity false.
Definition NEGATIVE_INFINITY : number := S754_infinity true.

(** The number nearest to [(-1)^s * p / q] (ties to even). *)
Definition of_ratio (s : bool) (p q : positive) : number :=
  let '(mz, ez, lz) := SFdiv_core_binary prec emax (Zpos p) 0 (Zpos q) 0 in
  binary_round_aux prec emax s mz ez lz.

(** The number nearest to [n * 10^e]; a zero takes the sign [s]. *)
Definition of_decimal (s : bool) (n : N) (e : Z) : number :=
  match n with
  | N0 => S754_zero s
  | Npos p =>
      match e with
      | Z0 => of_ratio s p 1
      | Zpos k => of_ratio s (p * Pos.pow 10 k) 1
      | Zneg k => of_ratio s p (Pos.pow 10 k)
      end
  end.

Definition of_Z (z : Z) : number :=
  match z with
  | Z0 => S754_zero false
  | Zpos p => of_ratio false p 1
  | Zneg p => of_ratio true p 1
  end.

(** The decimal literal [z / 10^k], as the script's source text or the
    host would supply it. *)
Definition lit (z : Z) (k : nat) : number :=
  of_decimal (z <? 0) (Z.abs_N z) (- Z.of_nat k).

(** Structural identity, which on canonical values is bit identity. *)
Definition same (a b : number) : bool :=
  match a, b with
  | S754_zero s, S754_zero s' => Bool.eqb s s'
  | S754_infinity s, S754_infinity s' => Bool.eqb s s'
  | S754_nan, S754_nan => true
  | S754_finite s m e, S754_finite s' m' e' =>
      Bool.eqb s s' && Pos.eqb m m' && Z.eqb e e'
  | _, _ => false
  end.

(** ECMA-262 SameValueZero: numerically equal, or both NaN. *)
Definition same_value_zero (a b : number) : bool :=
  eqb a b || (is_nan a && is_nan b).

End Num.

Abbreviation number := Num.number.

(** ** Numbers and strings (ECMA-262 conversions) *)

Module Conv.

Definition digits (n : N) : string :=
  NilZero.string_of_uint (N.to_uint n).

Fixpoint zeros (n : nat) : string :=
  match n with
  | O => EmptyString
  | S n' => String "0" (zeros n')
  end.

Definition strlen (s : string) : nat := String.length s.

(** The exact value of a positive finite number [m * 2^e] as a fraction. *)
Definition fraction (m : positive) (e : Z) : Z * Z :=
  match e with
  | Zneg k => (Zpos m, 2 ^ Zpos k)
  | _ => (Zpos m * 2 ^ e, 1)
  end.

(** *** Number to string: the shortest digits that read back as the number *)

(** The least [j >= 1] with [den <= num * 10^j], for [num < den = 2^(-e)];
    [-e] steps are enough, since [10^j >= 2^j]. *)
Fixpoint first_scale (fuel : nat) (j num den : Z) : Z :=
  match fuel with
  | O => j
  | S fuel' =>
      if den <=? num * 10 ^ j then j else first_scale fuel' (j + 1) num den
  end.

(** The [n] with [10^(n-1) <= m * 2^e < 10^n]. *)
Definition decimal_exponent (m : positive) (e : Z) : Z :=
  let '(num, den) := fraction m e in
  if den <=? num
  then Z.of_nat (strlen (digits (Z.to_N (num / den))))
  else 1 - first_scale (Z.to_nat (- e)) 1 num den.

(** [num/den = x * 10^(k-n)]: the candidates with [k] digits are its floor
    and its ceiling. *)
Definition scaled (num den n k : Z) : Z * Z :=
  if 0 <=? k - n then (num * 10 ^ (k - n), den) else (num, den * 10 ^ (n - k)).

(** Is [x] the Number value for [s * 10^(n-k)]? *)
Definition reads_back (x : number) (s n k : Z) : bool :=
  Num.same (Num.of_decimal false (Z.to_N s) (n - k)) x.

(** The floor and the ceiling of [num/den], the nearer one first. *)
Definition nearer_first (num den : Z) : Z * Z :=
  let lo := num / den in
  let r := num mod den in
  let hi := lo + 1 in
  match 2 * r ?= den with
  | Lt => (lo, hi)
  | Gt => (hi, lo)
  | Eq => if Z.even lo then (lo, hi) else (hi, lo)
  end.

Definition try_digits (x : number) (num den n k : Z) : option Z :=
  let '(num', den') := scaled num den n k in
  let '(a, b) := nearer_first num' den' in
  if reads_back x a n k then Some a
  else if reads_back x b n k then Some b
  else None.

(** The first [k], from 1 up, with a [k]-digit candidate that reads back as
    [x]; 17 digits identify any binary64 value. *)
Fixpoint search_digits (fuel : nat) (x : number) (num den n k : Z) : Z * Z :=
  match fuel with
  | O => let '(num', den') := scaled num den n k in
         (fst (nearer_first num' den'), k)
  | S fuel' =>
      match try_digits x num den n k with
      | Some s => (s, k)
      | None => search_digits fuel' x num den n (k + 1)
      end
  end.

Fixpoint strip_zeros_rev (s : list ascii) : list ascii :=
  match s with
  | "0"%char :: s' => strip_zeros_rev s'
  | _ => s
  end.

Definition strip_trailing_zeros (s : string) : string :=
  string_of_list_ascii
    (rev (strip_zeros_rev (rev (list_ascii_of_string s)))).

(** The digits [s] (as a string of [k] characters) and the exponent [n] of
    ECMA-262 Number::toString: [k] is as small as possible such that
    [s * 10^(n-k)] is the number. *)
Definition shortest (m : positive) (e : Z) : string * Z :=
  let x := S754_finite false m e in
  let '(num, den) := fraction m e in
  let n := decimal_exponent m e in
  let '(s, k) := search_digits 16 x num den n 1 in
  let ds := digits (Z.to_N s) in
  (strip_trailing_zeros ds, n + (Z.of_nat (strlen ds) - k)).

Definition format_digits (ds : string) (n : Z) : string :=
  let k := Z.of_nat (strlen ds) in
  if (k <=? n) && (n <=? 21) then ds ++ zeros (Z.to_nat (n - k))
  else if (0 <? n) && (n <=? 21) then
    substring 0 (Z.to_nat n) ds ++ "." ++ substring (Z.to_nat n) (Z.to_nat (k - n)) ds
  else if (-6 <? n) && (n <=? 0) then
    "0." ++ zeros (Z.to_nat (- n)) ++ ds
  else
    let ex := (if 0 <=? n - 1 then "+" else "-") ++ digits (Z.abs_N (n - 1)) in
    if k =? 1 then ds ++ "e" ++ ex
    else substring 0 1 ds ++ "." ++ substring 1 (Z.to_nat (k - 1)) ds ++ "e" ++ ex.

(** ToString applied to a number, as in [num + ','] and [Array.join]. *)
Definition ToString (x : number) : string :=
  match x with
  | S754_nan => "NaN"
  | S754_zero _ => "0"
  | S754_infinity s => (if s then "-" else "") ++ "Infinity"
  | S754_finite s m e =>
      let '(ds, n) := shortest m e in
      (if s then "-" else "") ++ format_digits ds n
  end.

(** *** Number.prototype.toFixed *)

(** The integer nearest to [m * 2^e * 10^f], the larger one of two. *)
Definition round_half_up_scaled (m : positive) (e : Z) (f : nat) : N :=
  let '(num, den) := fraction m e in
  Z.to_N ((2 * num * 10 ^ Z.of_nat f + den) / (2 * den)).

Definition ten_pow_21 : number := Num.of_decimal false 1 21.

Definition toFixed (f : nat) (x : number) : string :=
  if Num.is_nan x then "NaN"
  else
    let negative := Num.ltb x (S754_zero false) in
    let s := if negative then "-" else "" in
    let x := if negative then Num.neg x else x in
    let m :=
      if Num.geb x ten_pow_21 then ToString x
      else
        let n := match x with
                 | S754_finite _ m e => round_half_up_scaled m e f
                 | _ => 0%N
                 end in
        let m := digits n in
        match f with
        | O => m
        | _ =>
            let k := strlen m in
            let m := if (k <=? f)%nat then zeros (f + 1 - k) ++ m else m in
            let k := if (k <=? f)%nat then (f + 1)%nat else k in
            substring 0 (k - f) m ++ "." ++ substring (k - f) f m
        end in
    s ++ m.

(** *** parseFloat and ToNumber on strings *)

Definition is_digit (c : ascii) : bool :=
  let n := nat_of_ascii c in (48 <=? n)%nat && (n <=? 57)%nat.

Definition digit_value (c : ascii) : N := N.of_nat (nat_of_ascii c - 48).

(** StrWhiteSpaceChar, restricted to the one-byte characters: TAB, LF, VT,
    FF, CR and SP. *)
Definition is_white_space (c : ascii) : bool :=
  let n := nat_of_ascii c in
  ((9 <=? n)%nat && (n <=? 13)%nat) || (n =? 32)%nat.

Fixpoint trim_left (s : string) : string :=
  match s with
  | String c s' => if is_white_space c then trim_left s' else s
  | EmptyString => s
  end.

Fixpoint all_white_space (s : string) : bool :=
  match s with
  | String c s' => is_white_space c && all_white_space s'
  | EmptyString => true
  end.

(** The longest prefix of decimal digits: its value, its length, the rest. *)
Fixpoint take_digits (acc : N) (len : nat) (s : string) : N * nat * string :=
  match s with
  | String c s' =>
      if is_digit c then take_digits (10 * acc + digit_value c) (S len) s'
      else (acc, len, s)
  | EmptyString => (acc, len, s)
  end.

Definition strip_prefix (p s : string) : option string :=
  if String.prefix p s then Some (substring (strlen p) (strlen s - strlen p) s)
  else None.

(** An optional sign. *)
Definition take_sign (s : string) : bool * string :=
  match s with
  | String "-" s' => (true, s')
  | String "+" s' => (false, s')
  | _ => (false, s)
  end.

(** ExponentPart, when one is there: [e] or [E], a sign, digits. *)
Definition take_exponent (s : string) : Z * string :=
  match s with
  | String c s' =>
      if (Ascii.eqb c "e" || Ascii.eqb c "E")%bool then
        let '(sg, s'') := take_sign s' in
        let '(v, len, rest) := take_digits 0 0 s'' in
        match len with
        | O => (0, s)
        | _ => ((if sg then - Z.of_N v else Z.of_N v), rest)
        end
      else (0, s)
  | EmptyString => (0, s)
  end.

Inductive literal : Type :=
  | LitInfinity
  | LitDecimal (mantissa : N) (exponent : Z).

(** The longest prefix that is a StrUnsignedDecimalLiteral, and the rest. *)
Definition take_unsigned_literal (s : string) : option (literal * string) :=
  match strip_prefix "Infinity" s with
  | Some rest => Some (LitInfinity, rest)
  | None =>
      let '(ip, iplen, r1) := take_digits 0 0 s in
      match r1 with
      | String "." r1' =>
          let '(v, fplen, r2) := take_digits ip 0 r1' in
          match iplen, fplen with
          | O, O => None
          | _, _ =>
              let '(ex, r3) := take_exponent r2 in
              Some (LitDecimal v (ex - Z.of_nat fplen), r3)
          end
      | _ =>
          match iplen with
          | O => None
          | _ =>
              let '(ex, r3) := take_exponent r1 in
              Some (LitDecimal ip ex, r3)
          end
      end
  end.

Definition literal_value (sg : bool) (l : literal) : number :=
  match l with
  | LitInfinity => S754_infinity sg
  | LitDecimal n e => Num.of_decimal sg n e
  end.

Definition parseFloat (s : string) : number :=
  let '(sg, t) := take_sign (trim_left s) in
  match take_unsigned_literal t with
  | Some (l, _) => literal_value sg l
  | None => Num.NaN
  end.

Definition hex_digit_value (c : ascii) : option N :=
  let n := nat_of_ascii c in
  if is_digit c then Some (digit_value c)
  else if (97 <=? n)%nat && (n <=? 102)%nat then Some (N.of_nat (n - 87))
  else if (65 <=? n)%nat && (n <=? 70)%nat then Some (N.of_nat (n - 55))
  else None.

Fixpoint take_hex_digits (acc : N) (len : nat) (s : string) : N * nat * string :=
  match s with
  | String c s' =>
      match hex_digit_value c with
      | Some d => take_hex_digits (16 * acc + d) (S len) s'
      | None => (acc, len, s)
      end
  | EmptyString => (acc, len, s)
  end.

Definition take_hex_literal (s : string) : option (N * string) :=
  match s with
  | String "0" (String c s') =>
      if (Ascii.eqb c "x" || Ascii.eqb c "X")%bool then
        let '(v, len, rest) := take_hex_digits 0 0 s' in
        match len with
        | O => None
        | _ => Some (v, rest)
        end
      else None
  | _ => None
  end.

(** ToNumber applied to a string (StringNumericLiteral). *)
Definition ToNumber (s : string) : number :=
  let t := trim_left s in
  match t with
  | EmptyString => S754_zero false
  | _ =>
      match take_hex_literal t with
      | Some (v, rest) =>
          if all_white_space rest then Num.of_decimal false v 0 else Num.NaN
      | None =>
          let '(sg, u) := take_sign t in
          match take_unsigned_literal u with
          | Some (l, rest) =>
              if all_white_space rest then literal_value sg l else Num.NaN
          | None => Num.NaN
          end
      end
  end.

(** The global [isNaN], applied to a string. *)
Definition isNaN (s : string) : bool := Num.is_nan (ToNumber s).

(** [Array.prototype.join] on an array of strings. *)
Fixpoint join (sep : string) (l : list string) : string :=
  match l with
  | [] => ""
  | [a] => a
  | a :: l' => a ++ sep ++ join sep l'
  end.

End Conv.

(** ** Objects, store and effects *)

(** The address of a [Point] object. *)
Definition ref : Type := nat.

(** The fields of a [Point] object. *)
Record Point : Type := mkPoint { x : number; y : number }.

(** A [PathCommand] object: the command letter and its array of points.
    The array holds references: a [Point] is shared, never copied. *)
Record PathCommand : Type := mkPathCommand { command : string; points : list ref }.

Record Path : Type := mkPath { commands : list PathCommand }.

Inductive Exception : Type :=
  | Error (message : string)
  | TypeError (message : string).

(** What a run of the script has done so far: the [Point] objects created
    (an object's address is its index), the messages shown with [alert]
    and the lines written with [$.writeln]. *)
Record State : Type := mkState {
  heap : list Point;
  alerts : list string;
  console : list string
}.

Inductive Outcome (A : Type) : Type :=
  | Return (a : A)
  | Throw (e : Exception).

Arguments Return {A} a.
Arguments Throw {A} e.

Definition M (A : Type) : Type := State -> Outcome A * State.

Definition ret {A} (a : A) : M A := fun s => (Return a, s).

Definition bind {A B} (c : M A) (k : A -> M B) : M B :=
  fun s =>
    match c s with
    | (Return a, s') => k a s'
    | (Throw e, s') => (Throw e, s')
    end.

(** [throw]. The script has no [try]: a thrown exception ends the run, and
    what was done before it stays done. *)
Definition throw {A} (e : Exception) : M A := fun s => (Throw e, s).

Notation "x <- c1 ;; c2" := (bind c1 (fun x => c2))
  (at level 100, c1 at next level, right associativity).
Notation "c1 ;; c2" := (bind c1 (fun _ => c2))
  (at level 100, right associativity).

(** [new Point(x, y)] *)
Definition new_Point (px py : number) : M ref :=
  fun s =>
    (Return (length (heap s)),
     mkState (heap s ++ [mkPoint px py]) (alerts s) (console s)).

(** Reading a field of the object at [r]; of [undefined], a TypeError. *)
Definition get_Point (r : ref) : M Point :=
  fun s =>
    match heap s !! r with
    | Some p => (Return p, s)
    | None => (Throw (TypeError "undefined is not an object"), s)
    end.

(** Assigning the fields of the object at [r]. *)
Definition set_Point (r : ref) (p : Point) : M unit :=
  fun s => (Return tt, mkState (<[r := p]> (heap s)) (alerts s) (console s)).

Definition alert (message : string) : M unit :=
  fun s => (Return tt, mkState (heap s) (alerts s ++ [message]) (console s)).

Definition writeln (line : string) : M unit :=
  fun s => (Return tt, mkState (heap s) (alerts s) (console s ++ [line])).

(** A [for] loop over the elements of an array. *)
Fixpoint forEach {A} (body : A -> M unit) (l : list A) : M unit :=
  match l with
  | [] => ret tt
  | a :: l' => body a ;; forEach body l'
  end.

(** ** The host: After Effects properties *)

Inductive KeyframeInterpolationType : Type := LINEAR | BEZIER | HOLD.

Definition KeyframeInterpolationType_eqb (a b : KeyframeInterpolationType) : bool :=
  match a, b with
  | LINEAR, LINEAR | BEZIER, BEZIER | HOLD, HOLD => true
  | _, _ => false
  end.

Record KeyframeEase : Type := mkKeyframeEase { speed : number; influence : number }.

(** [keyInTemporalEase] and [keyOutTemporalEase] return an array of one, two
    or three [KeyframeEase] objects: element [0] and the others. *)
Definition TemporalEase : Type := KeyframeEase * list KeyframeEase.

(** [keyValue] returns a value of the property's own type: a number when
    [property.value] is a number, an array of two or more numbers (element
    [0] and the others) when [property.value instanceof Array]. *)
Inductive KeyValues : Type :=
  | NumberValued (keyValue : nat -> number)
  | ArrayValued (keyValue : nat -> number * list number).

(** What the script reads of a selected property; key indices start at 1. *)
Record Property : Type := mkProperty {
  numKeys : nat;
  keyTime : nat -> number;
  keyValues : KeyValues;
  keyOutInterpolationType : nat -> KeyframeInterpolationType;
  keyInInterpolationType : nat -> KeyframeInterpolationType;
  keyOutTemporalEase : nat -> TemporalEase;
  keyInTemporalEase : nat -> TemporalEase
}.

(** The script's global variables. [outputAsBezierCurveArray] is read by the
    main loop only, which calls [buildBezierCurveArrayString] when it is set
    and [getPath] followed by [toString] when it is not. *)
Record Globals : Type := mkGlobals {
  debug : bool;
  clampInfiniteValues : bool;
  outputAsBezierCurveArray : bool;
  framerate : number
}.

Record TweenData : Type := mkTweenData {
  startTime : number;
  endTime : number;
  durationTime : number;
  startFrame : number;
  endFrame : number;
  durationFrames : number;
  startValue : number;
  endValue : number
}.

(** ** The script, first variant *)

(** [function PathCommand(command)], the coordinates being
    [arguments.slice(1)]: the loop over the pairs of coordinates. *)
Fixpoint PathCommand_points (coordinates : list number) : M (list ref) :=
  match coordinates with
  | cx :: cy :: rest =>
      point <- new_Point cx cy ;;
      others <- PathCommand_points rest ;;
      ret (point :: others)
  | _ => ret []
  end.

Definition new_PathCommand (command : string) (coordinates : list number)
  : M PathCommand :=
  let hasEvenNumberOfCoordinates := Nat.eqb (length coordinates mod 2) 0 in
  if hasEvenNumberOfCoordinates then
    points <- PathCommand_points coordinates ;;
    ret (mkPathCommand command points)
  else
    throw (Error "Must provide an even number of coordinates when instantiating a PathCommand.").

(** [function Path(startX, startY)]; [None] is an argument that is not a
    number ([typeof] differs from ['number']). *)
Definition new_Path (startX startY : option number) : M Path :=
  match startX, startY with
  | Some sx, Some sy =>
      moveCommand <- new_PathCommand "M" [sx; sy] ;;
      ret (mkPath [moveCommand])
  | _, _ => ret (mkPath [])
  end.

(** [point.y *= -1] *)
Definition invert_point (r : ref) : M unit :=
  point <- get_Point r ;;
  set_Point r (mkPoint (x point) (Num.mul (y point) (Num.of_Z (-1)))).

Definition Path_invertYAxis (path : Path) : M unit :=
  forEach (fun command => forEach invert_point (points command)) (commands path).

(** [Path.prototype.getEndPoint]; [None] is [undefined], the element past
    the end of an empty array of points. *)
Definition Path_getEndPoint (path : Path) : M (option ref) :=
  let numCommands := length (commands path) in
  match commands path !! (numCommands - 1)%nat with
  | None => throw (TypeError "undefined is not an object")
  | Some lastCommand =>
      let numPoints := length (points lastCommand) in
      ret (points lastCommand !! (numPoints - 1)%nat)
  end.

Definition cleanNumber (num : number) : number :=
  Conv.parseFloat (Conv.toFixed 4 num).

Definition Point_toString (r : ref) : M string :=
  this <- get_Point r ;;
  ret (Conv.ToString (cleanNumber (x this)) ++ "," ++ Conv.ToString (cleanNumber (y this))).

Fixpoint PathCommand_toString_loop (i : nat) (pts : list ref) (str : string)
  : M string :=
  match pts with
  | [] => ret str
  | p :: pts' =>
      let str := if (1 <=? i)%nat then str ++ "," else str in
      s <- Point_toString p ;;
      PathCommand_toString_loop (S i) pts' (str ++ s)
  end.

Definition PathCommand_toString (this : PathCommand) : M string :=
  PathCommand_toString_loop 0 (points this) (command this).

Fixpoint Path_toString_loop (cmds : list PathCommand) (str : string) : M string :=
  match cmds with
  | [] => ret str
  | c :: cmds' =>
      s <- PathCommand_toString c ;;
      Path_toString_loop cmds' (str ++ s)
  end.

Definition Path_toString (this : Path) : M string :=
  Path_toString_loop (commands this) "".

Section Helpers.

Variable g : Globals.

(** [function log(string)]: [None] is a call without an argument. *)
Definition log (str : option string) : M unit :=
  if debug g then
    writeln (match str with
             | Some s => s
             | None => ""
             end)
  else ret tt.

(** [property.keyValue(index)[0]] when [property.value instanceof Array],
    [property.keyValue(index)] otherwise. *)
Definition keyValue_scalar (property : Property) (index : nat) : number :=
  match keyValues property with
  | ArrayValued keyValue => fst (keyValue index)
  | NumberValued keyValue => keyValue index
  end.

Definition calcTweenData (property : Property) (startIndex endIndex : nat)
  : TweenData :=
  let startTime := keyTime property startIndex in
  let endTime := keyTime property endIndex in
  let durationTime := Num.sub endTime startTime in
  let startFrame := Num.mul startTime (framerate g) in
  let endFrame := Num.mul endTime (framerate g) in
  let durationFrames := Num.sub endFrame startFrame in
  let startValue := keyValue_scalar property startIndex in
  let endValue := keyValue_scalar property endIndex in
  mkTweenData startTime endTime durationTime startFrame endFrame durationFrames
    startValue endValue.

Definition calcEaseType (property : Property) (startIndex endIndex : nat) : string :=
  let startInterpolation := keyOutInterpolationType property startIndex in
  let endInterpolation := keyInInterpolationType property endIndex in
  if KeyframeInterpolationType_eqb startInterpolation LINEAR &&
     KeyframeInterpolationType_eqb endInterpolation LINEAR
  then "linear-linear"
  else if KeyframeInterpolationType_eqb startInterpolation LINEAR &&
          KeyframeInterpolationType_eqb endInterpolation BEZIER
  then "linear-bezier"
  else if KeyframeInterpolationType_eqb startInterpolation BEZIER &&
          KeyframeInterpolationType_eqb endInterpolation LINEAR
  then "bezier-linear"
  else if KeyframeInterpolationType_eqb startInterpolation BEZIER &&
          KeyframeInterpolationType_eqb endInterpolation BEZIER
  then "bezier-bezier"
  else "unsupported".

Definition calcOutgoingControlPoint (tweenData : TweenData) (property : Property)
  (keyIndex : nat) : M ref :=
  let outgoingEase := keyOutTemporalEase property keyIndex in
  let outgoingSpeed := speed (fst outgoingEase) in
  let outgoingInfluence := Num.div (influence (fst outgoingEase)) (Num.of_Z 100) in
  let m := Num.div outgoingSpeed (framerate g) in
  let x := Num.mul (durationFrames tweenData) outgoingInfluence in
  let b := startValue tweenData in
  let y := Num.add (Num.mul m x) b in
  let correctedX := Num.add (startFrame tweenData) x in
  new_Point correctedX y.

Definition calcIncomingControlPoint (tweenData : TweenData) (property : Property)
  (keyIndex : nat) : M ref :=
  let incomingEase := keyInTemporalEase property (keyIndex + 1) in
  let incomingSpeed := speed (fst incomingEase) in
  let incomingInfluence := Num.div (influence (fst incomingEase)) (Num.of_Z 100) in
  let m := Num.div (Num.neg incomingSpeed) (framerate g) in
  let x := Num.mul (durationFrames tweenData) incomingInfluence in
  let b := endValue tweenData in
  let y := Num.add (Num.mul m x) b in
  let correctedX := Num.sub (endFrame tweenData) x in
  new_Point correctedX y.

Definition getCommand (property : Property) (keyIndex : nat) : M PathCommand :=
  let tweenData := calcTweenData property keyIndex (keyIndex + 1) in
  let easeType := calcEaseType property keyIndex (keyIndex + 1) in
  log (Some ("easeType: " ++ easeType)) ;;
  if String.eqb easeType "linear-linear" then
    new_PathCommand "L" [endFrame tweenData; endValue tweenData]
  else
    (if String.eqb easeType "unsupported" then
       log (Some "UNSUPPORTED EASING PAIR!") ;;
       alert "This keyframe pair uses an unsupported pair of ease types, results may be inaccurate."
     else ret tt) ;;
    cmd <- new_PathCommand "C" [] ;;
    outgoing <- calcOutgoingControlPoint tweenData property keyIndex ;;
    incoming <- calcIncomingControlPoint tweenData property keyIndex ;;
    anchor <- new_Point (endFrame tweenData) (endValue tweenData) ;;
    ret (mkPathCommand (command cmd) (points cmd ++ [outgoing; incoming; anchor])).

(** The loop of [getPath]: [i] runs from 1 to [numKeys - 1]. *)
Fixpoint getPath_loop (property : Property) (count i : nat) (path : Path) : M Path :=
  match count with
  | O => ret path
  | S count' =>
      cmd <- getCommand property i ;;
      let path := mkPath (commands path ++ [cmd]) in
      log None ;;
      getPath_loop property count' (S i) path
  end.

(** [getPath] up to the end of its loop: the path as built, before its end
    point is inspected. *)
Definition getPath_build (property : Property) : M Path :=
  let curveStartFrame := Num.mul (keyTime property 1) (framerate g) in
  let curveStartValue := keyValue_scalar property 1 in
  path <- new_Path (Some curveStartFrame) (Some curveStartValue) ;;
  getPath_loop property (numKeys property - 1) 1 path.

(** [getPath]; [None] is [null]. *)
Definition getPath (property : Property) : M (option Path) :=
  if (numKeys property <=? 1)%nat then ret None
  else
    let curveStartValue := keyValue_scalar property 1 in
    path <- getPath_build property ;;
    endPoint <- Path_getEndPoint path ;;
    match endPoint with
    | None => throw (TypeError "undefined is not an object")
    | Some r =>
        endPoint <- get_Point r ;;
        (if Num.gtb (y endPoint) curveStartValue then Path_invertYAxis path
         else ret tt) ;;
        ret (Some path)
    end.

(** The inner function of [getNormalizedCurve]. *)
Definition normalize (val min max : number) : number :=
  let delta := Num.sub max min in
  let normalized := Num.div (Num.sub val min) delta in
  if clampInfiniteValues g then
    let normalized :=
      if Num.eqb normalized Num.NEGATIVE_INFINITY then Num.of_Z (-10)
      else normalized in
    let normalized :=
      if Num.eqb normalized Num.POSITIVE_INFINITY then Num.of_Z 10
      else normalized in
    normalized
  else normalized.

(** [getNormalizedCurve]: the array [[x1, y1, x2, y2]], of strings. *)
Definition getNormalizedCurve (tweenData : TweenData) (p0 p1 : ref)
  : M (list string) :=
  P0 <- get_Point p0 ;;
  let x1 := Conv.toFixed 2 (normalize (x P0) (startFrame tweenData) (endFrame tweenData)) in
  let y1 := Conv.toFixed 2 (normalize (y P0) (startValue tweenData) (endValue tweenData)) in
  let y1 := if Conv.isNaN y1 then x1 else y1 in
  P1 <- get_Point p1 ;;
  let x2 := Conv.toFixed 2 (normalize (x P1) (startFrame tweenData) (endFrame tweenData)) in
  let y2 := Conv.toFixed 2 (normalize (y P1) (startValue tweenData) (endValue tweenData)) in
  let y2 := if Conv.isNaN y2 then x2 else y2 in
  ret [x1; y1; x2; y2].

Definition getBezierVals (prop : Property) (startIndex endIndex : nat)
  : M (list string) :=
  let tweenData := calcTweenData prop startIndex endIndex in
  outgoingPoint <- calcOutgoingControlPoint tweenData prop startIndex ;;
  incomingPoint <- calcIncomingControlPoint tweenData prop startIndex ;;
  getNormalizedCurve tweenData outgoingPoint incomingPoint.

(** The loop of [buildBezierCurveArrayString]: [i] runs from 1 to
    [numKeys - 1]. *)
Fixpoint buildBezierCurveArray (property : Property) (count i : nat)
  : M (list (list string)) :=
  match count with
  | O => ret []
  | S count' =>
      vals <- getBezierVals property i (i + 1) ;;
      others <- buildBezierCurveArray property count' (S i) ;;
      ret (vals :: others)
  end.

(** An array inside [join] is converted with its own [join(',')]. *)
Definition buildBezierCurveArrayString (property : Property) : M string :=
  bezierCurveArray <- buildBezierCurveArray property (numKeys property - 1) 1 ;;
  ret ("[" ++ Conv.join "],[" (map (Conv.join ",") bezierCurveArray) ++ "]").

End Helpers.

(** ** The script, second variant

    The second script of the source file has the same classes and helper
    functions; its [calcIncomingControlPoint] takes the absolute value of
    the incoming speed, and its main loop inlines [getPath] and
    [getCommand]. *)

Module Variant2.

Definition calcIncomingControlPoint (g : Globals) (tweenData : TweenData)
  (property : Property) (keyIndex : nat) : M ref :=
  let incomingEase := keyInTemporalEase property (keyIndex + 1) in
  let incomingSpeed := speed (fst incomingEase) in
  let incomingInfluence := Num.div (influence (fst incomingEase)) (Num.of_Z 100) in
  let m := Num.div (Num.abs incomingSpeed) (framerate g) in
  let x := Num.mul (durationFrames tweenData) incomingInfluence in
  let b := endValue tweenData in
  let y := Num.add (Num.mul m x) b in
  let correctedX := Num.sub (endFrame tweenData) x in
  new_Point correctedX y.

End Variant2.

Definition initial_state : State := mkState [] [] [].

(** ** The script's main logic, first variant

    What the script reads of the application: [$.os] and
    [app.project.activeItem], which is [null], a [CompItem] with its frame
    rate and its selected properties, or an item of another kind. What it
    does besides the effects of [State]: the commands it passes to
    [system.callSystem]. *)

Inductive Item : Type :=
  | CompItem (frameRate : number) (selectedProperties : list Property)
  | OtherItem.

Record Host : Type := mkHost { os : string; activeItem : option Item }.

Record Run : Type := mkRun { script : State; systemCalls : list string }.

Definition H (A : Type) : Type := Run -> Outcome A * Run.

Definition retH {A} (a : A) : H A := fun w => (Return a, w).

Definition bindH {A B} (c : H A) (k : A -> H B) : H B :=
  fun w =>
    match c w with
    | (Return a, w') => k a w'
    | (Throw e, w') => (Throw e, w')
    end.

(** A computation of the script proper, run inside the whole run. *)
Definition lift {A} (c : M A) : H A :=
  fun w =>
    let '(o, s') := c (script w) in (o, mkRun s' (systemCalls w)).

Definition callSystem (cmdString : string) : H unit :=
  fun w => (Return tt, mkRun (script w) (systemCalls w ++ [cmdString])).

Notation "x <~ c1 ;; c2" := (bindH c1 (fun x => c2))
  (at level 100, c1 at next level, right associativity).

Fixpoint forEachH {A} (body : A -> H unit) (l : list A) : H unit :=
  match l with
  | [] => retH tt
  | a :: l' => _ <~ body a ;; forEachH body l'
  end.

(** The double quote and the line feed, as strings. *)
Definition dquote : string := String (ascii_of_nat 34) EmptyString.
Definition newline : string := String (ascii_of_nat 10) EmptyString.

(** [str.indexOf(searchString) === -1] *)
Definition indexOf_is_minus_one (str searchString : string) : bool :=
  match String.index 0 searchString str with
  | None => true
  | Some _ => false
  end.

(** The command line that [copyTextToClipboard] hands to the system. *)
Definition cmdString (host : Host) (str : string) : string :=
  if indexOf_is_minus_one (os host) "Windows"
  then ("echo " ++ dquote ++ str ++ dquote ++ " | pbcopy")%string
  else ("cmd.exe /c cmd.exe /c " ++ dquote ++ "echo " ++ str ++ " | clip" ++ dquote)%string.

Definition copyTextToClipboard (host : Host) (str : string) : H unit :=
  callSystem (cmdString host str).

Definition copied_message_array (bezierCurveArrayString : string) : string :=
  ("Copied to clipboard:" ++ newline ++ bezierCurveArrayString)%string.

Definition copied_message_path (pathString : string) : string :=
  ("Copied to clipboard:" ++ newline ++ pathString ++
   newline ++ newline ++ "Paste directly into a GSAP CustomEase, like:" ++ newline ++
   "CustomEase.create('myCustomEase', '" ++ pathString ++ "');" ++
   newline ++ newline ++
   "More info: https://greensock.com/docs/#/HTML5/GSAP/Easing/CustomEase/")%string.

(** One turn of the loop over [selectedProperties]; [first] is
    [selectedProperties[0]]. *)
Definition main_body (g : Globals) (host : Host) (first : Property)
  (currentProperty : Property) : H unit :=
  if outputAsBezierCurveArray g then
    bezierCurveArrayString <~ lift (buildBezierCurveArrayString g first) ;;
    _ <~ lift (log g (Some bezierCurveArrayString)) ;;
    _ <~ lift (log g None) ;;
    _ <~ lift (log g None) ;;
    _ <~ copyTextToClipboard host bezierCurveArrayString ;;
    lift (alert (copied_message_array bezierCurveArrayString))
  else
    path <~ lift (getPath g currentProperty) ;;
    match path with
    | None => retH tt
    | Some path =>
        pathString <~ lift (Path_toString path) ;;
        _ <~ lift (log g (Some pathString)) ;;
        _ <~ lift (log g None) ;;
        _ <~ lift (log g None) ;;
        _ <~ copyTextToClipboard host pathString ;;
        lift (alert (copied_message_path pathString))
    end.

(** The main logic; the three flags are the script's [debug],
    [clampInfiniteValues] and [outputAsBezierCurveArray]. *)
Definition main (debug clampInfiniteValues outputAsBezierCurveArray : bool)
  (host : Host) : H unit :=
  match activeItem host with
  | Some (CompItem frameRate selectedProperties) =>
      let g := mkGlobals debug clampInfiniteValues outputAsBezierCurveArray frameRate in
      match selectedProperties with
      | [] => lift (alert "Please Select at least one Property (Scale, Opacity, etc)")
      | first :: _ => forEachH (main_body g host first) selectedProperties
      end
  | _ => lift (alert "Please Select a Comp")
  end.

Definition initial_run : Run := mkRun initial_state [].

(** ** The script's main logic, second variant

    The second script has no functions [getPath] and [getCommand]: its main
    logic holds their code inside a loop over the selected layers and a
    [for ... in] loop over the selected properties, and the loop over the
    keyframes reuses the variable [i] of the loop over the layers. It has no
    settings: every line is written to the console and only the frame rate
    is read of [Globals]. It does not test the active item.

    [selectedProperties] lists the properties in the order in which the
    [for ... in] loop visits them; [selectedLayers] is the length of
    [curItem.selectedLayers]. The loop over the layers need not end: [fuel]
    bounds the number of its turns, and [None] is a run that has used it
    up. *)

Module Variant2Main.

Section Loops.

Variable g : Globals.
Variable host : Host.

(** One turn of the loop over the keyframes. *)
Definition keyframe_turn (currentProperty : Property) (i : nat) (path : Path)
  : M Path :=
  let tweenData := calcTweenData g currentProperty i (i + 1) in
  let easeType := calcEaseType currentProperty i (i + 1) in
  writeln ("easeType: " ++ easeType) ;;
  if String.eqb easeType "linear-linear" then
    cmd <- new_PathCommand "L" [endFrame tweenData; endValue tweenData] ;;
    ret (mkPath (commands path ++ [cmd]))
  else
    (if String.eqb easeType "unsupported" then
       writeln "UNSUPPORTED EASING PAIR!" ;;
       alert "This keyframe pair uses an unsupported pair of ease types, results may be inaccurate."
     else ret tt) ;;
    cmd <- new_PathCommand "C" [] ;;
    outgoing <- calcOutgoingControlPoint g tweenData currentProperty i ;;
    incoming <- Variant2.calcIncomingControlPoint g tweenData currentProperty i ;;
    anchor <- new_Point (endFrame tweenData) (endValue tweenData) ;;
    let cmd := mkPathCommand (command cmd) (points cmd ++ [outgoing; incoming; anchor]) in
    writeln "" ;;
    ret (mkPath (commands path ++ [cmd])).

(** [for (i = 1; i < currentProperty.numKeys; i++)]: the path and the value
    that the loop leaves in [i]. *)
Fixpoint keyframes_loop (currentProperty : Property) (count i : nat) (path : Path)
  : M (Path * nat) :=
  match count with
  | O => ret (path, i)
  | S count' =>
      path <- keyframe_turn currentProperty i path ;;
      keyframes_loop currentProperty count' (S i) path
  end.

(** One turn of the loop over the properties; it returns the value of
    [i]. *)
Definition property_turn (i : nat) (currentProperty : Property) : H nat :=
  if (numKeys currentProperty <=? 1)%nat then retH i
  else
    let curveStartFrame := Num.mul (keyTime currentProperty 1) (framerate g) in
    let curveStartValue := keyValue_scalar currentProperty 1 in
    path <~ lift (new_Path (Some curveStartFrame) (Some curveStartValue)) ;;
    built <~ lift (keyframes_loop currentProperty (numKeys currentProperty - 1) 1 path) ;;
    let path := fst built in
    let i := snd built in
    endPoint <~ lift (Path_getEndPoint path) ;;
    match endPoint with
    | None => lift (throw (TypeError "undefined is not an object"))
    | Some r =>
        endPoint <~ lift (get_Point r) ;;
        _ <~ lift (if Num.gtb (y endPoint) curveStartValue
                   then Path_invertYAxis path else ret tt) ;;
        pathString <~ lift (Path_toString path) ;;
        _ <~ lift (writeln pathString) ;;
        _ <~ lift (writeln "") ;;
        _ <~ lift (writeln "") ;;
        _ <~ copyTextToClipboard host pathString ;;
        _ <~ lift (alert (copied_message_path pathString)) ;;
        retH i
    end.

(** [for (var f in selectedProperties)] *)
Fixpoint properties_loop (i : nat) (selectedProperties : list Property) : H nat :=
  match selectedProperties with
  | [] => retH i
  | currentProperty :: others =>
      i <~ property_turn i currentProperty ;;
      properties_loop i others
  end.

(** [for (var i = 0; i < selectedLayers.length; i++)], from the test of
    its condition on. *)
Fixpoint layers_loop (fuel : nat) (selectedLayers : nat)
  (selectedProperties : list Property) (i : nat) : H (option unit) :=
  match fuel with
  | O => retH None
  | S fuel' =>
      if (i <? selectedLayers)%nat then
        i <~ properties_loop i selectedProperties ;;
        layers_loop fuel' selectedLayers selectedProperties (i + 1)
      else retH (Some tt)
  end.

End Loops.

(** The main logic. [curItem.frameRate] throws when [curItem] is [null];
    an item that is not a composition has no [selectedLayers], and the
    length of [undefined] throws as well. *)
Definition main (fuel : nat) (host : Host) (selectedLayers : nat) : H (option unit) :=
  match activeItem host with
  | None => lift (throw (TypeError "null is not an object"))
  | Some OtherItem => lift (throw (TypeError "undefined is not an object"))
  | Some (CompItem frameRate selectedProperties) =>
      let g := mkGlobals false false false frameRate in
      if (selectedLayers =? 0)%nat then
        _ <~ lift (alert "Please Select at least one Layer") ;; retH (Some tt)
      else
        match selectedProperties with
        | [] =>
            _ <~ lift (alert "Please Select at least one Property (Scale, Opacity, etc)") ;;
            retH (Some tt)
        | _ :: _ => layers_loop g host fuel selectedLayers selectedProperties 0
        end
  end.

End Variant2Main.

(** ** Vocabulary of the properties *)

(** The state after one more [Point] object has been created. *)
Definition with_point (s : State) (p : Point) : State :=
  mkState (heap s ++ [p]) (alerts s) (console s).

(** The [Point] object that a computation returns, read in the state the
    computation leaves. *)
Definition result_point (c : M ref) (s : State) : option Point :=
  match c s with
  | (Return r, s') => heap s' !! r
  | (Throw _, _) => None
  end.

Definition result {A} (c : M A) (s : State) : option A :=
  match c s with
  | (Return a, _) => Some a
  | (Throw _, _) => None
  end.

(** *** A worked example: two keyframes at 0 s and 0.8 s, 30 frames per
    second, values 0 and -100, eases of speed 10 and -10 and influence
    33.33. *)

Definition example_globals : Globals :=
  mkGlobals false true false (Num.lit 30 0).

Definition example_property : Property :=
  mkProperty 2
    (fun i => match i with 1%nat => Num.lit 0 0 | _ => Num.lit 8 1 end)
    (NumberValued (fun i => match i with 1%nat => Num.lit 0 0 | _ => Num.lit (-100) 0 end))
    (fun _ => BEZIER) (fun _ => BEZIER)
    (fun _ => (mkKeyframeEase (Num.lit 10 0) (Num.lit 3333 2), []))
    (fun _ => (mkKeyframeEase (Num.lit (-10) 0) (Num.lit 3333 2), [])).

Definition example_tweenData : TweenData :=
  mkTweenData (Num.lit 0 0) (Num.lit 8 1) (Num.lit 8 1)
    (Num.lit 0 0) (Num.lit 24 0) (Num.lit 24 0) (Num.lit 0 0) (Num.lit (-100) 0).

(** *** What the helpers create, as pure functions of their inputs *)

(** The Points that [new PathCommand(command, c0, c1, ...)] creates. *)
Fixpoint pair_up (coordinates : list number) : list Point :=
  match coordinates with
  | cx :: cy :: rest => mkPoint cx cy :: pair_up rest
  | _ => []
  end.

(** The state after the Points [pts] have been created, in this order. *)
Definition with_points (s : State) (pts : list Point) : State :=
  mkState (heap s ++ pts) (alerts s) (console s).

(** The addresses of [n] Points created in state [s]. *)
Definition fresh (s : State) (n : nat) : list ref := seq (length (heap s)) n.

Definition outgoing_point (g : Globals) (tweenData : TweenData)
  (property : Property) (keyIndex : nat) : Point :=
  let e := fst (keyOutTemporalEase property keyIndex) in
  let m := Num.div (speed e) (framerate g) in
  let dx := Num.mul (durationFrames tweenData) (Num.div (influence e) (Num.of_Z 100)) in
  mkPoint (Num.add (startFrame tweenData) dx)
          (Num.add (Num.mul m dx) (startValue tweenData)).

Definition incoming_point (g : Globals) (tweenData : TweenData)
  (property : Property) (keyIndex : nat) : Point :=
  let e := fst (keyInTemporalEase property (keyIndex + 1)) in
  let m := Num.div (Num.neg (speed e)) (framerate g) in
  let dx := Num.mul (durationFrames tweenData) (Num.div (influence e) (Num.of_Z 100)) in
  mkPoint (Num.sub (endFrame tweenData) dx)
          (Num.add (Num.mul m dx) (endValue tweenData)).

Definition anchor_point (tweenData : TweenData) : Point :=
  mkPoint (endFrame tweenData) (endValue tweenData).

Definition unsupported_warning : string :=
  "This keyframe pair uses an unsupported pair of ease types, results may be inaccurate.".

(** The Points, the alerts and the console lines of one call of
    [getCommand]. *)
Definition getCommand_points (g : Globals) (property : Property) (keyIndex : nat)
  : list Point :=
  let tweenData := calcTweenData g property keyIndex (keyIndex + 1) in
  if String.eqb (calcEaseType property keyIndex (keyIndex + 1)) "linear-linear"
  then [anchor_point tweenData]
  else [outgoing_point g tweenData property keyIndex;
        incoming_point g tweenData property keyIndex;
        anchor_point tweenData].

Definition getCommand_letter (property : Property) (keyIndex : nat) : string :=
  if String.eqb (calcEaseType property keyIndex (keyIndex + 1)) "linear-linear"
  then "L" else "C".

Definition getCommand_alerts (property : Property) (keyIndex : nat) : list string :=
  if String.eqb (calcEaseType property keyIndex (keyIndex + 1)) "unsupported"
  then [unsupported_warning] else [].

Definition getCommand_console (g : Globals) (property : Property) (keyIndex : nat)
  : list string :=
  let easeType := calcEaseType property keyIndex (keyIndex + 1) in
  if debug g then
    ("easeType: " ++ easeType) ::
    (if String.eqb easeType "unsupported" then ["UNSUPPORTED EASING PAIR!"] else [])
  else [].

(** All the point references of a path, command after command. *)
Definition path_points (path : Path) : list ref :=
  concat (map points (commands path)).

(** [point.y *= -1], on the fields of a Point. *)
Definition inverted (p : Point) : Point :=
  mkPoint (x p) (Num.mul (y p) (Num.of_Z (-1))).

Definition odd_coordinates_message : string :=
  "Must provide an even number of coordinates when instantiating a PathCommand.".

Definition is_zero (a : number) : bool :=
  match a with S754_zero _ => true | _ => false end.

(** Equal, or two zeros whatever their signs. *)
Definition same_up_to_zero_sign (a b : number) : Prop :=
  a = b \/ (is_zero a = true /\ is_zero b = true).

(** *** A second example: values 0 and 100, an incoming speed of 1e-15. *)

Definition tiny_speed_property : Property :=
  mkProperty 2
    (fun i => match i with 1%nat => Num.lit 0 0 | _ => Num.lit 8 1 end)
    (NumberValued (fun i => match i with 1%nat => Num.lit 0 0 | _ => Num.lit 100 0 end))
    (fun _ => BEZIER) (fun _ => BEZIER)
    (fun _ => (mkKeyframeEase (Num.lit 0 0) (Num.lit 3333 2), []))
    (fun _ => (mkKeyframeEase (Num.lit 1 15) (Num.lit 3333 2), [])).

(** The Point that the second variant's [calcIncomingControlPoint]
    creates. *)
Definition incoming_point_variant2 (g : Globals) (tweenData : TweenData)
  (property : Property) (keyIndex : nat) : Point :=
  let e := fst (keyInTemporalEase property (keyIndex + 1)) in
  let m := Num.div (Num.abs (speed e)) (framerate g) in
  let dx := Num.mul (durationFrames tweenData) (Num.div (influence e) (Num.of_Z 100)) in
  mkPoint (Num.sub (endFrame tweenData) dx)
          (Num.add (Num.mul m dx) (endValue tweenData)).

Definition is_infinite (a : number) : bool :=
  match a with S754_infinity _ => true | _ => false end.

(** The normalized coordinates that [getNormalizedCurve] computes for a
    Point: [x1] (or [x2]), and [y1] (or [y2]) after the [isNaN] test. *)
Definition normalized_x (g : Globals) (tweenData : TweenData) (p : Point) : string :=
  Conv.toFixed 2 (normalize g (x p) (startFrame tweenData) (endFrame tweenData)).

Definition normalized_y (g : Globals) (tweenData : TweenData) (p : Point) : string :=
  let y1 := Conv.toFixed 2
              (normalize g (y p) (startValue tweenData) (endValue tweenData)) in
  if Conv.isNaN y1 then normalized_x g tweenData p else y1.

(** *** A third example: a segment whose two values are 50, left with a
    speed of 10. *)

Definition flat_property : Property :=
  mkProperty 2
    (fun i => match i with 1%nat => Num.lit 0 0 | _ => Num.lit 8 1 end)
    (NumberValued (fun _ => Num.lit 50 0))
    (fun _ => BEZIER) (fun _ => BEZIER)
    (fun _ => (mkKeyframeEase (Num.lit 10 0) (Num.lit 3333 2), []))
    (fun _ => (mkKeyframeEase (Num.lit (-10) 0) (Num.lit 3333 2), [])).

(** What [getNormalizedCurve] yields as the normalized [y] of the Point
    [p], given its normalized [x], on a segment whose start and end values
    are equal. *)
Definition flat_segment_rule (g : Globals) (tweenData : TweenData) (p : Point)
  (xn yn : string) : Prop :=
  let d := Num.sub (y p) (startValue tweenData) in
  if is_zero d || Num.is_nan d || is_infinite (startValue tweenData)
  then yn = xn
  else if clampInfiniteValues g
       then yn = "10.00" \/ yn = "-10.00"
       else yn = "Infinity" \/ yn = "-Infinity".

(** *** Serialization, as pure functions of the store *)

Definition point_text (p : Point) : string :=
  (Conv.ToString (cleanNumber (x p)) ++ "," ++ Conv.ToString (cleanNumber (y p)))%string.

Definition ref_text (s : State) (r : ref) : string :=
  match heap s !! r with
  | Some p => point_text p
  | None => ""
  end.

Definition command_text (s : State) (c : PathCommand) : string :=
  (command c ++ Conv.join "," (map (ref_text s) (points c)))%string.

Definition path_text (s : State) (path : Path) : string :=
  String.concat "" (map (command_text s) (commands path)).

Fixpoint no_white_space (s : string) : bool :=
  match s with
  | EmptyString => true
  | String c s' => negb (Conv.is_white_space c) && no_white_space s'
  end.

(** *** What an operation does to the Points that exist already *)

(** Every existing Point keeps both its fields. *)
Definition keeps_points (s s' : State) : Prop :=
  forall (r : ref) (p : Point), heap s !! r = Some p -> heap s' !! r = Some p.

(** Every existing Point keeps its [x]. *)
Definition keeps_x (s s' : State) : Prop :=
  forall (r : ref) (p : Point),
    heap s !! r = Some p -> exists p', heap s' !! r = Some p' /\ x p' = x p.

(** The computation [c] leaves every state related by [R] to the state it
    started from, whether it returns or throws. *)
Definition preserves {A} (R : State -> State -> Prop) (c : M A) : Prop :=
  forall s, R s (snd (c s)).

(** The same property with other interpolation types. *)
Definition with_interpolation (property : Property)
  (outType inType : nat -> KeyframeInterpolationType) : Property :=
  mkProperty (numKeys property) (keyTime property) (keyValues property)
    outType inType
    (keyOutTemporalEase property) (keyInTemporalEase property).

(** The four normalized numbers of the pair of keyframes [i] and
    [j]. *)
Definition normalized_group (g : Globals) (property : Property) (i j : nat)
  : list string :=
  let tweenData := calcTweenData g property i j in
  let outgoingPoint := outgoing_point g tweenData property i in
  let incomingPoint := incoming_point g tweenData property i in
  [normalized_x g tweenData outgoingPoint; normalized_y g tweenData outgoingPoint;
   normalized_x g tweenData incomingPoint; normalized_y g tweenData incomingPoint].

(** *** A fourth example: a value rising from 0 to 100. *)

Definition rising_property : Property :=
  mkProperty 2
    (fun i => match i with 1%nat => Num.lit 0 0 | _ => Num.lit 8 1 end)
    (NumberValued (fun i => match i with 1%nat => Num.lit 0 0 | _ => Num.lit 100 0 end))
    (fun _ => LINEAR) (fun _ => LINEAR)
    (fun _ => (mkKeyframeEase (Num.lit 0 0) (Num.lit 3333 2), []))
    (fun _ => (mkKeyframeEase (Num.lit 0 0) (Num.lit 3333 2), [])).

(** *** Rounding, for the properties of the arithmetic *)

(** Rounding [m / 2^n] to the nearest integer, ties to even. *)
Definition rne (m n : Z) : Z :=
  let q := m / 2 ^ n in
  match 2 * (m mod 2 ^ n) ?= 2 ^ n with
  | Lt => q
  | Gt => q + 1
  | Eq => if Z.even q then q else q + 1
  end.

(** The mantissa [m] at exponent [e], brought to the exponent [t <= e]. *)
Definition aligned (m : positive) (e t : Z) : positive :=
  fst (shl_align m e t).

(** What rounding makes of the integer [q] (53 or 54 digits) at exponent
    [e]: itself, or [2^52] one exponent up after a carry; an infinity past
    the largest exponent. *)
Definition packed (s : bool) (q e : Z) : spec_float :=
  if q <? 2 ^ 53
  then (if e <=? 971 then S754_finite s (Z.to_pos q) e else S754_infinity s)
  else (if e + 1 <=? 971 then S754_finite s (Z.to_pos (2 ^ 52)) (e + 1)
        else S754_infinity s).

(** The exponent and the mantissa of a finite number. *)
Definition exponent_of (a : spec_float) : Z :=
  match a with S754_finite _ _ e => e | _ => 0 end.

Definition mantissa_of (a : spec_float) : Z :=
  match a with S754_finite _ m _ => Zpos m | _ => 0 end.

(** A finite number has an exponent that is not below the least one. *)
Definition exponent_ok (a : spec_float) : Prop :=
  match a with S754_finite _ _ e => -1074 <= e | _ => True end.

(** A proper binary64 value: a finite one has a canonical mantissa and an
    exponent within bounds. *)
Definition is_binary64 (a : number) : bool :=
  valid_binary Num.prec Num.emax a.

(** What the rounding of an integer can be: the zero [+0], a finite number
    or an infinity. *)
Definition rounded_shape (a : number) : Prop :=
  match a with
  | S754_zero s => s = false
  | S754_nan => False
  | _ => True
  end.

(** *** A fifth example: an incoming speed of 10 (positive). *)

Definition positive_speed_property : Property :=
  mkProperty 2
    (fun i => match i with 1%nat => Num.lit 0 0 | _ => Num.lit 8 1 end)
    (NumberValued (fun i => match i with 1%nat => Num.lit 0 0 | _ => Num.lit (-100) 0 end))
    (fun _ => BEZIER) (fun _ => BEZIER)
    (fun _ => (mkKeyframeEase (Num.lit 10 0) (Num.lit 3333 2), []))
    (fun _ => (mkKeyframeEase (Num.lit 10 0) (Num.lit 3333 2), [])).

(** *** The path of a property, as letters and Points *)

(** A command as a letter and the fields of its Points. *)
Definition CommandModel : Type := (string * list Point)%type.

(** The path object [path], in state [s], holds the commands [cmds]. *)
Definition represents (s : State) (path : Path) (cmds : list CommandModel) : Prop :=
  Forall2
    (fun (c : PathCommand) (pc : CommandModel) =>
       command c = fst pc /\
       Forall2 (fun (r : ref) (p : Point) => heap s !! r = Some p) (points c) (snd pc))
    (commands path) cmds.

(** The command that [getCommand] returns for the pair of keyframes [k] and
    [k + 1]. *)
Definition command_model (g : Globals) (property : Property) (k : nat)
  : CommandModel :=
  (getCommand_letter property k, getCommand_points g property k).

(** The start point of the path, the first keyframe. *)
Definition start_point (g : Globals) (property : Property) : Point :=
  mkPoint (Num.mul (keyTime property 1) (framerate g)) (keyValue_scalar property 1).

(** The commands of the path that the loop of [getPath] builds. *)
Definition built_commands (g : Globals) (property : Property) : list CommandModel :=
  ("M", [start_point g property]) ::
  map (command_model g property) (seq 1 (numKeys property - 1)).

(** The last keyframe, as a Point. *)
Definition last_keyframe (g : Globals) (property : Property) : Point :=
  mkPoint (Num.mul (keyTime property (numKeys property)) (framerate g))
          (keyValue_scalar property (numKeys property)).

Definition inverted_command (pc : CommandModel) : CommandModel :=
  (fst pc, map inverted (snd pc)).

(** The commands of the path that [getPath] returns. *)
Definition getPath_commands (g : Globals) (property : Property) : list CommandModel :=
  if Num.gtb (y (last_keyframe g property)) (keyValue_scalar property 1)
  then map inverted_command (built_commands g property)
  else built_commands g property.

Definition commands_text (cmds : list CommandModel) : string :=
  String.concat ""
    (map (fun pc : CommandModel =>
            (fst pc ++ Conv.join "," (map point_text (snd pc)))%string) cmds).

(** The string that [getPath(property).toString()] yields. *)
Definition getPath_string (g : Globals) (property : Property) : string :=
  commands_text (getPath_commands g property).

(** The alerts of the calls of [getCommand] for the pairs [i], ...,
    [i + count - 1]. *)
Definition getPath_alerts (property : Property) (i count : nat) : list string :=
  concat (map (getCommand_alerts property) (seq i count)).

(** *** The main logic *)

(** The pair of the keyframes [k] and [k + 1] leaves or reaches a keyframe
    with a HOLD interpolation. *)
Definition hold_pair (property : Property) (k : nat) : bool :=
  match keyOutInterpolationType property k,
        keyInInterpolationType property (k + 1) with
  | HOLD, _ => true
  | _, HOLD => true
  | _, _ => false
  end.

(** The number of such pairs of a property. *)
Definition hold_pairs (property : Property) : nat :=
  length (List.filter (hold_pair property) (seq 1 (numKeys property - 1))).

(** A property that has a curve: two keyframes or more. *)
Definition has_curve (property : Property) : bool :=
  (1 <? numKeys property)%nat.

(** The string that [buildBezierCurveArrayString(property)] yields. *)
Definition bezier_array_string (g : Globals) (property : Property) : string :=
  "[" ++ Conv.join "],["
           (map (Conv.join ",")
              (map (fun k => normalized_group g property k (k + 1))
                 (seq 1 (numKeys property - 1)))) ++ "]".

(** What the main loop adds to the alerts for one property, in path mode. *)
Definition path_mode_alerts (g : Globals) (property : Property) : list string :=
  getPath_alerts property 1 (numKeys property - 1) ++
  [copied_message_path (getPath_string g property)].

(** Every character of [str] satisfies [P]. *)
Fixpoint made_of (P : ascii -> bool) (str : string) : bool :=
  match str with
  | EmptyString => true
  | String c str' => P c && made_of P str'
  end.

(** The characters of a path string: the digits, the signs, the decimal
    point, the comma, the exponent mark, the command letters and the letters
    of [NaN] and [Infinity]. *)
Definition path_char (c : ascii) : bool :=
  match String.index 0 (String c EmptyString) "0123456789+-.,eMLCNaInfity" with
  | Some _ => true
  | None => false
  end.

(** The first and the last Point of a list of commands. *)
Definition first_point (cmds : list CommandModel) : option Point :=
  match cmds with
  | (_, p :: _) :: _ => Some p
  | _ => None
  end.

Definition last_point (cmds : list CommandModel) : option Point :=
  match last cmds with
  | Some (_, ps) => last ps
  | None => None
  end.

(** A Point of the path that [getPath] returns, from the Point that the loop
    has built: inverted when the path is. *)
Definition returned_point (g : Globals) (property : Property) (p : Point) : Point :=
  if Num.gtb (y (last_keyframe g property)) (keyValue_scalar property 1)
  then inverted p else p.

(** What a part of the main logic does, from the run [w] to the run [w']:
    the commands it passes to the system, the messages it shows, no change
    to an existing Point, and no line on the console when [quiet]. *)
Record turn (w w' : Run) (calls alerted : list string) (quiet : bool) : Prop :=
  mkTurn {
  turn_calls : systemCalls w' = (systemCalls w ++ calls)%list;
  turn_alerts : alerts (script w') = (alerts (script w) ++ alerted)%list;
  turn_points : keeps_points (script w) (script w');
  turn_console : quiet = true -> console (script w') = console (script w)
}.

(** *** A run of the main logic: a composition with three selected
    properties, the first of which has one keyframe only. *)

Definition single_key_property : Property :=
  mkProperty 1
    (fun _ => Num.lit 0 0)
    (NumberValued (fun _ => Num.lit 50 0))
    (fun _ => BEZIER) (fun _ => BEZIER)
    (fun _ => (mkKeyframeEase (Num.lit 0 0) (Num.lit 3333 2), []))
    (fun _ => (mkKeyframeEase (Num.lit 0 0) (Num.lit 3333 2), [])).

Definition example_host : Host :=
  mkHost "Macintosh OS 10.15.7"
    (Some (CompItem (Num.lit 30 0)
             [single_key_property; example_property; rising_property])).

(** The messages of the two early returns of the main logic. *)
Definition no_comp_message : string := "Please Select a Comp".

Definition no_property_message : string :=
  "Please Select at least one Property (Scale, Opacity, etc)".

(** The characters of an array string when infinite values are clamped. *)
Definition array_char (c : ascii) : bool :=
  match String.index 0 (String c EmptyString) "0123456789+-.,e[]Na" with
  | Some _ => true
  | None => false
  end.

(** *** The second variant *)

(** The property that the first variant treats as the second variant
    treats [property]: the first takes the opposite of an incoming speed
    where the second takes its absolute value. *)
Definition variant1_equivalent (property : Property) : Property :=
  mkProperty (numKeys property) (keyTime property) (keyValues property)
    (keyOutInterpolationType property) (keyInInterpolationType property)
    (keyOutTemporalEase property)
    (fun k =>
       let ease := keyInTemporalEase property k in
       (mkKeyframeEase (Num.neg (Num.abs (speed (fst ease)))) (influence (fst ease)),
        snd ease)).

(** The string that the second variant copies for a property. *)
Definition variant2_string (g : Globals) (property : Property) : string :=
  getPath_string g (variant1_equivalent property).

(** The commands that one turn of the loop over the layers passes to the
    system, and its alerts. *)
Definition variant2_calls (g : Globals) (host : Host)
  (selectedProperties : list Property) : list string :=
  map (fun p => cmdString host (variant2_string g p))
    (List.filter has_curve selectedProperties).

Definition variant2_alerts (g : Globals) (selectedProperties : list Property)
  : list string :=
  concat (map (fun p => path_mode_alerts g (variant1_equivalent p))
            (List.filter has_curve selectedProperties)).

(** The value that one turn of the loop over the layers leaves in [i]: the
    number of keyframes of the last property that has a curve. *)
Definition i_after (i : nat) (selectedProperties : list Property) : nat :=
  match last (List.filter has_curve selectedProperties) with
  | Some p => numKeys p
  | None => i
  end.

(** A composition with the property [example_property] selected on five
    layers, and on two. *)
Definition one_property_host : Host :=
  mkHost "Macintosh OS 10.15.7"
    (Some (CompItem (Num.lit 30 0) [example_property])).

(** * Properties *)

#[local] Open Scope list_scope.

(** ** Floating-point arithmetic *)

Lemma add_comm (a b : number) : Num.add a b = Num.add b a.
Proof.
  unfold Num.add.
  destruct a as [sa|sa| |sa ma ea], b as [sb|sb| |sb mb eb];
    try reflexivity;
    try (destruct sa, sb; reflexivity).
  cbn [SFadd]. rewrite (Z.min_comm eb ea). f_equal. apply Z.add_comm.
Qed.

Lemma div_neg_l (a b : number) :
  Num.div (Num.neg a) b = Num.neg (Num.div a b).
Proof.
  unfold Num.div, Num.neg.
  destruct a as [sa|sa| |sa ma ea], b as [sb|sb| |sb mb eb];
    try reflexivity;
    try (destruct sa, sb; reflexivity).
  cbn [SFdiv SFopp].
  destruct (SFdiv_core_binary _ _ _ _ _ _) as [[mz ez] lz].
  unfold binary_round_aux.
  destruct (shr_fexp _ _ mz ez lz) as [mrs' e'].
  destruct (shr_fexp _ _ _ e' loc_Exact) as [mrs'' e''].
  destruct (shr_m mrs''); [| destruct (_ <=? _) |]; cbn;
    destruct sa, sb; reflexivity.
Qed.

Lemma mul_neg_l (a b : number) :
  Num.mul (Num.neg a) b = Num.neg (Num.mul a b).
Proof.
  unfold Num.mul, Num.neg.
  destruct a as [sa|sa| |sa ma ea], b as [sb|sb| |sb mb eb];
    try reflexivity;
    try (destruct sa, sb; reflexivity).
  cbn [SFmul SFopp].
  unfold binary_round_aux.
  destruct (shr_fexp _ _ _ _ _) as [mrs' e'].
  destruct (shr_fexp _ _ _ e' loc_Exact) as [mrs'' e''].
  destruct (shr_m mrs''); [| destruct (_ <=? _) |]; cbn;
    destruct sa, sb; reflexivity.
Qed.

(** ** Rounding in an addition

    [Num.add] rounds the exact sum of two aligned mantissas to the nearest
    binary64 value. Rounding is monotone, so the integers that round to a
    given value form an interval ([binary_normalize_convex]); hence adding
    [p] and [-p] to [b] gives the same result only if that result is [b]
    ([add_absorbed]). *)

Lemma digits2_pos_bounds (m : positive) :
  2 ^ (Zpos (digits2_pos m) - 1) <= Zpos m < 2 ^ Zpos (digits2_pos m).
Proof.
  induction m as [m IH|m IH|]; cbn [digits2_pos].
  - rewrite Pos2Z.inj_succ.
    replace (Z.succ (Zpos (digits2_pos m)) - 1) with (Z.succ (Zpos (digits2_pos m) - 1)) by lia.
    rewrite !Z.pow_succ_r by lia. lia.
  - rewrite Pos2Z.inj_succ.
    replace (Z.succ (Zpos (digits2_pos m)) - 1) with (Z.succ (Zpos (digits2_pos m) - 1)) by lia.
    rewrite !Z.pow_succ_r by lia. lia.
  - cbn. lia.
Qed.

Lemma digits2_pos_unique (m : positive) (k : Z) :
  2 ^ (k - 1) <= Zpos m < 2 ^ k -> Zpos (digits2_pos m) = k.
Proof.
  intros [Hlo Hhi].
  pose proof (digits2_pos_bounds m) as [Dlo Dhi].
  assert (0 < k).
  { destruct (Z.ltb_spec 0 k); [assumption|].
    assert (2 ^ k <= 2 ^ 0) by (apply Z.pow_le_mono_r; lia).
    cbn in *. lia. }
  destruct (Z.lt_trichotomy (Zpos (digits2_pos m)) k) as [Hlt|[Heq|Hgt]];
    [|exact Heq|].
  - assert (2 ^ Zpos (digits2_pos m) <= 2 ^ (k - 1))
      by (apply Z.pow_le_mono_r; lia). lia.
  - assert (2 ^ k <= 2 ^ (Zpos (digits2_pos m) - 1))
      by (apply Z.pow_le_mono_r; lia). lia.
Qed.

Lemma digits2_pos_mono (a b : positive) :
  (a <= b)%positive -> Zpos (digits2_pos a) <= Zpos (digits2_pos b).
Proof.
  intros Hab.
  pose proof (digits2_pos_bounds a) as [Alo Ahi].
  pose proof (digits2_pos_bounds b) as [Blo Bhi].
  destruct (Z.leb_spec (Zpos (digits2_pos a)) (Zpos (digits2_pos b)));
    [assumption|].
  assert (2 ^ Zpos (digits2_pos b) <= 2 ^ (Zpos (digits2_pos a) - 1))
    by (apply Z.pow_le_mono_r; lia).
  lia.
Qed.

Lemma iter_pos_nat {A} (f : A -> A) (p : positive) :
  forall x, SpecFloat.iter_pos f p x = Nat.iter (Pos.to_nat p) f x.
Proof.
  induction p as [p IH|p IH|]; intros x; cbn [SpecFloat.iter_pos].
  - rewrite !IH. rewrite Pos2Nat.inj_xI.
    replace (S (2 * Pos.to_nat p))%nat with (Pos.to_nat p + (Pos.to_nat p + 1))%nat by lia.
    rewrite !Nat.iter_add. reflexivity.
  - rewrite !IH. rewrite Pos2Nat.inj_xO.
    replace (2 * Pos.to_nat p)%nat with (Pos.to_nat p + Pos.to_nat p)%nat by lia.
    rewrite Nat.iter_add. reflexivity.
  - reflexivity.
Qed.

(** One shift on a non-negative mantissa. *)
Lemma shr_1_spec (m : Z) (r s : bool) :
  0 <= m ->
  shr_1 (Build_shr_record m r s) = Build_shr_record (m / 2) (Z.odd m) (r || s).
Proof.
  intros Hm. rewrite <- Z.div2_div.
  destruct m as [|p|p]; [reflexivity| |lia].
  destruct p; reflexivity.
Qed.

(** [n >= 1] shifts of an exact mantissa. *)
Lemma shr_iter_spec (m : Z) (n : nat) :
  0 <= m ->
  Nat.iter (S n) shr_1 (Build_shr_record m false false)
  = Build_shr_record (m / 2 ^ Z.of_nat (S n))
      (Z.odd (m / 2 ^ Z.of_nat n))
      (negb (m mod 2 ^ Z.of_nat n =? 0)).
Proof.
  intros Hm. induction n as [|n IH].
  - cbn [Nat.iter]. rewrite shr_1_spec by assumption.
    change (2 ^ Z.of_nat 0) with 1. rewrite Z.div_1_r, Z.mod_1_r.
    reflexivity.
  - rewrite Nat.iter_succ, IH.
    assert (Hp : 0 < 2 ^ Z.of_nat n) by (apply Z.pow_pos_nonneg; lia).
    assert (Hq : 0 <= m / 2 ^ Z.of_nat (S n)).
    { apply Z.div_pos; [assumption|apply Z.pow_pos_nonneg; lia]. }
    rewrite shr_1_spec by assumption.
    assert (E1 : 2 ^ Z.of_nat (S n) = 2 ^ Z.of_nat n * 2).
    { rewrite Nat2Z.inj_succ, Z.pow_succ_r by lia. lia. }
    assert (E2 : 2 ^ Z.of_nat (S (S n)) = 2 ^ Z.of_nat (S n) * 2).
    { rewrite (Nat2Z.inj_succ (S n)), Z.pow_succ_r by lia. lia. }
    f_equal.
    + rewrite E2, <- Z.div_div by lia. reflexivity.
    + (* sticky *)
      rewrite E1.
      pose proof (Z.div_mod m (2 ^ Z.of_nat n) ltac:(lia)) as Hdm.
      pose proof (Z.mod_pos_bound m (2 ^ Z.of_nat n) Hp) as Hb.
      set (q := m / 2 ^ Z.of_nat n) in *.
      set (r := m mod 2 ^ Z.of_nat n) in *.
      pose proof (Z.div_mod q 2 ltac:(lia)) as Hq2.
      pose proof (Z.mod_pos_bound q 2 ltac:(lia)) as Hb2.
      assert (Hmod : m mod (2 ^ Z.of_nat n * 2) = 2 ^ Z.of_nat n * (q mod 2) + r).
      { symmetry. apply Z.mod_unique with (q := q / 2); [left; nia|nia]. }
      rewrite Hmod.
      rewrite Zodd_mod.
      destruct (Z.eqb_spec (q mod 2) 1) as [H1|H1];
        destruct (Z.eqb_spec r 0) as [H0|H0];
        destruct (Z.eqb_spec (2 ^ Z.of_nat n * (q mod 2) + r) 0) as [H2|H2];
        cbn; try reflexivity; exfalso; nia.
Qed.

Lemma round_of_shifts (m : Z) (k : nat) :
  0 <= m ->
  let mrs := Nat.iter (S k) shr_1 (Build_shr_record m false false) in
  round_nearest_even (shr_m mrs) (loc_of_shr_record mrs) = rne m (Z.of_nat (S k)).
Proof.
  intros Hm. cbv zeta. rewrite shr_iter_spec by assumption.
  unfold rne. cbn [shr_m].
  assert (Hp : 0 < 2 ^ Z.of_nat k) by (apply Z.pow_pos_nonneg; lia).
  assert (E1 : 2 ^ Z.of_nat (S k) = 2 ^ Z.of_nat k * 2).
  { rewrite Nat2Z.inj_succ, Z.pow_succ_r by lia. lia. }
  pose proof (Z.div_mod m (2 ^ Z.of_nat k) ltac:(lia)) as Hdm.
  pose proof (Z.mod_pos_bound m (2 ^ Z.of_nat k) Hp) as Hb.
  set (q := m / 2 ^ Z.of_nat k) in *.
  set (r := m mod 2 ^ Z.of_nat k) in *.
  pose proof (Z.div_mod q 2 ltac:(lia)) as Hq2.
  pose proof (Z.mod_pos_bound q 2 ltac:(lia)) as Hb2.
  assert (Hmod : m mod 2 ^ Z.of_nat (S k) = 2 ^ Z.of_nat k * (q mod 2) + r).
  { rewrite E1. symmetry.
    apply Z.mod_unique with (q := q / 2); [left; nia|nia]. }
  rewrite Hmod, E1. rewrite Zodd_mod.
  destruct (Z.eqb_spec (q mod 2) 1) as [H1|H1];
    destruct (Z.eqb_spec r 0) as [H0|H0]; cbn [negb loc_of_shr_record round_nearest_even];
    destruct (Z.compare_spec (2 * (2 ^ Z.of_nat k * (q mod 2) + r)) (2 ^ Z.of_nat k * 2));
    try reflexivity; exfalso; nia.
Qed.

Lemma rne_bounds (m n : Z) :
  0 <= n -> m / 2 ^ n <= rne m n <= m / 2 ^ n + 1.
Proof.
  intros Hn. unfold rne.
  destruct (_ ?= _); [destruct (Z.even _)| |]; lia.
Qed.

Lemma rne_mono (m1 m2 n : Z) :
  0 <= n -> m1 <= m2 -> rne m1 n <= rne m2 n.
Proof.
  intros Hn Hm.
  assert (Hp : 0 < 2 ^ n) by (apply Z.pow_pos_nonneg; lia).
  pose proof (Z.div_le_mono m1 m2 (2 ^ n) Hp Hm) as Hq.
  pose proof (rne_bounds m1 n Hn). pose proof (rne_bounds m2 n Hn).
  destruct (Z.eq_dec (m1 / 2 ^ n) (m2 / 2 ^ n)) as [Heq|Hne]; [|lia].
  pose proof (Z.div_mod m1 (2 ^ n) ltac:(lia)).
  pose proof (Z.div_mod m2 (2 ^ n) ltac:(lia)).
  assert (Hr : m1 mod 2 ^ n <= m2 mod 2 ^ n) by nia.
  unfold rne. rewrite Heq.
  destruct (Z.compare_spec (2 * (m1 mod 2 ^ n)) (2 ^ n));
    destruct (Z.compare_spec (2 * (m2 mod 2 ^ n)) (2 ^ n));
    destruct (Z.even (m2 / 2 ^ n)); lia.
Qed.

Lemma rne_exact (q n : Z) : 0 <= n -> rne (q * 2 ^ n) n = q.
Proof.
  intros Hn. unfold rne.
  assert (Hp : 0 < 2 ^ n) by (apply Z.pow_pos_nonneg; lia).
  rewrite Z.mod_mul, Z.div_mul by lia.
  destruct (Z.compare_spec (2 * 0) (2 ^ n)); lia.
Qed.

Lemma fexp_unfold (e : Z) : fexp 53 1024 e = Z.max (e - 53) (-1074).
Proof. reflexivity. Qed.

Lemma digits2_pos_iter_xO (m d : positive) :
  Zpos (digits2_pos (Pos.iter xO m d)) = Zpos (digits2_pos m) + Zpos d.
Proof.
  revert m. induction d as [|d IH] using Pos.peano_ind; intros m.
  - cbn [Pos.iter digits2_pos]. lia.
  - rewrite Pos.iter_succ. cbn [digits2_pos]. rewrite Pos2Z.inj_succ, IH. lia.
Qed.

Lemma iter_xO_value (m d : positive) :
  Zpos (Pos.iter xO m d) = Zpos m * 2 ^ Zpos d.
Proof.
  revert m. induction d as [|d IH] using Pos.peano_ind; intros m.
  - cbn [Pos.iter]. lia.
  - rewrite Pos.iter_succ, Pos2Z.inj_xO, IH, Pos2Z.inj_succ, Z.pow_succ_r by lia.
    lia.
Qed.

Lemma aligned_value (m : positive) (e t : Z) :
  t <= e -> Zpos (aligned m e t) = Zpos m * 2 ^ (e - t).
Proof.
  intros Hle. unfold aligned, shl_align.
  destruct (t - e) as [|d|d] eqn:Hd; cbn [fst].
  - replace (e - t) with 0 by lia. lia.
  - lia.
  - rewrite iter_xO_value. f_equal. f_equal. lia.
Qed.

Lemma shl_align_le (m : positive) (e t : Z) :
  t <= e -> shl_align m e t = (aligned m e t, t).
Proof.
  intros Hle. unfold aligned, shl_align.
  destruct (t - e) as [|d|d] eqn:Hd; cbn [fst]; [f_equal; lia|lia|reflexivity].
Qed.

Lemma shl_align_ge (m : positive) (e t : Z) :
  e <= t -> shl_align m e t = (m, e).
Proof.
  intros Hle. unfold shl_align.
  destruct (t - e) as [|d|d] eqn:Hd; [reflexivity|reflexivity|lia].
Qed.

Lemma digits_aligned (m : positive) (e t : Z) :
  t <= e -> Zpos (digits2_pos (aligned m e t)) = Zpos (digits2_pos m) + (e - t).
Proof.
  intros Hle. unfold aligned, shl_align.
  destruct (t - e) as [|d|d] eqn:Hd; cbn [fst]; [lia|lia|].
  rewrite digits2_pos_iter_xO. lia.
Qed.

(** Rounding a mantissa that needs no rounding. *)
Lemma binary_round_aux_exact (s : bool) (m : positive) (e : Z) :
  fexp 53 1024 (Zpos (digits2_pos m) + e) = e ->
  binary_round_aux 53 1024 s (Zpos m) e loc_Exact
  = if e <=? 971 then S754_finite s m e else S754_infinity s.
Proof.
  intros Hf. unfold binary_round_aux, shr_fexp.
  cbn [Zdigits2 shr_record_of_loc]. rewrite Hf, Z.sub_diag. cbn [shr].
  cbn [shr_m loc_of_shr_record round_nearest_even Zdigits2 shr_record_of_loc].
  rewrite Hf, Z.sub_diag. cbn [shr shr_m]. reflexivity.
Qed.

Lemma binary_round_exact (s : bool) (m : positive) (e : Z) :
  -1074 <= e <= 971 -> Zpos (digits2_pos m) <= 53 ->
  let t := fexp 53 1024 (Zpos (digits2_pos m) + e) in
  binary_round 53 1024 s m e = S754_finite s (aligned m e t) t.
Proof.
  intros He Hd t.
  assert (Ht : t <= e) by (subst t; rewrite fexp_unfold; lia).
  unfold binary_round. fold t. rewrite (shl_align_le m e t Ht).
  rewrite binary_round_aux_exact.
  - replace (t <=? 971) with true by (symmetry; apply Z.leb_le; lia).
    reflexivity.
  - rewrite digits_aligned by assumption.
    replace (Zpos (digits2_pos m) + (e - t) + t) with (Zpos (digits2_pos m) + e) by lia.
    reflexivity.
Qed.

Lemma rne_range (m : positive) :
  53 < Zpos (digits2_pos m) ->
  2 ^ 52 <= rne (Zpos m) (Zpos (digits2_pos m) - 53) <= 2 ^ 53.
Proof.
  intros Hd. set (n := Zpos (digits2_pos m) - 53).
  pose proof (digits2_pos_bounds m) as [Hlo Hhi].
  pose proof (rne_bounds (Zpos m) n ltac:(lia)) as [Rlo Rhi].
  assert (Hp : 0 < 2 ^ n) by (apply Z.pow_pos_nonneg; lia).
  assert (E1 : 2 ^ (Zpos (digits2_pos m) - 1) = 2 ^ 52 * 2 ^ n).
  { rewrite <- Z.pow_add_r by lia. f_equal. lia. }
  assert (E2 : 2 ^ Zpos (digits2_pos m) = 2 ^ 53 * 2 ^ n).
  { rewrite <- Z.pow_add_r by lia. f_equal. lia. }
  assert (2 ^ 52 <= Zpos m / 2 ^ n).
  { apply Z.div_le_lower_bound; lia. }
  assert (Zpos m / 2 ^ n < 2 ^ 53).
  { apply Z.div_lt_upper_bound; lia. }
  lia.
Qed.

Lemma binary_round_rounded (s : bool) (m : positive) (e : Z) :
  -1074 <= e -> 53 < Zpos (digits2_pos m) ->
  let n := Zpos (digits2_pos m) - 53 in
  binary_round 53 1024 s m e = packed s (rne (Zpos m) n) (e + n).
Proof.
  intros He Hd n.
  pose proof (rne_range m Hd) as Hq. fold n in Hq.
  set (q := rne (Zpos m) n) in *.
  assert (Ht : fexp 53 1024 (Zpos (digits2_pos m) + e) = e + n)
    by (rewrite fexp_unfold; lia).
  unfold binary_round. rewrite Ht, shl_align_ge by lia.
  unfold binary_round_aux, shr_fexp at 1.
  cbn [Zdigits2 shr_record_of_loc]. rewrite Ht.
  replace (e + n - e) with n by lia.
  destruct n as [|pn|pn] eqn:Hn; try lia.
  cbn [shr]. rewrite iter_pos_nat.
  destruct (Pos.to_nat pn) as [|k] eqn:Hk; [lia|].
  pose proof (round_of_shifts (Zpos m) k ltac:(lia)) as Hr. cbv zeta in Hr.
  rewrite Hr. clear Hr.
  replace (Z.of_nat (S k)) with (Zpos pn) by lia.
  fold q.
  unfold packed. change (2 ^ 53) with 9007199254740992 in *.
  change (2 ^ 52) with 4503599627370496 in *.
  destruct q as [|qp|qp] eqn:Hqp; try lia.
  destruct (Z.ltb_spec (Zpos qp) 9007199254740992) as [Hlt|Hge].
  - (* no carry *)
    assert (Hdq : Zpos (digits2_pos qp) = 53).
    { apply digits2_pos_unique. change (2 ^ (53 - 1)) with 4503599627370496.
      change (2 ^ 53) with 9007199254740992. lia. }
    unfold shr_fexp. cbn [Zdigits2 shr_record_of_loc]. rewrite Hdq.
    rewrite fexp_unfold.
    replace (Z.max (53 + (e + Zpos pn) - 53) (-1074) - (e + Zpos pn)) with 0 by lia.
    cbn [shr shr_m]. reflexivity.
  - (* carry *)
    assert (Hq53 : qp = 9007199254740992%positive) by lia.
    subst qp.
    unfold shr_fexp. cbn [Zdigits2 shr_record_of_loc].
    change (Zpos (digits2_pos 9007199254740992)) with 54.
    rewrite fexp_unfold.
    replace (Z.max (54 + (e + Zpos pn) - 53) (-1074) - (e + Zpos pn)) with 1 by lia.
    cbn [shr SpecFloat.iter_pos shr_1 shr_m]. reflexivity.
Qed.

Lemma packed_convex (s : bool) (qa qb qc xa xb xc : Z) :
  2 ^ 52 <= qa <= 2 ^ 53 -> 2 ^ 52 <= qb <= 2 ^ 53 -> 2 ^ 52 <= qc <= 2 ^ 53 ->
  xa <= xb <= xc ->
  (xa = xb -> qa <= qb) -> (xb = xc -> qb <= qc) ->
  packed s qa xa = packed s qc xc ->
  packed s qb xb = packed s qa xa.
Proof.
  change (2 ^ 52) with 4503599627370496. change (2 ^ 53) with 9007199254740992.
  intros Ha Hb Hc Hx Hab Hbc. unfold packed.
  change (2 ^ 52) with 4503599627370496. change (2 ^ 53) with 9007199254740992.
  destruct (Z.ltb_spec qa 9007199254740992);
    destruct (Z.ltb_spec qb 9007199254740992);
    destruct (Z.ltb_spec qc 9007199254740992);
    repeat match goal with
           | |- context [?u <=? 971] => destruct (Z.leb_spec u 971)
           end;
    intros Heq; try discriminate Heq; try reflexivity; try lia;
    try (injection Heq; intros;
         repeat match goal with
                | Hm : Z.to_pos _ = Z.to_pos _ |- _ =>
                    apply Z2Pos.inj in Hm; [|lia|lia]
                end;
         first [ lia
               | f_equal; [f_equal|]; lia
               | f_equal; lia ]).
Qed.

(** Between two integers that round to the same number, every integer
    rounds to that number. *)
Lemma binary_round_convex (s : bool) (e : Z) (a b c : positive) :
  -1074 <= e <= 971 ->
  (a <= b)%positive -> (b <= c)%positive ->
  binary_round 53 1024 s a e = binary_round 53 1024 s c e ->
  binary_round 53 1024 s b e = binary_round 53 1024 s a e.
Proof.
  intros He Hab Hbc.
  pose proof (digits2_pos_mono a b Hab) as Dab.
  pose proof (digits2_pos_mono b c Hbc) as Dbc.
  destruct (Z.leb_spec (Zpos (digits2_pos c)) 53) as [Hc|Hc].
  - (* all three are exact *)
    rewrite !binary_round_exact by lia. cbv zeta.
    intros Heq.
    assert (Ht := f_equal exponent_of Heq). cbn [exponent_of] in Ht.
    rewrite Ht in Heq.
    assert (Hm := f_equal mantissa_of Heq). cbn [mantissa_of] in Hm.
    assert (Tc : fexp 53 1024 (Zpos (digits2_pos c) + e) <= e)
      by (rewrite fexp_unfold; lia).
    rewrite (aligned_value a _ _ Tc), (aligned_value c _ _ Tc) in Hm.
    assert (Hp : 0 < 2 ^ (e - fexp 53 1024 (Zpos (digits2_pos c) + e))).
    { apply Z.pow_pos_nonneg; [lia|]. rewrite fexp_unfold. lia. }
    assert (Hac : a = c) by nia.
    assert (Hba : b = a) by lia.
    rewrite Hba. reflexivity.
  - destruct (Z.leb_spec (Zpos (digits2_pos a)) 53) as [Ha|Ha].
    + (* the least is exact, the greatest is rounded: they differ *)
      rewrite (binary_round_exact s a) by lia.
      rewrite (binary_round_rounded s c) by lia. cbv zeta.
      pose proof (rne_range c Hc) as Hq.
      unfold packed.
      change (2 ^ 52) with 4503599627370496 in *.
      change (2 ^ 53) with 9007199254740992 in *.
      rewrite fexp_unfold.
      repeat match goal with
             | |- context [if ?u then _ else _] => destruct u
             end;
        intros Heq; try discriminate Heq;
        apply (f_equal exponent_of) in Heq; cbn [exponent_of] in Heq; lia.
    + (* all three are rounded *)
      rewrite (binary_round_rounded s a), (binary_round_rounded s b),
        (binary_round_rounded s c) by lia.
      cbv zeta.
      apply packed_convex;
        try (apply rne_range; lia); try lia.
      * intros Hn. replace (Zpos (digits2_pos b) - 53)
          with (Zpos (digits2_pos a) - 53) by lia.
        apply rne_mono; lia.
      * intros Hn. replace (Zpos (digits2_pos c) - 53)
          with (Zpos (digits2_pos b) - 53) by lia.
        apply rne_mono; lia.
Qed.

(** A rounded positive integer keeps its sign and is not a zero. *)
Lemma binary_round_shape (s : bool) (e : Z) (a : positive) :
  -1074 <= e <= 971 ->
  (exists m' e', binary_round 53 1024 s a e = S754_finite s m' e') \/
  binary_round 53 1024 s a e = S754_infinity s.
Proof.
  intros He.
  destruct (Z.leb_spec (Zpos (digits2_pos a)) 53) as [Ha|Ha].
  - rewrite binary_round_exact by lia. left. eauto.
  - rewrite binary_round_rounded by lia. cbv zeta. unfold packed.
    repeat match goal with
           | |- context [if ?u then _ else _] => destruct u
           end; eauto.
Qed.

(** The same for signed integers. *)
Lemma binary_normalize_convex (e a b c : Z) :
  -1074 <= e <= 971 -> a <= b <= c ->
  binary_normalize 53 1024 a e false = binary_normalize 53 1024 c e false ->
  binary_normalize 53 1024 b e false = binary_normalize 53 1024 a e false.
Proof.
  intros He [Hab Hbc].
  destruct a as [|a|a], c as [|c|c]; try lia;
    unfold binary_normalize at 1 2.
  - intros _. replace b with 0 by lia. reflexivity.
  - destruct (binary_round_shape false e c He) as [(m' & e' & ->)| ->];
      discriminate.
  - destruct b as [|b|b]; try lia. cbn [binary_normalize].
    intros Heq. apply (binary_round_convex false e a b c); try assumption; lia.
  - destruct (binary_round_shape true e a He) as [(m' & e' & ->)| ->];
      discriminate.
  - destruct (binary_round_shape true e a He) as [(m' & e' & ->)| ->];
      destruct (binary_round_shape false e c He) as [(m'' & e'' & ->)| ->];
      discriminate.
  - destruct b as [|b|b]; try lia. cbn [binary_normalize].
    intros Heq.
    rewrite (binary_round_convex true e c b a); try assumption; try lia.
    + symmetry. exact Heq.
    + symmetry. exact Heq.
Qed.

Lemma aligned_same (m : positive) (e : Z) : aligned m e e = m.
Proof. unfold aligned, shl_align. rewrite Z.sub_diag. reflexivity. Qed.

Lemma valid_finite (s : bool) (m : positive) (e : Z) :
  valid_binary 53 1024 (S754_finite s m e) = true ->
  fexp 53 1024 (Zpos (digits2_pos m) + e) = e /\ e <= 971.
Proof.
  cbn [valid_binary]. unfold bounded, canonical_mantissa.
  intros H. apply andb_true_iff in H as [Hc He].
  apply Z.eqb_eq in Hc. apply Z.leb_le in He. split; [exact Hc|exact He].
Qed.

(** A proper number, written with a smaller exponent, rounds to itself. *)
Lemma binary_round_valid (s : bool) (m : positive) (eb e : Z) :
  valid_binary 53 1024 (S754_finite s m eb) = true ->
  -1074 <= e <= eb ->
  binary_round 53 1024 s (aligned m eb e) e = S754_finite s m eb.
Proof.
  intros Hv He. apply valid_finite in Hv as [Hc Hmax].
  pose proof (digits_aligned m eb e ltac:(lia)) as Hd.
  rewrite fexp_unfold in Hc.
  destruct (Z.leb_spec (Zpos (digits2_pos (aligned m eb e))) 53) as [Hs|Hs].
  - rewrite binary_round_exact by lia. cbv zeta.
    rewrite fexp_unfold, Hd.
    assert (Hee : e = eb) by lia. subst e.
    replace (Z.max (Zpos (digits2_pos m) + (eb - eb) + eb - 53) (-1074)) with eb by lia.
    rewrite !aligned_same. reflexivity.
  - rewrite binary_round_rounded by lia. cbv zeta. rewrite Hd.
    assert (Hdm : Zpos (digits2_pos m) = 53) by lia.
    replace (Zpos (digits2_pos m) + (eb - e) - 53) with (eb - e) by lia.
    rewrite aligned_value by lia. rewrite rne_exact by lia.
    unfold packed.
    pose proof (digits2_pos_bounds m) as [_ Hhi]. rewrite Hdm in Hhi.
    replace (Zpos m <? 2 ^ 53) with true by (symmetry; apply Z.ltb_lt; exact Hhi).
    replace (e + (eb - e)) with eb by lia.
    replace (eb <=? 971) with true by (symmetry; apply Z.leb_le; lia).
    reflexivity.
Qed.

Lemma binary_normalize_valid (s : bool) (m : positive) (eb e : Z) :
  valid_binary 53 1024 (S754_finite s m eb) = true ->
  -1074 <= e <= eb ->
  binary_normalize 53 1024 (cond_Zopp s (Zpos (aligned m eb e))) e false
  = S754_finite s m eb.
Proof.
  intros Hv He. destruct s; cbn [cond_Zopp Z.opp binary_normalize];
    apply binary_round_valid; assumption.
Qed.

Lemma shr_fexp_exponent (m e : Z) (l : location) :
  -1074 <= snd (shr_fexp 53 1024 m e l).
Proof.
  unfold shr_fexp, shr.
  pose proof (fexp_unfold (Zdigits2 m + e)) as Hf.
  destruct (fexp 53 1024 (Zdigits2 m + e) - e) eqn:Hn; cbn [snd]; lia.
Qed.

Lemma binary_round_aux_exponent_ok (s : bool) (m e : Z) (l : location) :
  exponent_ok (binary_round_aux 53 1024 s m e l).
Proof.
  unfold binary_round_aux.
  destruct (shr_fexp 53 1024 m e l) as [mrs' e'] eqn:H1.
  destruct (shr_fexp 53 1024 _ e' loc_Exact) as [mrs'' e''] eqn:H2.
  pose proof (shr_fexp_exponent
                (round_nearest_even (shr_m mrs') (loc_of_shr_record mrs')) e'
                loc_Exact) as He.
  rewrite H2 in He. cbn [snd] in He.
  destruct (shr_m mrs''); [exact I| |exact I].
  destruct (e'' <=? 1024 - 53); [exact He|exact I].
Qed.

Lemma mul_exponent_ok (a b : spec_float) : exponent_ok (SFmul 53 1024 a b).
Proof.
  destruct a as [sa|sa| |sa ma ea], b as [sb|sb| |sb mb eb]; try exact I.
  cbn [SFmul]. apply binary_round_aux_exponent_ok.
Qed.

Lemma valid_exponent_ok (a : spec_float) :
  valid_binary 53 1024 a = true -> exponent_ok a.
Proof.
  destruct a as [sa|sa| |sa ma ea]; try (intros; exact I).
  intros Hv. apply valid_finite in Hv as [Hc _]. rewrite fexp_unfold in Hc.
  cbn. lia.
Qed.

(** If adding [p] and adding [-p] to a proper number [b] give the same
    result, the result is [b]: [p] is lost in both additions. *)
Lemma add_absorbed (p b : spec_float) :
  exponent_ok p -> valid_binary 53 1024 b = true ->
  match p with S754_nan => False | _ => True end ->
  SFadd 53 1024 p b = SFadd 53 1024 (SFopp p) b ->
  SFadd 53 1024 p b = b.
Proof.
  intros Hp Hb Hnan.
  destruct p as [sp|sp| |sp mp ep]; [| |contradiction|].
  - destruct b as [sb|sb| |sb mb eb]; try reflexivity.
    destruct sp, sb; cbn; intros H; try discriminate H; reflexivity.
  - destruct b as [sb|sb| |sb mb eb]; try reflexivity;
      destruct sp; try destruct sb; cbn; intros H; try discriminate H;
      reflexivity.
  - destruct b as [sb|sb| |sb mb eb]; try reflexivity.
    + cbn. intros H. injection H as H. destruct sp; discriminate.
    + cbn [SFadd SFopp exponent_ok] in *.
      pose proof (valid_exponent_ok _ Hb) as Heb. cbn in Heb.
      pose proof (valid_finite _ _ _ Hb) as [_ Hmax].
      set (e := Z.min ep eb).
      assert (He : -1074 <= e <= 971) by lia.
      change (fst (shl_align mp ep e)) with (aligned mp ep e).
      change (fst (shl_align mb eb e)) with (aligned mb eb e).
      set (P := Zpos (aligned mp ep e)).
      set (B := cond_Zopp sb (Zpos (aligned mb eb e))).
      assert (HB : binary_normalize 53 1024 B e false = S754_finite sb mb eb).
      { apply binary_normalize_valid; [exact Hb|lia]. }
      assert (HP : 0 < P) by (subst P; lia).
      intros H.
      destruct sp; cbn [negb cond_Zopp] in *.
      * rewrite <- HB. symmetry.
        apply (binary_normalize_convex e (- P + B) B (P + B)); try lia.
        exact H.
      * rewrite <- HB.
        rewrite H.
        symmetry.
        apply (binary_normalize_convex e (- P + B) B (P + B)); try lia.
        symmetry. exact H.
Qed.

Lemma binary_normalize_shape (e m : Z) :
  -1074 <= e <= 971 -> rounded_shape (binary_normalize 53 1024 m e false).
Proof.
  intros He. destruct m as [|m|m]; cbn [binary_normalize].
  - reflexivity.
  - destruct (binary_round_shape false e m He) as [(m' & e' & ->)| ->]; exact I.
  - destruct (binary_round_shape true e m He) as [(m' & e' & ->)| ->]; exact I.
Qed.

Lemma same_value_zero_of_neq (a b : number) :
  rounded_shape a -> rounded_shape b -> a <> b ->
  Num.same_value_zero a b = false.
Proof.
  intros Ha Hb Hne. unfold Num.same_value_zero.
  destruct a as [sa|sa| |sa ma ea], b as [sb|sb| |sb mb eb];
    cbn in Ha, Hb; try contradiction; subst; try congruence;
    try (destruct sa; reflexivity); try (destruct sb; reflexivity).
  - destruct sa, sb; try reflexivity; congruence.
  - cbn [Num.is_nan andb]. rewrite orb_false_r.
    destruct (Num.eqb (S754_finite sa ma ea) (S754_finite sb mb eb)) eqn:Heq;
      [|reflexivity].
    unfold Num.eqb, SFeqb in Heq. cbn [SFcompare] in Heq.
    exfalso. apply Hne.
    destruct sa, sb; try discriminate Heq;
      destruct (Z.compare ea eb) eqn:He; try discriminate Heq;
      apply Z.compare_eq in He;
      destruct (Pos.compare_cont Eq ma mb) eqn:Hm; try discriminate Heq;
      apply Pos.compare_eq in Hm; congruence.
Qed.

(** Adding a non-zero [p] and adding [-p] to a proper number [b] give two
    different numbers, unless [p] is lost in both additions. *)
Lemma add_differs (p b : number) :
  exponent_ok p -> is_binary64 b = true ->
  Num.is_nan p = false -> is_zero p = false ->
  Num.add p b <> b \/ Num.add (Num.neg p) b <> b ->
  Num.same_value_zero (Num.add (Num.neg p) b) (Num.add p b) = false.
Proof.
  unfold is_binary64, Num.add, Num.neg, Num.prec, Num.emax.
  intros Hp Hb Hnan Hz Hne.
  destruct p as [sp|sp| |sp mp ep]; try discriminate.
  - (* an infinite offset *)
    destruct b as [sb|sb| |sb mb eb]; try (destruct sp; reflexivity).
    + destruct sp, sb; reflexivity.
    + exfalso. destruct Hne as [Hne|Hne]; apply Hne; reflexivity.
  - (* a finite offset *)
    destruct b as [sb|sb| |sb mb eb].
    + cbn [SFadd SFopp]. destruct sp; reflexivity.
    + exfalso. destruct Hne as [Hne|Hne]; apply Hne; reflexivity.
    + exfalso. destruct Hne as [Hne|Hne]; apply Hne; reflexivity.
    + pose proof (valid_exponent_ok _ Hb) as Heb.
      pose proof (valid_finite _ _ _ Hb) as [_ Hmax].
      apply same_value_zero_of_neq.
      * cbn [SFadd SFopp exponent_ok] in *.
        apply binary_normalize_shape. lia.
      * cbn [SFadd SFopp exponent_ok] in *.
        apply binary_normalize_shape. lia.
      * intros Heq. destruct Hne as [Hne|Hne]; apply Hne.
        -- apply add_absorbed; [exact Hp|exact Hb|exact I|].
           symmetry. exact Heq.
        -- apply add_absorbed; [exact Hp|exact Hb|exact I|].
           cbn [SFopp]. rewrite negb_involutive. exact Heq.
Qed.

(** ** The conversions on well-known values *)

Example ToString_sum : Conv.ToString (Num.add (Num.lit 1 1) (Num.lit 2 1))
                       = "0.30000000000000004".
Proof. vm_compute. reflexivity. Qed.

Example ToString_large : Conv.ToString (Num.of_decimal false 1 21) = "1e+21".
Proof. vm_compute. reflexivity. Qed.

Example ToString_small : Conv.ToString (Num.of_decimal false 5 (-324)) = "5e-324".
Proof. vm_compute. reflexivity. Qed.

Example toFixed_rounds_the_binary_value : Conv.toFixed 2 (Num.lit 1005 3) = "1.00".
Proof. vm_compute. reflexivity. Qed.

Example toFixed_pads : Conv.toFixed 4 (Num.lit 5 1) = "0.5000".
Proof. vm_compute. reflexivity. Qed.

Example parseFloat_prefix : Conv.parseFloat "  12.50abc" = Num.lit 125 1.
Proof. vm_compute. reflexivity. Qed.

Example isNaN_of_toFixed :
  Conv.isNaN (Conv.toFixed 2 Num.NaN) = true /\
  Conv.isNaN (Conv.toFixed 2 Num.POSITIVE_INFINITY) = false /\
  Conv.isNaN (Conv.toFixed 2 (Num.of_Z 10)) = false.
Proof. repeat split; vm_compute; reflexivity. Qed.

(** ** Control points *)

(** C1. The outgoing control point of [calcOutgoingControlPoint] is the new
    Point [(startFrame + x, startValue + m*x)], with
    [m = outgoingSpeed / frameRate] and
    [x = durationFrames * (outgoingInfluence / 100)], the speed and the
    influence being those of element 0 of the start keyframe's outgoing
    temporal ease. *)
Theorem calcOutgoingControlPoint_formula
  (g : Globals) (tweenData : TweenData) (property : Property) (keyIndex : nat)
  (s : State) :
  let outgoingSpeed := speed (fst (keyOutTemporalEase property keyIndex)) in
  let outgoingInfluence := influence (fst (keyOutTemporalEase property keyIndex)) in
  let m := Num.div outgoingSpeed (framerate g) in
  let dx := Num.mul (durationFrames tweenData)
              (Num.div outgoingInfluence (Num.of_Z 100)) in
  calcOutgoingControlPoint g tweenData property keyIndex s =
    (Return (length (heap s)),
     with_point s
       (mkPoint (Num.add (startFrame tweenData) dx)
                (Num.add (startValue tweenData) (Num.mul m dx)))).
Proof.
  cbv zeta. unfold calcOutgoingControlPoint, new_Point, with_point.
  rewrite (add_comm (Num.mul _ _) (startValue tweenData)). reflexivity.
Qed.

(** The tween data of the worked example is what [calcTweenData] computes
    for the example property. *)
Lemma example_tweenData_computed :
  calcTweenData example_globals example_property 1 2 = example_tweenData.
Proof. vm_compute. reflexivity. Qed.

(** C2, as the code has it. For frameRate 30, startFrame 0, endFrame 24,
    startValue 0, endValue -100, outgoing speed 10 and influence 33.33, the
    outgoing control point rounds (to 4 decimals) to (7.9992, 2.6664): the
    horizontal offset is 24 * 0.3333, not 24 / 3. The cubic command is
    serialized as [C7.9992,2.6664,16.0008,-97.3336,24,-100], and the whole
    path, which is not inverted, as [M0,0] followed by it. *)
Theorem example_outgoing_control_point :
  (exists p,
      result_point (calcOutgoingControlPoint example_globals example_tweenData
                      example_property 1) initial_state = Some p /\
      cleanNumber (x p) = Num.lit 79992 4 /\
      cleanNumber (y p) = Num.lit 26664 4) /\
  result (cmd <- getCommand example_globals example_property 1 ;;
          PathCommand_toString cmd) initial_state
    = Some "C7.9992,2.6664,16.0008,-97.3336,24,-100" /\
  String.prefix "C7.9992,2.6664,"
    "C7.9992,2.6664,16.0008,-97.3336,24,-100" = true /\
  result (path <- getPath example_globals example_property ;;
          match path with
          | Some path => Path_toString path
          | None => ret "null"
          end) initial_state
    = Some "M0,0C7.9992,2.6664,16.0008,-97.3336,24,-100".
Proof.
  split; [eexists; split; [vm_compute; reflexivity|split; vm_compute; reflexivity]|].
  repeat split; vm_compute; reflexivity.
Qed.

(** C2 as stated fails: the outgoing control point of the example is not
    (8.0, 2.6667), even after rounding to 4 decimals, and the serialized
    cubic command does not begin with [C8.0000,2.6667,]. *)
Lemma example_outgoing_control_point_not_8 :
  exists p str,
    result_point (calcOutgoingControlPoint example_globals example_tweenData
                    example_property 1) initial_state = Some p /\
    Num.eqb (x p) (Num.lit 8 0) = false /\
    Num.eqb (cleanNumber (x p)) (Num.lit 8 0) = false /\
    Num.eqb (cleanNumber (y p)) (Num.lit 26667 4) = false /\
    result (cmd <- getCommand example_globals example_property 1 ;;
            PathCommand_toString cmd) initial_state = Some str /\
    String.prefix "C8.0000,2.6667," str = false.
Proof.
  eexists. eexists.
  split; [vm_compute; reflexivity|].
  repeat split; vm_compute; reflexivity.
Qed.

(** ** Running the constructors and the helpers *)

Lemma state_eta (s : State) : mkState (heap s) (alerts s) (console s) = s.
Proof. destruct s; reflexivity. Qed.

Lemma with_points_nil (s : State) : with_points s [] = s.
Proof. unfold with_points. rewrite app_nil_r. apply state_eta. Qed.

Lemma with_points_app (s : State) (ps qs : list Point) :
  with_points (with_points s ps) qs = with_points s (ps ++ qs).
Proof. unfold with_points; cbn. rewrite app_assoc. reflexivity. Qed.

Lemma new_Point_run (px py : number) (s : State) :
  new_Point px py s = (Return (length (heap s)), with_points s [mkPoint px py]).
Proof. reflexivity. Qed.

Lemma pair_up_length (coordinates : list number) :
  length (pair_up coordinates) = (length coordinates / 2)%nat.
Proof.
  enough (H : length (pair_up coordinates) = (length coordinates / 2)%nat /\
              forall c, length (pair_up (c :: coordinates))
                        = (length (c :: coordinates) / 2)%nat) by apply H.
  induction coordinates as [|c' rest [IH1 IH2]]; [split; [reflexivity|intros; reflexivity]|].
  split; [apply IH2|].
  intros c. cbn [pair_up length]. rewrite IH1.
  change (S (S (length rest))) with (1 * 2 + length rest)%nat.
  rewrite Nat.div_add_l by lia. lia.
Qed.

Lemma PathCommand_points_run (coordinates : list number) (s : State) :
  PathCommand_points coordinates s =
    (Return (fresh s (length (pair_up coordinates))),
     with_points s (pair_up coordinates)).
Proof.
  enough (H : (forall s, PathCommand_points coordinates s =
                   (Return (fresh s (length (pair_up coordinates))),
                    with_points s (pair_up coordinates))) /\
              (forall c s, PathCommand_points (c :: coordinates) s =
                   (Return (fresh s (length (pair_up (c :: coordinates)))),
                    with_points s (pair_up (c :: coordinates))))) by apply H.
  clear s.
  induction coordinates as [|c' rest [IH1 IH2]].
  - split; intros; cbn; unfold fresh; cbn; rewrite with_points_nil; reflexivity.
  - split; [apply IH2|].
    intros c s. cbn [PathCommand_points pair_up length].
    unfold bind. rewrite new_Point_run, IH1. unfold ret.
    rewrite with_points_app. unfold fresh. cbn [seq heap with_points].
    rewrite length_app. cbn [length].
    replace (length (heap s) + 1)%nat with (S (length (heap s))) by lia.
    reflexivity.
Qed.

Lemma calcOutgoingControlPoint_run g tweenData property keyIndex s :
  calcOutgoingControlPoint g tweenData property keyIndex s =
    (Return (length (heap s)),
     with_points s [outgoing_point g tweenData property keyIndex]).
Proof. reflexivity. Qed.

Lemma calcIncomingControlPoint_run g tweenData property keyIndex s :
  calcIncomingControlPoint g tweenData property keyIndex s =
    (Return (length (heap s)),
     with_points s [incoming_point g tweenData property keyIndex]).
Proof. reflexivity. Qed.

Lemma getCommand_run g property keyIndex s :
  getCommand g property keyIndex s =
    (Return (mkPathCommand (getCommand_letter property keyIndex)
               (fresh s (length (getCommand_points g property keyIndex)))),
     mkState (heap s ++ getCommand_points g property keyIndex)
             (alerts s ++ getCommand_alerts property keyIndex)
             (console s ++ getCommand_console g property keyIndex)).
Proof.
  unfold getCommand, getCommand_letter, getCommand_points, getCommand_alerts,
    getCommand_console, log, fresh.
  destruct (String.eqb (calcEaseType property keyIndex (keyIndex + 1)) "linear-linear")
    eqn:Hlin.
  - apply String.eqb_eq in Hlin. rewrite Hlin.
    destruct (debug g); cbn; rewrite ?app_nil_r; reflexivity.
  - destruct (String.eqb (calcEaseType property keyIndex (keyIndex + 1)) "unsupported")
      eqn:Huns;
      destruct (debug g); cbn;
      rewrite ?app_nil_r, ?length_app, <- ?app_assoc; cbn;
      rewrite ?(Nat.add_1_r (length (heap s))), ?(Nat.add_1_r (S (length (heap s))));
      reflexivity.
Qed.

Lemma pair_up_lookup (coordinates : list number) (i : nat) :
  (i < length (pair_up coordinates))%nat ->
  exists cx cy,
    coordinates !! (2 * i)%nat = Some cx /\
    coordinates !! (2 * i + 1)%nat = Some cy /\
    pair_up coordinates !! i = Some (mkPoint cx cy).
Proof.
  enough (H : (forall i, (i < length (pair_up coordinates))%nat ->
                 exists cx cy,
                   coordinates !! (2 * i)%nat = Some cx /\
                   coordinates !! (2 * i + 1)%nat = Some cy /\
                   pair_up coordinates !! i = Some (mkPoint cx cy)) /\
              (forall c i, (i < length (pair_up (c :: coordinates)))%nat ->
                 exists cx cy,
                   (c :: coordinates) !! (2 * i)%nat = Some cx /\
                   (c :: coordinates) !! (2 * i + 1)%nat = Some cy /\
                   pair_up (c :: coordinates) !! i = Some (mkPoint cx cy)))
    by (apply H).
  clear i.
  induction coordinates as [|c' rest [IH1 IH2]].
  - split; [intros i Hi | intros c i Hi]; cbn in Hi; lia.
  - split; [apply IH2|].
    intros c [|i] Hi.
    + exists c, c'. repeat split.
    + cbn [pair_up length] in Hi.
      destruct (IH1 i ltac:(lia)) as (cx & cy & H0 & H1 & H2).
      exists cx, cy.
      replace (2 * S i)%nat with (S (S (2 * i))) by lia.
      replace (S (S (2 * i)) + 1)%nat with (S (S (2 * i + 1))) by lia.
      cbn [pair_up]. repeat split; assumption.
Qed.

Lemma fresh_lookup (s : State) (pts : list Point) (i : nat) (p : Point) :
  pts !! i = Some p ->
  exists r, fresh s (length pts) !! i = Some r /\
            heap (with_points s pts) !! r = Some p.
Proof.
  intros Hp. exists (length (heap s) + i)%nat.
  pose proof (lookup_lt_Some _ _ _ Hp) as Hlt.
  split.
  - unfold fresh. apply lookup_seq. split; [reflexivity|assumption].
  - cbn. rewrite lookup_app_r by lia.
    replace (length (heap s) + i - length (heap s))%nat with i by lia.
    assumption.
Qed.

(** C9. [new PathCommand(letter, c0, c1, ...)] with an odd number of
    coordinates throws at once, before any Point is created, and the error
    reaches whatever the caller does next; with [2n] coordinates it
    succeeds and the command holds exactly [n] Points, the [i]-th being
    [(c(2i), c(2i+1))]. *)
Theorem PathCommand_coordinates
  (letter : string) (coordinates : list number) (s : State) :
  ((length coordinates mod 2 = 1)%nat ->
     new_PathCommand letter coordinates s
       = (Throw (Error odd_coordinates_message), s) /\
     forall (B : Type) (rest : PathCommand -> M B),
       (cmd <- new_PathCommand letter coordinates ;; rest cmd) s
         = (Throw (Error odd_coordinates_message), s)) /\
  (forall n : nat, length coordinates = (2 * n)%nat ->
     exists cmd s',
       new_PathCommand letter coordinates s = (Return cmd, s') /\
       command cmd = letter /\
       length (points cmd) = n /\
       forall i : nat, (i < n)%nat ->
         exists r cx cy,
           points cmd !! i = Some r /\
           coordinates !! (2 * i)%nat = Some cx /\
           coordinates !! (2 * i + 1)%nat = Some cy /\
           heap s' !! r = Some (mkPoint cx cy)).
Proof.
  split.
  - intros Hodd.
    assert (Hrun : new_PathCommand letter coordinates s
                   = (Throw (Error odd_coordinates_message), s)).
    { unfold new_PathCommand. rewrite Hodd. reflexivity. }
    split; [exact Hrun|].
    intros B rest. unfold bind. rewrite Hrun. reflexivity.
  - intros n Hlen.
    assert (Hn : length (pair_up coordinates) = n).
    { rewrite pair_up_length, Hlen, Nat.mul_comm. apply Nat.div_mul. lia. }
    exists (mkPathCommand letter (fresh s (length (pair_up coordinates)))),
           (with_points s (pair_up coordinates)).
    split.
    { unfold new_PathCommand.
      replace (length coordinates mod 2)%nat with 0%nat
        by (rewrite Hlen, Nat.mul_comm, Nat.Div0.mod_mul; reflexivity).
      cbn [Nat.eqb]. unfold bind. rewrite PathCommand_points_run. reflexivity. }
    split; [reflexivity|].
    split; [cbn; unfold fresh; rewrite length_seq; exact Hn|].
    intros i Hi.
    destruct (pair_up_lookup coordinates i ltac:(lia)) as (cx & cy & H0 & H1 & H2).
    destruct (fresh_lookup s _ _ _ H2) as (r & Hr & Hh).
    exists r, cx, cy. repeat split; assumption.
Qed.

Lemma PathCommand_coordinates_witness :
  new_PathCommand "L" [Num.lit 1 0; Num.lit 2 0; Num.lit 3 0] initial_state
    = (Throw (Error odd_coordinates_message), initial_state) /\
  exists cmd s',
    new_PathCommand "C" [Num.lit 1 0; Num.lit 2 0; Num.lit 3 0; Num.lit 4 0]
      initial_state = (Return cmd, s') /\
    length (points cmd) = 2%nat.
Proof.
  split.
  - apply (PathCommand_coordinates "L" [Num.lit 1 0; Num.lit 2 0; Num.lit 3 0]
             initial_state).
    reflexivity.
  - destruct (proj2 (PathCommand_coordinates "C"
                       [Num.lit 1 0; Num.lit 2 0; Num.lit 3 0; Num.lit 4 0]
                       initial_state) 2%nat eq_refl)
      as (cmd & s' & Hrun & _ & Hlen & _).
    exists cmd, s'. split; assumption.
Defined.

(** C4. [getCommand] always returns a command. For a linear-linear pair it
    is an [L] command with exactly one point, equal to
    [(endFrame, endValue)]; for every other classification, unsupported
    included, it is a [C] command with exactly three points, the third
    equal to [(endFrame, endValue)]. *)
Theorem getCommand_shape (g : Globals) (property : Property) (keyIndex : nat)
  (s : State) :
  let tweenData := calcTweenData g property keyIndex (keyIndex + 1) in
  let easeType := calcEaseType property keyIndex (keyIndex + 1) in
  exists cmd s',
    getCommand g property keyIndex s = (Return cmd, s') /\
    if String.eqb easeType "linear-linear" then
      command cmd = "L" /\
      exists r, points cmd = [r] /\
                heap s' !! r = Some (mkPoint (endFrame tweenData) (endValue tweenData))
    else
      command cmd = "C" /\
      exists r1 r2 r3,
        points cmd = [r1; r2; r3] /\
        heap s' !! r3 = Some (mkPoint (endFrame tweenData) (endValue tweenData)).
Proof.
  cbv zeta. rewrite getCommand_run.
  eexists. eexists. split; [reflexivity|].
  unfold getCommand_letter, getCommand_points.
  destruct (String.eqb _ "linear-linear").
  - split; [reflexivity|]. eexists. split; [reflexivity|].
    cbn. rewrite lookup_app_r by lia. rewrite Nat.sub_diag. reflexivity.
  - split; [reflexivity|]. eexists. eexists. eexists.
    split; [reflexivity|].
    cbn. rewrite lookup_app_r by lia.
    replace (S (S (length (heap s))) - length (heap s))%nat with 2%nat by lia.
    reflexivity.
Qed.

(** ** Building a path *)

Lemma log_run (g : Globals) (str : option string) (s : State) :
  exists lines,
    log g str s = (Return tt, mkState (heap s) (alerts s) (console s ++ lines)).
Proof.
  unfold log. destruct (debug g).
  - eexists. reflexivity.
  - exists []. unfold ret. rewrite app_nil_r, state_eta. reflexivity.
Qed.

Lemma new_Path_run (sx sy : number) (s : State) :
  new_Path (Some sx) (Some sy) s =
    (Return (mkPath [mkPathCommand "M" (fresh s 1)]),
     with_points s [mkPoint sx sy]).
Proof. reflexivity. Qed.

Lemma getCommand_points_nonempty g property keyIndex :
  getCommand_points g property keyIndex <> [].
Proof. unfold getCommand_points. destruct (String.eqb _ _); discriminate. Qed.

Lemma fresh_app (s : State) (ps qs : list Point) :
  (fresh s (length ps) ++ fresh (with_points s ps) (length qs))%list
  = fresh s (length (ps ++ qs)).
Proof.
  unfold fresh. cbn. rewrite !length_app. rewrite seq_app. reflexivity.
Qed.

Lemma getPath_loop_run (g : Globals) (property : Property) (count : nat) :
  forall (i : nat) (path : Path) (s : State),
  exists cmds pts s',
    getPath_loop g property count i path s
      = (Return (mkPath (commands path ++ cmds)), s') /\
    heap s' = heap s ++ pts /\
    concat (map points cmds) = fresh s (length pts) /\
    length cmds = count /\
    Forall (fun c => points c <> []) cmds.
Proof.
  induction count as [|count IH]; intros i path s.
  - exists [], [], s. cbn. rewrite !app_nil_r. destruct path. repeat split.
    constructor.
  - cbn [getPath_loop]. unfold bind at 1. rewrite getCommand_run.
    unfold bind at 1.
    match goal with |- context [log g None ?s1] =>
      destruct (log_run g None s1) as [lines ->]; cbn [heap alerts console]
    end.
    match goal with |- context [getPath_loop g property count (S i) ?p ?s2] =>
      destruct (IH (S i) p s2) as (cmds & pts & s' & Hrun & Hheap & Hrefs & Hlen & Hne)
    end.
    cbn [commands heap] in Hrun, Hheap, Hrefs.
    eexists (_ :: cmds), (getCommand_points g property i ++ pts), s'.
    split; [rewrite Hrun, <- app_assoc; reflexivity|].
    split; [rewrite Hheap, <- app_assoc; reflexivity|].
    split.
    { cbn [map concat points]. rewrite Hrefs.
      rewrite <- fresh_app. unfold fresh, with_points. cbn [heap]. reflexivity. }
    split; [cbn; rewrite Hlen; reflexivity|].
    constructor; [|exact Hne].
    cbn [points]. unfold fresh.
    pose proof (getCommand_points_nonempty g property i) as Hg.
    destruct (getCommand_points g property i); [congruence|discriminate].
Qed.

Lemma getPath_build_run (g : Globals) (property : Property) (s : State) :
  exists cmds pts s1,
    getPath_build g property s
      = (Return (mkPath (mkPathCommand "M" (fresh s 1) :: cmds)), s1) /\
    heap s1 = heap s ++ pts /\
    path_points (mkPath (mkPathCommand "M" (fresh s 1) :: cmds))
      = fresh s (length pts) /\
    length cmds = (numKeys property - 1)%nat /\
    Forall (fun c => points c <> []) cmds.
Proof.
  unfold getPath_build, bind. rewrite new_Path_run.
  match goal with |- context [getPath_loop g property ?n 1 ?p ?s1] =>
    destruct (getPath_loop_run g property n 1%nat p s1)
      as (cmds & pts & s' & Hrun & Hheap & Hrefs & Hlen & Hne)
  end.
  cbn [commands heap with_points] in Hrun, Hheap, Hrefs.
  exists cmds, (mkPoint (Num.mul (keyTime property 1) (framerate g))
                        (keyValue_scalar property 1) :: pts), s'.
  split; [exact Hrun|].
  split; [rewrite Hheap, <- app_assoc; reflexivity|].
  split; [|split; assumption].
  unfold path_points. cbn [commands map concat points].
  rewrite Hrefs. unfold fresh, with_points. cbn [heap length seq].
  rewrite length_app. cbn [length app]. rewrite Nat.add_1_r. reflexivity.
Qed.

(** ** The end point and the inversion *)

Lemma Path_getEndPoint_run (cs : list PathCommand) (c : PathCommand)
  (rs : list ref) (r : ref) (s : State) :
  points c = rs ++ [r] ->
  Path_getEndPoint (mkPath (cs ++ [c])) s = (Return (Some r), s).
Proof.
  intros Hc. unfold Path_getEndPoint. cbn [commands].
  rewrite length_app. cbn [length].
  replace (length cs + 1 - 1)%nat with (length cs) by lia.
  rewrite lookup_app_r by lia. rewrite Nat.sub_diag. cbn.
  rewrite Hc, length_app. cbn [length].
  replace (length rs + 1 - 1)%nat with (length rs) by lia.
  rewrite lookup_app_r by lia. rewrite Nat.sub_diag. reflexivity.
Qed.

Lemma nonempty_snoc {A} (l : list A) :
  l <> [] -> exists l' a, l = l' ++ [a].
Proof.
  intros Hl. destruct (rev l) as [|a l'] eqn:Hrev.
  - apply (f_equal (@rev A)) in Hrev. rewrite rev_involutive in Hrev.
    contradiction.
  - exists (rev l'), a. rewrite <- (rev_involutive l), Hrev. reflexivity.
Qed.

Lemma path_points_snoc (cs : list PathCommand) (c : PathCommand) :
  path_points (mkPath (cs ++ [c])) = path_points (mkPath cs) ++ points c.
Proof.
  unfold path_points. cbn [commands].
  rewrite map_app, concat_app. cbn. rewrite app_nil_r. reflexivity.
Qed.

(** The end point of a path whose commands all have points is the last of
    its points. *)
Lemma Path_getEndPoint_last (path : Path) (s : State) :
  commands path <> [] ->
  Forall (fun c => points c <> []) (commands path) ->
  exists rs r,
    path_points path = rs ++ [r] /\
    Path_getEndPoint path s = (Return (Some r), s).
Proof.
  intros Hne Hall. destruct path as [cmds]. cbn [commands] in *.
  destruct (nonempty_snoc cmds Hne) as (cs & c & ->).
  apply Forall_app in Hall as [_ Hc].
  apply Forall_cons in Hc as [Hc _].
  destruct (nonempty_snoc (points c) Hc) as (rs & r & Hpts).
  exists (path_points (mkPath cs) ++ rs), r.
  split.
  - rewrite path_points_snoc, Hpts, app_assoc. reflexivity.
  - eapply Path_getEndPoint_run. exact Hpts.
Qed.

Lemma forEach_app {A} (body : A -> M unit) (l1 l2 : list A) (s : State) :
  forEach body (l1 ++ l2) s = (forEach body l1 ;; forEach body l2) s.
Proof.
  revert s. induction l1 as [|a l1 IH]; intros s; [reflexivity|].
  cbn [app forEach]. unfold bind.
  destruct (body a s) as [[[]|e] s1]; [|reflexivity].
  rewrite IH. reflexivity.
Qed.

Lemma Path_invertYAxis_flat (path : Path) (s : State) :
  Path_invertYAxis path s = forEach invert_point (path_points path) s.
Proof.
  unfold Path_invertYAxis, path_points.
  revert s. induction (commands path) as [|c cs IH]; intros s; [reflexivity|].
  cbn [forEach map concat]. rewrite forEach_app. unfold bind.
  destruct (forEach invert_point (points c) s) as [[[]|e] s1]; [|reflexivity].
  apply IH.
Qed.

Lemma invert_point_run (r : ref) (p : Point) (s : State) :
  heap s !! r = Some p ->
  invert_point r s
    = (Return tt, mkState (<[r := inverted p]> (heap s)) (alerts s) (console s)).
Proof.
  intros Hp. unfold invert_point, bind, get_Point. rewrite Hp. reflexivity.
Qed.

(** Inverting distinct, existing Points: each of them has its [y]
    multiplied by [-1] once, every other Point is untouched. *)
Lemma forEach_invert_point_run (refs : list ref) :
  forall s : State,
  NoDup refs ->
  (forall r, r ∈ refs -> is_Some (heap s !! r)) ->
  exists s',
    forEach invert_point refs s = (Return tt, s') /\
    alerts s' = alerts s /\ console s' = console s /\
    length (heap s') = length (heap s) /\
    (forall r p, r ∈ refs -> heap s !! r = Some p ->
                 heap s' !! r = Some (inverted p)) /\
    (forall r, r ∉ refs -> heap s' !! r = heap s !! r).
Proof.
  induction refs as [|r0 refs IH]; intros s Hnd Hin.
  - exists s. repeat split; try reflexivity.
    intros r p Hr. inversion Hr.
  - apply NoDup_cons in Hnd as [Hr0 Hnd].
    destruct (Hin r0 ltac:(left)) as [p0 Hp0].
    cbn [forEach]. unfold bind. rewrite (invert_point_run r0 p0 s Hp0).
    set (s1 := mkState (<[r0 := inverted p0]> (heap s)) (alerts s) (console s)).
    destruct (IH s1 Hnd) as (s' & Hrun & Hal & Hco & Hlen & Hinv & Hout).
    { intros r Hr. subst s1. cbn [heap].
      destruct (decide (r = r0)) as [->|Hne]; [contradiction|].
      rewrite list_lookup_insert_ne by congruence. apply Hin. right. exact Hr. }
    exists s'. split; [exact Hrun|].
    split; [rewrite Hal; reflexivity|].
    split; [rewrite Hco; reflexivity|].
    split; [rewrite Hlen; subst s1; cbn [heap]; apply length_insert|].
    split.
    + intros r p Hr Hp. apply elem_of_cons in Hr as [->|Hr].
      * rewrite Hout by exact Hr0. subst s1. cbn [heap].
        rewrite Hp0 in Hp. injection Hp as <-.
        apply list_lookup_insert_eq. eapply lookup_lt_Some. exact Hp0.
      * apply Hinv; [exact Hr|]. subst s1. cbn [heap].
        rewrite list_lookup_insert_ne; [exact Hp|].
        intros ->. contradiction.
    + intros r Hr. apply not_elem_of_cons in Hr as [Hne Hr].
      rewrite Hout by exact Hr. subst s1. cbn [heap].
      apply list_lookup_insert_ne. congruence.
Qed.

Lemma fresh_NoDup (s : State) (n : nat) : NoDup (fresh s n).
Proof. apply NoDup_seq. Qed.

Lemma fresh_valid (s s' : State) (pts : list Point) (r : ref) :
  heap s' = heap s ++ pts ->
  r ∈ fresh s (length pts) -> is_Some (heap s' !! r).
Proof.
  intros Hheap Hr. apply elem_of_seq in Hr.
  apply lookup_lt_is_Some. rewrite Hheap, length_app. lia.
Qed.

(** The end point is the last Point of the last command, and so the last
    Point of the path. *)
Lemma Path_getEndPoint_last_command (path : Path) (s : State) :
  commands path <> [] ->
  Forall (fun c => points c <> []) (commands path) ->
  exists lastCommand r,
    last (commands path) = Some lastCommand /\
    last (points lastCommand) = Some r /\
    last (path_points path) = Some r /\
    Path_getEndPoint path s = (Return (Some r), s).
Proof.
  intros Hne Hall. destruct path as [cmds]. cbn [commands] in *.
  destruct (nonempty_snoc cmds Hne) as (cs & c & ->).
  apply Forall_app in Hall as [_ Hc].
  apply Forall_cons in Hc as [Hc _].
  destruct (nonempty_snoc (points c) Hc) as (rs & r & Hpts).
  exists c, r.
  split; [apply last_snoc|].
  split; [rewrite Hpts; apply last_snoc|].
  split; [rewrite path_points_snoc, Hpts, app_assoc; apply last_snoc|].
  eapply Path_getEndPoint_run. exact Hpts.
Qed.

(** C5. For a property with two keyframes or more, [getPath] builds the
    path and takes its end point: the last Point of the last command, which
    is the last Point of the whole path. It inverts the Y axis if and only
    if that Point's [y], before inversion, is strictly greater than the
    curve's start value: then every point of the path has its [y]
    multiplied by [-1] (its [x] kept); otherwise the state, and so every
    point, is what the loop left. *)
Theorem getPath_inverts_iff (g : Globals) (property : Property) (s : State) :
  (1 < numKeys property)%nat ->
  let curveStartValue := keyValue_scalar property 1 in
  exists path s1 lastCommand r endPoint,
    getPath_build g property s = (Return path, s1) /\
    last (commands path) = Some lastCommand /\
    last (points lastCommand) = Some r /\
    last (path_points path) = Some r /\
    Path_getEndPoint path s1 = (Return (Some r), s1) /\
    heap s1 !! r = Some endPoint /\
    (forall q, q ∈ path_points path -> is_Some (heap s1 !! q)) /\
    exists s2,
      getPath g property s = (Return (Some path), s2) /\
      if Num.gtb (y endPoint) curveStartValue then
        forall q p, q ∈ path_points path -> heap s1 !! q = Some p ->
                    heap s2 !! q
                    = Some (mkPoint (x p) (Num.mul (y p) (Num.of_Z (-1))))
      else s2 = s1.
Proof.
  intros Hkeys curveStartValue.
  destruct (getPath_build_run g property s)
    as (cmds & pts & s1 & Hbuild & Hheap & Hrefs & Hlen & Hne).
  set (path := mkPath (mkPathCommand "M" (fresh s 1) :: cmds)) in *.
  assert (Hvalid : forall q, q ∈ path_points path -> is_Some (heap s1 !! q)).
  { intros q Hq. rewrite Hrefs in Hq. eapply fresh_valid; eassumption. }
  destruct (Path_getEndPoint_last_command path s1)
    as (lastCommand & r & HlastCommand & HlastPoint & Hlast & Hend).
  { subst path. cbn. discriminate. }
  { subst path. cbn [commands]. constructor; [cbn; discriminate|exact Hne]. }
  assert (Hr : r ∈ path_points path).
  { apply last_Some in Hlast as [rs ->]. apply elem_of_app. right. constructor. }
  destruct (Hvalid r Hr) as [endPoint HendPoint].
  exists path, s1, lastCommand, r, endPoint.
  split; [exact Hbuild|]. split; [exact HlastCommand|].
  split; [exact HlastPoint|]. split; [exact Hlast|].
  split; [exact Hend|]. split; [exact HendPoint|].
  split; [exact Hvalid|].
  unfold getPath.
  replace (numKeys property <=? 1)%nat with false
    by (symmetry; apply Nat.leb_gt; exact Hkeys).
  unfold bind at 1. rewrite Hbuild.
  unfold bind at 1. rewrite Hend.
  unfold bind at 1. unfold get_Point at 1. rewrite HendPoint.
  fold curveStartValue.
  destruct (Num.gtb (y endPoint) curveStartValue).
  - destruct (forEach_invert_point_run (path_points path) s1)
      as (s2 & Hrun & _ & _ & _ & Hinv & _).
    { rewrite Hrefs. apply fresh_NoDup. }
    { exact Hvalid. }
    exists s2. unfold bind. rewrite Path_invertYAxis_flat, Hrun.
    split; [reflexivity|]. exact Hinv.
  - exists s1. split; reflexivity.
Qed.

(** Both branches: a value falling from 0 to -100 ends at (24, -100), not
    above its start, and is left as built; a value rising from 0 to 100
    ends at (24, 100), above its start, and its end point becomes
    (24, -100). *)
Lemma getPath_inverts_iff_witness :
  ((1 < numKeys example_property)%nat /\
   exists path s1 r,
     getPath_build example_globals example_property initial_state
       = (Return path, s1) /\
     last (path_points path) = Some r /\
     heap s1 !! r = Some (mkPoint (Num.of_Z 24) (Num.of_Z (-100))) /\
     getPath example_globals example_property initial_state
       = (Return (Some path), s1)) /\
  ((1 < numKeys rising_property)%nat /\
   exists path s1 s2 r,
     getPath_build example_globals rising_property initial_state
       = (Return path, s1) /\
     last (path_points path) = Some r /\
     heap s1 !! r = Some (mkPoint (Num.of_Z 24) (Num.of_Z 100)) /\
     getPath example_globals rising_property initial_state
       = (Return (Some path), s2) /\
     heap s2 !! r = Some (mkPoint (Num.of_Z 24) (Num.of_Z (-100)))).
Proof.
  split.
  - split; [cbn; lia|].
    destruct (getPath_inverts_iff example_globals example_property initial_state)
      as (path & s1 & c & r & endPoint & Hbuild & _ & _ & Hlast & _ & Hr & _
          & s2 & Hrun & Hif);
      [cbn; lia|].
    assert (Hb : (Return path, s1)
                 = getPath_build example_globals example_property initial_state)
      by (symmetry; exact Hbuild).
    vm_compute in Hb. injection Hb as -> ->.
    vm_compute in Hlast. injection Hlast as <-.
    vm_compute in Hr. injection Hr as <-.
    match type of Hif with
    | (if ?c then _ else _) =>
        assert (Hg : c = false) by (vm_compute; reflexivity); rewrite Hg in Hif
    end.
    subst s2.
    eexists. eexists. exists 3%nat.
    split; [vm_compute; reflexivity|].
    split; [reflexivity|]. split; [reflexivity|exact Hrun].
  - split; [cbn; lia|].
    destruct (getPath_inverts_iff example_globals rising_property initial_state)
      as (path & s1 & c & r & endPoint & Hbuild & _ & _ & Hlast & _ & Hr & _
          & s2 & Hrun & Hif);
      [cbn; lia|].
    assert (Hb : (Return path, s1)
                 = getPath_build example_globals rising_property initial_state)
      by (symmetry; exact Hbuild).
    vm_compute in Hb. injection Hb as -> ->.
    vm_compute in Hlast. injection Hlast as <-.
    pose proof Hr as Hr'.
    vm_compute in Hr. injection Hr as <-.
    match type of Hif with
    | (if ?c then _ else _) =>
        assert (Hg : c = true) by (vm_compute; reflexivity); rewrite Hg in Hif
    end.
    eexists. eexists. exists s2, 1%nat.
    split; [vm_compute; reflexivity|].
    split; [reflexivity|]. split; [reflexivity|].
    split; [exact Hrun|].
    rewrite (Hif 1%nat _ ltac:(vm_compute; apply elem_of_list_here || (right; left)) Hr').
    vm_compute. reflexivity.
Defined.

(** ** The two incoming-slope conventions *)

Lemma eqb_refl (a : number) : Num.is_nan a = false -> Num.eqb a a = true.
Proof.
  unfold Num.eqb, SFeqb.
  destruct a as [sa|sa| |sa ma ea]; cbn; try reflexivity; try discriminate.
  - destruct sa; reflexivity.
  - intros _. rewrite Z.compare_refl, Pos.compare_cont_refl.
    destruct sa; reflexivity.
Qed.

Lemma same_up_to_zero_sign_value (a b : number) :
  same_up_to_zero_sign a b -> Num.same_value_zero a b = true.
Proof.
  unfold Num.same_value_zero.
  intros [->|[Ha Hb]].
  - destruct (Num.is_nan b) eqn:Hn; [apply orb_true_r|].
    rewrite eqb_refl by exact Hn. reflexivity.
  - destruct a, b; try discriminate. reflexivity.
Qed.

Lemma same_up_to_zero_sign_div (a b f : number) :
  same_up_to_zero_sign a b ->
  same_up_to_zero_sign (Num.div a f) (Num.div b f).
Proof.
  intros [->|[Ha Hb]]; [left; reflexivity|].
  destruct a, b; try discriminate.
  destruct f; cbn; [left|right|left|right]; auto.
Qed.

Lemma same_up_to_zero_sign_mul (a b c : number) :
  same_up_to_zero_sign a b ->
  same_up_to_zero_sign (Num.mul a c) (Num.mul b c).
Proof.
  intros [->|[Ha Hb]]; [left; reflexivity|].
  destruct a, b; try discriminate.
  destruct c; cbn; [right|left|left|right]; auto.
Qed.

Lemma same_up_to_zero_sign_add (a b c : number) :
  same_up_to_zero_sign a b ->
  same_up_to_zero_sign (Num.add a c) (Num.add b c).
Proof.
  intros [->|[Ha Hb]]; [left; reflexivity|].
  destruct a as [sa| | |], b as [sb| | |]; try discriminate.
  destruct c as [sc|sc| |sc mc ec]; cbn; [right|left|left|left]; auto.
  destruct sa, sb, sc; cbn; auto.
Qed.

Lemma abs_of_negative (a : number) :
  Num.ltb a (S754_zero false) = true -> Num.abs a = Num.neg a.
Proof.
  destruct a as [sa|sa| |sa ma ea]; cbn; try discriminate;
    destruct sa; cbn; try discriminate; reflexivity.
Qed.

Lemma abs_of_nonpositive (a : number) :
  Num.leb a (S754_zero false) = true ->
  same_up_to_zero_sign (Num.neg a) (Num.abs a).
Proof.
  destruct a as [sa|sa| |sa ma ea]; cbn; try discriminate;
    destruct sa; cbn; try discriminate; intros _;
    solve [left; reflexivity | right; split; reflexivity].
Qed.

Lemma abs_of_positive (a : number) :
  Num.gtb a (S754_zero false) = true -> Num.abs a = a.
Proof.
  destruct a as [sa|sa| |sa ma ea]; cbn; try discriminate;
    destruct sa; cbn; try discriminate; reflexivity.
Qed.

Lemma result_point_new (s : State) (p : Point) :
  heap (with_points s [p]) !! length (heap s) = Some p.
Proof.
  cbn. rewrite lookup_app_r by lia. rewrite Nat.sub_diag. reflexivity.
Qed.

Lemma result_point_calcIncomingControlPoint g tweenData property keyIndex s :
  result_point (calcIncomingControlPoint g tweenData property keyIndex) s
  = Some (incoming_point g tweenData property keyIndex).
Proof.
  unfold result_point. rewrite calcIncomingControlPoint_run.
  apply result_point_new.
Qed.

Lemma result_point_calcIncomingControlPoint_variant2 g tweenData property keyIndex s :
  result_point (Variant2.calcIncomingControlPoint g tweenData property keyIndex) s
  = Some (incoming_point_variant2 g tweenData property keyIndex).
Proof.
  unfold result_point.
  change (Variant2.calcIncomingControlPoint g tweenData property keyIndex s)
    with (Return (length (heap s)),
          with_points s [incoming_point_variant2 g tweenData property keyIndex]).
  apply result_point_new.
Qed.

(** C3, as the code has it. The two variants of [calcIncomingControlPoint]
    return points with the same [x]. For [incomingSpeed < 0] the points
    are identical, and for [incomingSpeed <= 0] their [y] are the same
    number (for a speed [+0] a zero [y] may differ in its sign only). For
    [incomingSpeed > 0] the slopes are exact opposites: with
    [p = (incomingSpeed / frameRate) * x] rounded as the code rounds it, the
    second variant's [y] is [p + endValue] and the first's is
    [(-p) + endValue]. These are different numbers whenever [p] is a
    non-zero number and at least one of the two sums is not [endValue]
    itself ([endValue] being a proper binary64 value); they coincide only
    when [p] is lost in both additions. *)
Theorem incoming_control_points_compared
  (g : Globals) (tweenData : TweenData) (property : Property) (keyIndex : nat)
  (s : State) :
  let incomingSpeed := speed (fst (keyInTemporalEase property (keyIndex + 1))) in
  let incomingInfluence := influence (fst (keyInTemporalEase property (keyIndex + 1))) in
  let dx := Num.mul (durationFrames tweenData)
              (Num.div incomingInfluence (Num.of_Z 100)) in
  let p := Num.mul (Num.div incomingSpeed (framerate g)) dx in
  exists p1 p2,
    result_point (calcIncomingControlPoint g tweenData property keyIndex) s
      = Some p1 /\
    result_point (Variant2.calcIncomingControlPoint g tweenData property keyIndex) s
      = Some p2 /\
    x p1 = x p2 /\
    (Num.ltb incomingSpeed (Num.of_Z 0) = true -> p1 = p2) /\
    (Num.leb incomingSpeed (Num.of_Z 0) = true ->
       Num.same_value_zero (y p1) (y p2) = true) /\
    (Num.gtb incomingSpeed (Num.of_Z 0) = true ->
       y p1 = Num.add (Num.neg p) (endValue tweenData) /\
       y p2 = Num.add p (endValue tweenData) /\
       (is_binary64 (endValue tweenData) = true ->
        Num.is_nan p = false -> is_zero p = false ->
        y p2 <> endValue tweenData \/ y p1 <> endValue tweenData ->
        Num.same_value_zero (y p1) (y p2) = false)).
Proof.
  cbv zeta.
  exists (incoming_point g tweenData property keyIndex),
         (incoming_point_variant2 g tweenData property keyIndex).
  split; [apply result_point_calcIncomingControlPoint|].
  split; [apply result_point_calcIncomingControlPoint_variant2|].
  split; [reflexivity|].
  unfold incoming_point, incoming_point_variant2. cbn [x y].
  change (Num.of_Z 0) with (S754_zero false).
  split; [|split].
  - intros Hneg. rewrite (abs_of_negative _ Hneg). reflexivity.
  - intros Hle. apply same_up_to_zero_sign_value.
    apply same_up_to_zero_sign_add, same_up_to_zero_sign_mul,
      same_up_to_zero_sign_div.
    apply abs_of_nonpositive. exact Hle.
  - intros Hpos. rewrite (abs_of_positive _ Hpos).
    rewrite div_neg_l, mul_neg_l.
    split; [reflexivity|]. split; [reflexivity|].
    intros Hb Hnan Hz Hne.
    apply add_differs; try assumption.
    apply mul_exponent_ok.
Qed.

Lemma incoming_control_points_compared_witness :
  (exists p1 p2,
      result_point (calcIncomingControlPoint example_globals example_tweenData
                      example_property 1) initial_state = Some p1 /\
      result_point (Variant2.calcIncomingControlPoint example_globals
                      example_tweenData example_property 1) initial_state = Some p2 /\
      p1 = p2) /\
  (exists p1 p2,
      result_point (calcIncomingControlPoint example_globals example_tweenData
                      positive_speed_property 1) initial_state = Some p1 /\
      result_point (Variant2.calcIncomingControlPoint example_globals
                      example_tweenData positive_speed_property 1) initial_state
        = Some p2 /\
      Num.same_value_zero (y p1) (y p2) = false).
Proof.
  split.
  - destruct (incoming_control_points_compared example_globals example_tweenData
                example_property 1 initial_state)
      as (p1 & p2 & H1 & H2 & _ & Hneg & _).
    exists p1, p2. split; [exact H1|]. split; [exact H2|].
    apply Hneg. vm_compute. reflexivity.
  - destruct (incoming_control_points_compared example_globals example_tweenData
                positive_speed_property 1 initial_state)
      as (p1 & p2 & H1 & H2 & _ & _ & _ & Hpos).
    exists p1, p2. split; [exact H1|]. split; [exact H2|].
    destruct Hpos as (_ & E2 & Hdiff); [vm_compute; reflexivity|].
    apply Hdiff; try (vm_compute; reflexivity).
    left. rewrite E2. vm_compute. discriminate.
Defined.

(** C3 as stated fails in its second half: with an incoming speed of 1e-15
    (positive), 30 frames per second, a duration of 24 frames, an influence
    of 33.33 and an end value of 100, the horizontal offset is not zero and
    yet both variants return the very same point: the offset in [y] is lost
    when it is added to 100. *)
Lemma incoming_control_points_can_coincide :
  Num.gtb (speed (fst (keyInTemporalEase tiny_speed_property 2))) (Num.of_Z 0)
    = true /\
  Num.eqb
    (Num.mul
       (durationFrames (calcTweenData example_globals tiny_speed_property 1 2))
       (Num.div (influence (fst (keyInTemporalEase tiny_speed_property 2)))
          (Num.of_Z 100)))
    (Num.of_Z 0) = false /\
  exists p,
    result_point
      (calcIncomingControlPoint example_globals
         (calcTweenData example_globals tiny_speed_property 1 2)
         tiny_speed_property 1) initial_state = Some p /\
    result_point
      (Variant2.calcIncomingControlPoint example_globals
         (calcTweenData example_globals tiny_speed_property 1 2)
         tiny_speed_property 1) initial_state = Some p.
Proof.
  split; [vm_compute; reflexivity|].
  split; [vm_compute; reflexivity|].
  eexists. split; vm_compute; reflexivity.
Qed.

(** ** The normalized curve *)

Lemma getNormalizedCurve_run (g : Globals) (tweenData : TweenData)
  (p0 p1 : ref) (P0 P1 : Point) (s : State) :
  heap s !! p0 = Some P0 -> heap s !! p1 = Some P1 ->
  getNormalizedCurve g tweenData p0 p1 s
  = (Return [normalized_x g tweenData P0; normalized_y g tweenData P0;
             normalized_x g tweenData P1; normalized_y g tweenData P1], s).
Proof.
  intros H0 H1. unfold getNormalizedCurve, bind, get_Point.
  rewrite H0, H1. reflexivity.
Qed.

Lemma eqb_finite (s s' : bool) (m m' : positive) (e e' : Z) :
  Num.eqb (S754_finite s m e) (S754_finite s' m' e') = true ->
  s = s' /\ m = m' /\ e = e'.
Proof.
  unfold Num.eqb, SFeqb. cbn.
  destruct s, s'; try discriminate;
    destruct (Z.compare e e') eqn:He; try discriminate;
    apply Z.compare_eq in He;
    destruct (Pos.compare_cont Eq m m') eqn:Hm; try discriminate;
    apply Pos.compare_eq in Hm; auto.
Qed.

Lemma sub_self_finite (s : bool) (m : positive) (e : Z) :
  Num.sub (S754_finite s m e) (S754_finite s m e) = S754_zero false.
Proof.
  unfold Num.sub. cbn [SFsub]. rewrite Z.sub_diag. reflexivity.
Qed.

(** When [min == max], [max - min] is a zero, or NaN for infinite values. *)
Lemma delta_of_equal (lo hi : number) :
  Num.eqb lo hi = true ->
  is_zero (Num.sub hi lo) = true \/
  (Num.is_nan (Num.sub hi lo) = true /\ is_infinite lo = true).
Proof.
  intros Heq.
  destruct lo as [sl|sl| |sl ml el], hi as [sh|sh| |sh mh eh];
    try discriminate;
    try (destruct sl; cbn in Heq; discriminate);
    try (destruct sh; cbn in Heq; discriminate).
  - left. destruct sl, sh; reflexivity.
  - destruct sl, sh; try discriminate; right; split; reflexivity.
  - apply eqb_finite in Heq as (-> & -> & ->).
    left. rewrite sub_self_finite. reflexivity.
Qed.

Lemma div_by_zero (d z : number) :
  is_zero z = true ->
  (is_zero d || Num.is_nan d = true -> Num.div d z = Num.NaN) /\
  (is_zero d || Num.is_nan d = false ->
   exists sg, Num.div d z = S754_infinity sg).
Proof.
  intros Hz. destruct z as [sz| | |]; try discriminate.
  destruct d as [sd|sd| |sd md ed]; cbn;
    (split; [try discriminate; reflexivity | try discriminate; eauto]).
Qed.

(** With [min == max], [normalize] returns NaN when [val - min] is a zero
    or NaN (or the values are infinite), and an infinity, clamped to 10 or
    -10 when [clampInfiniteValues] is set, otherwise. *)
Lemma normalize_of_equal (g : Globals) (val lo hi : number) :
  Num.eqb lo hi = true ->
  (is_zero (Num.sub val lo) || Num.is_nan (Num.sub val lo) || is_infinite lo = true ->
   normalize g val lo hi = Num.NaN) /\
  (is_zero (Num.sub val lo) || Num.is_nan (Num.sub val lo) || is_infinite lo = false ->
   exists sg,
     normalize g val lo hi =
       if clampInfiniteValues g
       then (if sg : bool then Num.of_Z (-10) else Num.of_Z 10)
       else S754_infinity sg).
Proof.
  intros Heq. unfold normalize.
  destruct (delta_of_equal lo hi Heq) as [Hz|[Hn Hi]].
  - assert (Hlo : is_infinite lo = false).
    { destruct lo as [|sl| |], hi as [|sh| |]; try discriminate; try reflexivity.
      destruct sl, sh; cbn in *; discriminate. }
    rewrite Hlo, orb_false_r.
    destruct (div_by_zero (Num.sub val lo) (Num.sub hi lo) Hz) as [Hnan Hinf].
    split.
    + intros Hd. rewrite (Hnan Hd). destruct (clampInfiniteValues g); reflexivity.
    + intros Hd. destruct (Hinf Hd) as [sg ->]. exists sg.
      destruct (clampInfiniteValues g), sg; reflexivity.
  - rewrite Hi, !orb_true_r. split; [intros _|discriminate].
    destruct (Num.sub hi lo); try discriminate.
    destruct (Num.sub val lo), (clampInfiniteValues g); reflexivity.
Qed.

Lemma normalized_y_of_flat_segment (g : Globals) (tweenData : TweenData) (p : Point) :
  Num.eqb (startValue tweenData) (endValue tweenData) = true ->
  flat_segment_rule g tweenData p
    (normalized_x g tweenData p) (normalized_y g tweenData p).
Proof.
  intros Heq. unfold flat_segment_rule, normalized_y. cbv zeta.
  destruct (normalize_of_equal g (y p) _ _ Heq) as [Hnan Hinf].
  destruct (is_zero _ || Num.is_nan _ || is_infinite _).
  - rewrite (Hnan eq_refl). reflexivity.
  - destruct (Hinf eq_refl) as [sg ->].
    destruct (clampInfiniteValues g), sg; vm_compute; auto.
Qed.

(** C6, as the code has it. On a segment with [startValue == endValue], the
    normalized [y] of a control point is set to its normalized [x] when the
    quotient [(y - startValue) / (endValue - startValue)] is NaN, that is
    when [y - startValue] is a zero or NaN (the control point is level with
    the start value) or the values are infinite. Otherwise the quotient is
    an infinity and the normalized [y] is ["10.00"] or ["-10.00"] when
    [clampInfiniteValues] is set, ["Infinity"] or ["-Infinity"] when it is
    not. *)
Theorem getNormalizedCurve_flat_segment
  (g : Globals) (tweenData : TweenData) (p0 p1 : ref) (P0 P1 : Point) (s : State) :
  heap s !! p0 = Some P0 -> heap s !! p1 = Some P1 ->
  Num.eqb (startValue tweenData) (endValue tweenData) = true ->
  exists x1 y1 x2 y2,
    getNormalizedCurve g tweenData p0 p1 s = (Return [x1; y1; x2; y2], s) /\
    flat_segment_rule g tweenData P0 x1 y1 /\
    flat_segment_rule g tweenData P1 x2 y2.
Proof.
  intros H0 H1 Heq.
  exists (normalized_x g tweenData P0), (normalized_y g tweenData P0),
         (normalized_x g tweenData P1), (normalized_y g tweenData P1).
  split; [apply getNormalizedCurve_run; assumption|].
  split; apply normalized_y_of_flat_segment; exact Heq.
Qed.

Lemma getNormalizedCurve_flat_segment_witness :
  exists x1 y1 x2 y2,
    getNormalizedCurve example_globals
      (calcTweenData example_globals flat_property 1 2) 0%nat 1%nat
      (mkState [mkPoint (Num.lit 8 0) (Num.lit 50 0);
                mkPoint (Num.lit 16 0) (Num.lit 45 0)] [] [])
    = (Return [x1; y1; x2; y2],
       mkState [mkPoint (Num.lit 8 0) (Num.lit 50 0);
                mkPoint (Num.lit 16 0) (Num.lit 45 0)] [] []) /\
    y1 = x1 /\ y2 = "-10.00".
Proof.
  destruct (getNormalizedCurve_flat_segment example_globals
              (calcTweenData example_globals flat_property 1 2) 0%nat 1%nat
              (mkPoint (Num.lit 8 0) (Num.lit 50 0))
              (mkPoint (Num.lit 16 0) (Num.lit 45 0))
              (mkState [mkPoint (Num.lit 8 0) (Num.lit 50 0);
                        mkPoint (Num.lit 16 0) (Num.lit 45 0)] [] []))
    as (x1 & y1 & x2 & y2 & Hrun & Hy1 & Hy2);
    [reflexivity | reflexivity | vm_compute; reflexivity |].
  exists x1, y1, x2, y2. split; [exact Hrun|].
  split; [exact Hy1|].
  assert (Hr := Hrun). vm_compute in Hr. congruence.
Defined.

(** C6 as stated fails: a segment from 50 to 50 left with a speed of 10 has
    an outgoing control point above 50, and its normalized [y] is
    ["10.00"], not its normalized [x], ["0.33"]; likewise for the incoming
    control point. *)
Lemma flat_segment_y_is_not_x :
  Num.eqb (startValue (calcTweenData example_globals flat_property 1 2))
          (endValue (calcTweenData example_globals flat_property 1 2)) = true /\
  result (getBezierVals example_globals flat_property 1 2) initial_state
    = Some ["0.33"; "10.00"; "0.67"; "10.00"] /\
  "10.00" <> "0.33" /\ "10.00" <> "0.67".
Proof.
  split; [vm_compute; reflexivity|].
  split; [vm_compute; reflexivity|].
  split; discriminate.
Qed.

(** ** Serialization *)

Lemma Point_toString_run (r : ref) (p : Point) (s : State) :
  heap s !! r = Some p -> Point_toString r s = (Return (point_text p), s).
Proof.
  intros Hp. unfold Point_toString, bind, get_Point. rewrite Hp. reflexivity.
Qed.

Lemma string_app_assoc (a b c : string) :
  ((a ++ b) ++ c = a ++ (b ++ c))%string.
Proof. induction a as [|ch a IH]; cbn; [reflexivity|rewrite IH; reflexivity]. Qed.

Lemma string_app_nil_r (a : string) : (a ++ "")%string = a.
Proof. induction a as [|ch a IH]; cbn; [reflexivity|rewrite IH; reflexivity]. Qed.

Lemma PathCommand_toString_loop_run (s : State) (refs : list ref) :
  forall (i : nat) (str : string),
  Forall (fun r => is_Some (heap s !! r)) refs ->
  PathCommand_toString_loop i refs str s
  = (Return (str ++ (if (1 <=? i)%nat then
                       match refs with [] => "" | _ => "," end
                     else "")
                 ++ Conv.join "," (map (ref_text s) refs))%string, s).
Proof.
  induction refs as [|r refs IH]; intros i str Hall.
  - destruct i; cbn; rewrite string_app_nil_r; reflexivity.
  - apply Forall_cons in Hall as [[p Hp] Hall].
    cbn [PathCommand_toString_loop]. unfold bind.
    rewrite (Point_toString_run r p s Hp).
    rewrite (IH (S i) _ Hall). cbn [Nat.leb].
    unfold ret. f_equal. f_equal.
    unfold ref_text at 2. cbn [map]. unfold ref_text at 1. rewrite Hp.
    destruct refs as [|r' refs]; cbn [Conv.join map];
      destruct i; cbn [Nat.leb];
      rewrite ?string_app_assoc, ?string_app_nil_r; cbn;
      rewrite ?string_app_nil_r; reflexivity.
Qed.

Lemma PathCommand_toString_run (s : State) (c : PathCommand) :
  Forall (fun r => is_Some (heap s !! r)) (points c) ->
  PathCommand_toString c s = (Return (command_text s c), s).
Proof.
  intros Hall. unfold PathCommand_toString.
  rewrite (PathCommand_toString_loop_run s _ 0%nat _ Hall). reflexivity.
Qed.

Lemma Path_toString_loop_run (s : State) (cmds : list PathCommand) :
  forall str : string,
  Forall (fun c => Forall (fun r => is_Some (heap s !! r)) (points c)) cmds ->
  Path_toString_loop cmds str s
  = (Return (str ++ String.concat "" (map (command_text s) cmds))%string, s).
Proof.
  induction cmds as [|c cmds IH]; intros str Hall.
  - cbn. rewrite string_app_nil_r. reflexivity.
  - apply Forall_cons in Hall as [Hc Hall].
    cbn [Path_toString_loop]. unfold bind.
    rewrite (PathCommand_toString_run s c Hc), (IH _ Hall).
    f_equal. f_equal. rewrite string_app_assoc. f_equal.
    destruct cmds; cbn; rewrite ?string_app_nil_r; reflexivity.
Qed.

Lemma Path_toString_run (s : State) (path : Path) :
  Forall (fun c => Forall (fun r => is_Some (heap s !! r)) (points c))
    (commands path) ->
  Path_toString path s = (Return (path_text s path), s).
Proof.
  intros Hall. unfold Path_toString.
  rewrite (Path_toString_loop_run s _ _ Hall). reflexivity.
Qed.

Lemma no_white_space_app (a b : string) :
  no_white_space (a ++ b)%string = no_white_space a && no_white_space b.
Proof.
  induction a as [|c a IH]; cbn; [reflexivity|].
  rewrite IH, andb_assoc. reflexivity.
Qed.

Lemma no_white_space_substring (s : string) :
  no_white_space s = true ->
  forall n m, no_white_space (substring n m s) = true.
Proof.
  induction s as [|c s IH]; intros Hs n m.
  - destruct n, m; reflexivity.
  - cbn in Hs. apply andb_true_iff in Hs as [Hc Hs].
    destruct n, m; cbn; try reflexivity; try (apply IH; exact Hs).
    rewrite Hc. apply IH. exact Hs.
Qed.

Lemma no_white_space_zeros (n : nat) : no_white_space (Conv.zeros n) = true.
Proof. induction n as [|n IH]; [reflexivity|exact IH]. Qed.

Lemma no_white_space_uint (d : Decimal.uint) :
  no_white_space (NilEmpty.string_of_uint d) = true.
Proof. induction d; cbn; auto. Qed.

Lemma no_white_space_digits (n : N) : no_white_space (Conv.digits n) = true.
Proof.
  unfold Conv.digits, NilZero.string_of_uint.
  destruct (N.to_uint n); try reflexivity;
    match goal with |- context [NilEmpty.string_of_uint ?d] =>
      apply (no_white_space_uint d)
    end.
Qed.

Lemma no_white_space_of_list (l : list ascii) :
  no_white_space (string_of_list_ascii l)
  = forallb (fun c => negb (Conv.is_white_space c)) l.
Proof. induction l as [|c l IH]; cbn; [reflexivity|rewrite IH; reflexivity]. Qed.

Lemma no_white_space_to_list (s : string) :
  forallb (fun c => negb (Conv.is_white_space c)) (list_ascii_of_string s)
  = no_white_space s.
Proof. induction s as [|c s IH]; cbn; [reflexivity|rewrite IH; reflexivity]. Qed.

Lemma strip_zeros_rev_incl (l : list ascii) (c : ascii) :
  In c (Conv.strip_zeros_rev l) -> In c l.
Proof.
  induction l as [|a l IH]; cbn; [auto|].
  destruct a as [[] [] [] [] [] [] [] []]; cbn; auto.
Qed.

Lemma no_white_space_strip (s : string) :
  no_white_space s = true -> no_white_space (Conv.strip_trailing_zeros s) = true.
Proof.
  intros Hs. unfold Conv.strip_trailing_zeros.
  rewrite no_white_space_of_list. apply forallb_forall.
  intros c Hc. apply in_rev in Hc. apply strip_zeros_rev_incl in Hc.
  apply in_rev in Hc.
  rewrite <- no_white_space_to_list in Hs.
  rewrite forallb_forall in Hs. apply Hs. exact Hc.
Qed.

Lemma no_white_space_format_digits (ds : string) (n : Z) :
  no_white_space ds = true -> no_white_space (Conv.format_digits ds n) = true.
Proof.
  intros Hds. unfold Conv.format_digits.
  repeat match goal with
         | |- context [if ?b then _ else _] => destruct b
         end;
    repeat (rewrite no_white_space_app; apply andb_true_iff; split);
    try reflexivity;
    auto using no_white_space_substring, no_white_space_zeros,
      no_white_space_digits.
Qed.

(** A number is printed without any white space. *)
Lemma no_white_space_ToString (v : number) :
  no_white_space (Conv.ToString v) = true.
Proof.
  destruct v as [sv|sv| |sv m e]; try reflexivity.
  - destruct sv; reflexivity.
  - unfold Conv.ToString.
    destruct (Conv.shortest m e) as [ds n] eqn:Hs.
    rewrite no_white_space_app. apply andb_true_iff.
    split; [destruct sv; reflexivity|].
    apply no_white_space_format_digits.
    unfold Conv.shortest in Hs.
    destruct (Conv.fraction m e) as [num den].
    destruct (Conv.search_digits _ _ _ _ _ _) as [sd k].
    injection Hs as <- _.
    apply no_white_space_strip, no_white_space_digits.
Qed.

Lemma no_white_space_join (l : list string) :
  Forall (fun a => no_white_space a = true) l ->
  no_white_space (Conv.join "," l) = true.
Proof.
  induction l as [|a l IH]; intros Hl; [reflexivity|].
  apply Forall_cons in Hl as [Ha Hl].
  destruct l as [|b l]; [exact Ha|].
  change (Conv.join "," (a :: b :: l))
    with (a ++ "," ++ Conv.join "," (b :: l))%string.
  rewrite !no_white_space_app, Ha, (IH Hl). reflexivity.
Qed.

Lemma no_white_space_point_text (p : Point) :
  no_white_space (point_text p) = true.
Proof.
  unfold point_text.
  rewrite !no_white_space_app, !no_white_space_ToString. reflexivity.
Qed.

Lemma no_white_space_command_text (s : State) (c : PathCommand) :
  no_white_space (command c) = true ->
  no_white_space (command_text s c) = true.
Proof.
  intros Hc. unfold command_text. rewrite no_white_space_app, Hc.
  apply no_white_space_join. apply Forall_map, Forall_forall.
  intros r _. unfold ref_text.
  destruct (heap s !! r); [apply no_white_space_point_text|reflexivity].
Qed.

Lemma no_white_space_path_text (s : State) (path : Path) :
  Forall (fun c => no_white_space (command c) = true) (commands path) ->
  no_white_space (path_text s path) = true.
Proof.
  unfold path_text. induction (commands path) as [|c cs IH]; intros Hall;
    [reflexivity|].
  apply Forall_cons in Hall as [Hc Hall].
  cbn [map String.concat].
  destruct (map (command_text s) cs) eqn:Hmap.
  - apply no_white_space_command_text. exact Hc.
  - rewrite !no_white_space_app, (no_white_space_command_text s c Hc).
    cbn [no_white_space andb]. apply IH. exact Hall.
Qed.

(** C7, as the code has it. In path mode every coordinate goes through
    [cleanNumber]: it is rounded to 4 decimals by [toFixed(4)] (an [x] of 8
    gives ["8.0000"]), read back as a number by [parseFloat], and that number
    is printed by the default conversion, which keeps no trailing zero (the
    [x] of 8 prints as ["8"]). The path string is the concatenation, command
    after command, of the command letter and its points [x,y] separated by
    commas, and it contains no white space. *)
Theorem Path_toString_format (s : State) (path : Path) :
  Forall (fun c => Forall (fun r => is_Some (heap s !! r)) (points c))
    (commands path) ->
  Forall (fun c => no_white_space (command c) = true) (commands path) ->
  exists str,
    Path_toString path s = (Return str, s) /\
    str = String.concat ""
            (map (fun c =>
                    (command c ++
                     Conv.join ","
                       (map (fun r =>
                               match heap s !! r with
                               | Some p =>
                                   Conv.ToString (Conv.parseFloat (Conv.toFixed 4 (x p)))
                                   ++ "," ++
                                   Conv.ToString (Conv.parseFloat (Conv.toFixed 4 (y p)))
                               | None => ""
                               end) (points c)))%string)
               (commands path)) /\
    no_white_space str = true /\
    Conv.toFixed 4 (Num.lit 8 0) = "8.0000" /\
    Conv.ToString (cleanNumber (Num.lit 8 0)) = "8".
Proof.
  intros Hvalid Hletters. exists (path_text s path).
  split; [apply Path_toString_run; exact Hvalid|].
  split; [reflexivity|].
  split; [apply no_white_space_path_text; exact Hletters|].
  split; vm_compute; reflexivity.
Qed.

Lemma Path_toString_format_witness :
  exists str,
    Path_toString (mkPath [mkPathCommand "M" [0%nat]; mkPathCommand "L" [1%nat]])
      (mkState [mkPoint (Num.lit 0 0) (Num.lit 0 0);
                mkPoint (Num.lit 24 0) (Num.lit (-1005) 1)] [] [])
    = (Return str,
       mkState [mkPoint (Num.lit 0 0) (Num.lit 0 0);
                mkPoint (Num.lit 24 0) (Num.lit (-1005) 1)] [] []) /\
    no_white_space str = true.
Proof.
  destruct (Path_toString_format
              (mkState [mkPoint (Num.lit 0 0) (Num.lit 0 0);
                        mkPoint (Num.lit 24 0) (Num.lit (-1005) 1)] [] [])
              (mkPath [mkPathCommand "M" [0%nat]; mkPathCommand "L" [1%nat]]))
    as (str & Hrun & _ & Hws & _).
  - repeat constructor; eexists; reflexivity.
  - repeat constructor.
  - exists str. split; assumption.
Defined.

(** C7 as stated fails: the Point (8, 2.5) is serialized as [8,2.5], not as
    [8.0000,2.5000]. *)
Lemma x_of_8_prints_without_decimals :
  result (Point_toString 0%nat)
    (mkState [mkPoint (Num.lit 8 0) (Num.lit 25 1)] [] []) = Some "8,2.5" /\
  "8,2.5" <> "8.0000,2.5000".
Proof. split; [vm_compute; reflexivity|discriminate]. Qed.

(** ** Existing Points under the operations *)

Section Preservation.

Variable R : State -> State -> Prop.
Hypothesis R_refl : forall s, R s s.
Hypothesis R_trans : forall s1 s2 s3, R s1 s2 -> R s2 s3 -> R s1 s3.

Lemma preserves_ret {A} (a : A) : preserves R (ret a).
Proof. intros s. apply R_refl. Qed.

Lemma preserves_throw {A} (e : Exception) : preserves R (@throw A e).
Proof. intros s. apply R_refl. Qed.

Lemma preserves_bind {A B} (c : M A) (k : A -> M B) :
  preserves R c -> (forall a, preserves R (k a)) -> preserves R (bind c k).
Proof.
  intros Hc Hk s. unfold bind. specialize (Hc s).
  destruct (c s) as [[a|e] s1]; cbn in *; [|exact Hc].
  eapply R_trans; [exact Hc|apply Hk].
Qed.

Lemma preserves_if {A} (b : bool) (c1 c2 : M A) :
  preserves R c1 -> preserves R c2 -> preserves R (if b then c1 else c2).
Proof. destruct b; auto. Qed.

Lemma preserves_get_Point (r : ref) : preserves R (get_Point r).
Proof. intros s. unfold get_Point. destruct (heap s !! r); apply R_refl. Qed.

Lemma preserves_forEach {A} (body : A -> M unit) (l : list A) :
  (forall a, preserves R (body a)) -> preserves R (forEach body l).
Proof.
  intros Hbody. induction l as [|a l IH]; cbn [forEach].
  - apply preserves_ret.
  - apply preserves_bind; [apply Hbody|intros _; exact IH].
Qed.

End Preservation.

Lemma keeps_points_refl (s : State) : keeps_points s s.
Proof. intros r p H. exact H. Qed.

Lemma keeps_points_trans (s1 s2 s3 : State) :
  keeps_points s1 s2 -> keeps_points s2 s3 -> keeps_points s1 s3.
Proof. intros H12 H23 r p H. apply H23, H12, H. Qed.

Lemma keeps_x_refl (s : State) : keeps_x s s.
Proof. intros r p H. exists p. split; [exact H|reflexivity]. Qed.

Lemma keeps_x_trans (s1 s2 s3 : State) :
  keeps_x s1 s2 -> keeps_x s2 s3 -> keeps_x s1 s3.
Proof.
  intros H12 H23 r p H.
  destruct (H12 r p H) as (p2 & Hp2 & Hx2).
  destruct (H23 r p2 Hp2) as (p3 & Hp3 & Hx3).
  exists p3. split; [exact Hp3|congruence].
Qed.

Lemma keeps_points_keeps_x (s s' : State) : keeps_points s s' -> keeps_x s s'.
Proof. intros H r p Hp. exists p. split; [apply H, Hp|reflexivity]. Qed.

Lemma preserves_weaken {A} (c : M A) :
  preserves keeps_points c -> preserves keeps_x c.
Proof. intros H s. apply keeps_points_keeps_x, H. Qed.

Lemma keeps_points_same_heap (s s' : State) :
  heap s' = heap s -> keeps_points s s'.
Proof. intros H r p Hp. rewrite H. exact Hp. Qed.

Lemma keeps_points_new_Point (px py : number) :
  preserves keeps_points (new_Point px py).
Proof.
  intros s r p Hp. cbn. apply lookup_app_l_Some. exact Hp.
Qed.

Lemma keeps_points_alert (message : string) : preserves keeps_points (alert message).
Proof. intros s. apply keeps_points_same_heap. reflexivity. Qed.

Lemma keeps_points_writeln (line : string) : preserves keeps_points (writeln line).
Proof. intros s. apply keeps_points_same_heap. reflexivity. Qed.

Lemma keeps_x_invert_point (r : ref) : preserves keeps_x (invert_point r).
Proof.
  intros s. destruct (heap s !! r) as [p0|] eqn:Hp0.
  - rewrite (invert_point_run r p0 s Hp0). cbn [snd].
    intros q p Hp. cbn [heap].
    destruct (decide (q = r)) as [->|Hne].
    + exists (inverted p0). split.
      * apply list_lookup_insert_eq. eapply lookup_lt_Some. exact Hp0.
      * rewrite Hp0 in Hp. injection Hp as <-. reflexivity.
    + exists p. split; [|reflexivity].
      rewrite list_lookup_insert_ne by congruence. exact Hp.
  - unfold invert_point, bind, get_Point. rewrite Hp0. apply keeps_x_refl.
Qed.

Lemma keeps_points_ret {A} (a : A) : preserves keeps_points (ret a).
Proof. apply preserves_ret, keeps_points_refl. Qed.

Lemma keeps_points_throw {A} (e : Exception) : preserves keeps_points (@throw A e).
Proof. apply preserves_throw, keeps_points_refl. Qed.

Lemma keeps_points_get_Point (r : ref) : preserves keeps_points (get_Point r).
Proof. apply preserves_get_Point, keeps_points_refl. Qed.

Lemma keeps_points_bind {A B} (c : M A) (k : A -> M B) :
  preserves keeps_points c -> (forall a, preserves keeps_points (k a)) ->
  preserves keeps_points (bind c k).
Proof. apply preserves_bind, keeps_points_trans. Qed.

Lemma keeps_x_ret {A} (a : A) : preserves keeps_x (ret a).
Proof. apply preserves_ret, keeps_x_refl. Qed.

Lemma keeps_x_throw {A} (e : Exception) : preserves keeps_x (@throw A e).
Proof. apply preserves_throw, keeps_x_refl. Qed.

Lemma keeps_x_bind {A B} (c : M A) (k : A -> M B) :
  preserves keeps_x c -> (forall a, preserves keeps_x (k a)) ->
  preserves keeps_x (bind c k).
Proof. apply preserves_bind, keeps_x_trans. Qed.

Lemma keeps_x_forEach {A} (body : A -> M unit) (l : list A) :
  (forall a, preserves keeps_x (body a)) -> preserves keeps_x (forEach body l).
Proof. apply preserves_forEach; [apply keeps_x_refl|apply keeps_x_trans]. Qed.

Create HintDb keeps discriminated.

#[local] Hint Resolve keeps_points_ret keeps_points_throw keeps_points_get_Point
  keeps_points_new_Point keeps_points_alert keeps_points_writeln
  keeps_x_ret keeps_x_throw keeps_x_invert_point : keeps.

(** One step through a computation, for either relation. *)
Ltac keeps_step :=
  first
    [ solve [auto with keeps]
    | apply keeps_points_bind; [ | intros ? ]
    | apply keeps_x_bind; [ | intros ? ]
    | apply preserves_if
    | apply preserves_weaken ].

Ltac keeps := cbv zeta; repeat keeps_step.

Lemma keeps_points_PathCommand_points (coordinates : list number) :
  preserves keeps_points (PathCommand_points coordinates).
Proof.
  intros s. rewrite PathCommand_points_run. cbn [snd].
  intros r p Hp. cbn. apply lookup_app_l_Some. exact Hp.
Qed.

#[local] Hint Resolve keeps_points_PathCommand_points : keeps.

Lemma keeps_points_new_PathCommand (letter : string) (coordinates : list number) :
  preserves keeps_points (new_PathCommand letter coordinates).
Proof. unfold new_PathCommand. keeps. Qed.

#[local] Hint Resolve keeps_points_new_PathCommand : keeps.

Lemma keeps_points_new_Path (startX startY : option number) :
  preserves keeps_points (new_Path startX startY).
Proof. unfold new_Path. destruct startX, startY; keeps. Qed.

Lemma keeps_points_Path_getEndPoint (path : Path) :
  preserves keeps_points (Path_getEndPoint path).
Proof.
  unfold Path_getEndPoint. cbv zeta. destruct (commands path !! _); keeps.
Qed.

Lemma keeps_points_Point_toString (r : ref) :
  preserves keeps_points (Point_toString r).
Proof. unfold Point_toString. keeps. Qed.

#[local] Hint Resolve keeps_points_new_Path keeps_points_Path_getEndPoint
  keeps_points_Point_toString : keeps.

Lemma keeps_points_PathCommand_toString (c : PathCommand) :
  preserves keeps_points (PathCommand_toString c).
Proof.
  unfold PathCommand_toString. generalize 0%nat (command c).
  induction (points c) as [|r rs IH]; intros i str;
    cbn [PathCommand_toString_loop]; keeps.
Qed.

#[local] Hint Resolve keeps_points_PathCommand_toString : keeps.

Lemma keeps_points_Path_toString (path : Path) :
  preserves keeps_points (Path_toString path).
Proof.
  unfold Path_toString. generalize "".
  induction (commands path) as [|c cs IH]; intros str;
    cbn [Path_toString_loop]; keeps.
Qed.

Lemma keeps_points_log (g : Globals) (str : option string) :
  preserves keeps_points (log g str).
Proof. unfold log. keeps. Qed.

Lemma keeps_points_calcOutgoingControlPoint g tweenData property keyIndex :
  preserves keeps_points (calcOutgoingControlPoint g tweenData property keyIndex).
Proof. unfold calcOutgoingControlPoint. keeps. Qed.

Lemma keeps_points_calcIncomingControlPoint g tweenData property keyIndex :
  preserves keeps_points (calcIncomingControlPoint g tweenData property keyIndex).
Proof. unfold calcIncomingControlPoint. keeps. Qed.

Lemma keeps_points_calcIncomingControlPoint_variant2 g tweenData property keyIndex :
  preserves keeps_points
    (Variant2.calcIncomingControlPoint g tweenData property keyIndex).
Proof. unfold Variant2.calcIncomingControlPoint. keeps. Qed.

#[local] Hint Resolve keeps_points_log keeps_points_calcOutgoingControlPoint
  keeps_points_calcIncomingControlPoint : keeps.

Lemma keeps_points_getCommand g property keyIndex :
  preserves keeps_points (getCommand g property keyIndex).
Proof. unfold getCommand. keeps. Qed.

#[local] Hint Resolve keeps_points_getCommand : keeps.

Lemma keeps_points_getPath_loop g property count :
  forall i path, preserves keeps_points (getPath_loop g property count i path).
Proof.
  induction count as [|count IH]; intros i path; cbn [getPath_loop]; keeps.
Qed.

#[local] Hint Resolve keeps_points_getPath_loop : keeps.

Lemma keeps_points_getPath_build g property :
  preserves keeps_points (getPath_build g property).
Proof. unfold getPath_build. keeps. Qed.

Lemma keeps_points_getNormalizedCurve g tweenData p0 p1 :
  preserves keeps_points (getNormalizedCurve g tweenData p0 p1).
Proof. unfold getNormalizedCurve. keeps. Qed.

#[local] Hint Resolve keeps_points_getPath_build keeps_points_getNormalizedCurve
  : keeps.

Lemma keeps_points_getBezierVals g prop startIndex endIndex :
  preserves keeps_points (getBezierVals g prop startIndex endIndex).
Proof. unfold getBezierVals. keeps. Qed.

#[local] Hint Resolve keeps_points_getBezierVals : keeps.

Lemma keeps_points_buildBezierCurveArray g property count :
  forall i, preserves keeps_points (buildBezierCurveArray g property count i).
Proof.
  induction count as [|count IH]; intros i; cbn [buildBezierCurveArray]; keeps.
Qed.

#[local] Hint Resolve keeps_points_buildBezierCurveArray : keeps.

Lemma keeps_points_buildBezierCurveArrayString g property :
  preserves keeps_points (buildBezierCurveArrayString g property).
Proof. unfold buildBezierCurveArrayString. keeps. Qed.

Lemma keeps_x_Path_invertYAxis (path : Path) :
  preserves keeps_x (Path_invertYAxis path).
Proof.
  unfold Path_invertYAxis.
  apply keeps_x_forEach. intros c. apply keeps_x_forEach. auto with keeps.
Qed.

#[local] Hint Resolve keeps_x_Path_invertYAxis : keeps.

Lemma keeps_x_getPath g property : preserves keeps_x (getPath g property).
Proof.
  unfold getPath. apply preserves_if; [keeps|]. cbv zeta.
  apply keeps_x_bind; [keeps|intros path].
  apply keeps_x_bind; [keeps|intros [r|]]; [|keeps].
  apply keeps_x_bind; [keeps|intros endPoint].
  apply keeps_x_bind; [|intros _; keeps].
  apply preserves_if; keeps.
Qed.

(** C8, as the code has it. Once a Point is constructed its [x] never
    changes, and no constructor, reader, serializer or calculation of the
    script changes its [y] either: they only add new Points. The one
    exception is [Path.prototype.invertYAxis], which [getPath] calls when the
    end point is above the start value: it multiplies by [-1], in place, the
    [y] of every Point of the path, and leaves every other Point alone. *)
Theorem points_change_only_by_invertYAxis :
  (forall px py, preserves keeps_points (new_Point px py)) /\
  (forall letter coordinates,
      preserves keeps_points (new_PathCommand letter coordinates)) /\
  (forall startX startY, preserves keeps_points (new_Path startX startY)) /\
  (forall path, preserves keeps_points (Path_getEndPoint path)) /\
  (forall r, preserves keeps_points (Point_toString r)) /\
  (forall c, preserves keeps_points (PathCommand_toString c)) /\
  (forall path, preserves keeps_points (Path_toString path)) /\
  (forall g tweenData property keyIndex,
      preserves keeps_points (calcOutgoingControlPoint g tweenData property keyIndex)) /\
  (forall g tweenData property keyIndex,
      preserves keeps_points (calcIncomingControlPoint g tweenData property keyIndex)) /\
  (forall g tweenData property keyIndex,
      preserves keeps_points
        (Variant2.calcIncomingControlPoint g tweenData property keyIndex)) /\
  (forall g property keyIndex,
      preserves keeps_points (getCommand g property keyIndex)) /\
  (forall g property, preserves keeps_points (getPath_build g property)) /\
  (forall g tweenData p0 p1,
      preserves keeps_points (getNormalizedCurve g tweenData p0 p1)) /\
  (forall g prop startIndex endIndex,
      preserves keeps_points (getBezierVals g prop startIndex endIndex)) /\
  (forall g property,
      preserves keeps_points (buildBezierCurveArrayString g property)) /\
  (forall path, preserves keeps_x (Path_invertYAxis path)) /\
  (forall g property, preserves keeps_x (getPath g property)) /\
  (forall path s,
      NoDup (path_points path) ->
      (forall r : ref, r ∈ path_points path -> is_Some (heap s !! r)) ->
      exists s',
        Path_invertYAxis path s = (Return tt, s') /\
        (forall (r : ref) (p : Point),
            r ∈ path_points path -> heap s !! r = Some p ->
            heap s' !! r = Some (mkPoint (x p) (Num.mul (y p) (Num.of_Z (-1))))) /\
        (forall r : ref, r ∉ path_points path -> heap s' !! r = heap s !! r)).
Proof.
  repeat match goal with |- _ /\ _ => split end;
    try solve [intros; auto with keeps].
  - intros. apply keeps_points_Path_toString.
  - intros. apply keeps_points_calcIncomingControlPoint_variant2.
  - intros. apply keeps_points_buildBezierCurveArrayString.
  - intros. apply keeps_x_getPath.
  - intros path s Hnd Hvalid.
    destruct (forEach_invert_point_run (path_points path) s Hnd Hvalid)
      as (s' & Hrun & _ & _ & _ & Hinv & Hout).
    exists s'. rewrite Path_invertYAxis_flat.
    split; [exact Hrun|]. split; [exact Hinv|exact Hout].
Qed.

(** C8 as stated fails: [getPath] on a property rising from 0 to 100 builds
    a path whose end point is the Point (24, 100); the inversion then
    changes the [y] of that very object to -100. *)
Lemma invertYAxis_changes_a_Point :
  exists path s1 s2 r,
    getPath_build example_globals rising_property initial_state
      = (Return path, s1) /\
    getPath example_globals rising_property initial_state
      = (Return (Some path), s2) /\
    heap s1 !! r = Some (mkPoint (Num.lit 24 0) (Num.lit 100 0)) /\
    heap s2 !! r = Some (mkPoint (Num.lit 24 0) (Num.lit (-100) 0)) /\
    Num.eqb (Num.lit 100 0) (Num.lit (-100) 0) = false.
Proof.
  eexists. eexists. eexists. exists 1%nat.
  split; [vm_compute; reflexivity|].
  split; [vm_compute; reflexivity|].
  split; [vm_compute; reflexivity|].
  split; vm_compute; reflexivity.
Qed.

(** ** The array of normalized curves *)

Lemma getBezierVals_run (g : Globals) (prop : Property) (i j : nat) (s : State) :
  getBezierVals g prop i j s =
    (Return (normalized_group g prop i j),
     with_points s
       [outgoing_point g (calcTweenData g prop i j) prop i;
        incoming_point g (calcTweenData g prop i j) prop i]).
Proof.
  unfold getBezierVals. cbv zeta. unfold bind at 1.
  rewrite calcOutgoingControlPoint_run. unfold bind at 1.
  rewrite calcIncomingControlPoint_run.
  rewrite with_points_app. cbn [app].
  erewrite getNormalizedCurve_run; [reflexivity| |].
  - cbn. rewrite lookup_app_r by lia. rewrite Nat.sub_diag. reflexivity.
  - cbn. rewrite length_app. cbn [length]. rewrite lookup_app_r by lia.
    replace (length (heap s) + 1 - length (heap s))%nat with 1%nat by lia.
    reflexivity.
Qed.

Lemma buildBezierCurveArray_run (g : Globals) (property : Property) (count : nat) :
  forall (i : nat) (s : State),
  exists pts,
    buildBezierCurveArray g property count i s =
      (Return (map (fun k => normalized_group g property k (k + 1)) (seq i count)),
       with_points s pts).
Proof.
  induction count as [|count IH]; intros i s.
  - exists []. cbn. rewrite with_points_nil. reflexivity.
  - cbn [buildBezierCurveArray seq map]. unfold bind at 1.
    rewrite getBezierVals_run. unfold bind at 1.
    match goal with |- context [buildBezierCurveArray g property count (S i) ?s1] =>
      destruct (IH (S i) s1) as [pts ->]
    end.
    eexists. rewrite with_points_app. reflexivity.
Qed.

Lemma getBezierVals_with_interpolation g property outType inType i j :
  getBezierVals g (with_interpolation property outType inType) i j
  = getBezierVals g property i j.
Proof. reflexivity. Qed.

Lemma buildBezierCurveArray_with_interpolation g property outType inType count :
  forall i,
  buildBezierCurveArray g (with_interpolation property outType inType) count i
  = buildBezierCurveArray g property count i.
Proof.
  induction count as [|count IH]; intros i; cbn [buildBezierCurveArray];
    [reflexivity|].
  rewrite getBezierVals_with_interpolation, IH. reflexivity.
Qed.

(** C10. In normalized-array mode [buildBezierCurveArrayString] always
    returns: for a property with [n] keyframes it yields [n - 1] groups, the
    group of the pair [(k, k+1)] being the four normalized numbers of the
    pair's outgoing and incoming control points. No alert is raised, and
    the interpolation types play no part: any other interpolation types
    give the same string and the same state. *)
Theorem buildBezierCurveArrayString_ignores_ease_types
  (g : Globals) (property : Property) (s : State) :
  exists groups s',
    buildBezierCurveArrayString g property s
      = (Return ("[" ++ Conv.join "],[" (map (Conv.join ",") groups) ++ "]")%string,
         s') /\
    length groups = (numKeys property - 1)%nat /\
    (forall i : nat, (i < numKeys property - 1)%nat ->
       let k := (i + 1)%nat in
       let tweenData := calcTweenData g property k (k + 1) in
       let outgoingPoint := outgoing_point g tweenData property k in
       let incomingPoint := incoming_point g tweenData property k in
       groups !! i =
         Some [normalized_x g tweenData outgoingPoint;
               normalized_y g tweenData outgoingPoint;
               normalized_x g tweenData incomingPoint;
               normalized_y g tweenData incomingPoint]) /\
    alerts s' = alerts s /\
    (forall outType inType,
       buildBezierCurveArrayString g (with_interpolation property outType inType) s
       = buildBezierCurveArrayString g property s).
Proof.
  destruct (buildBezierCurveArray_run g property (numKeys property - 1) 1%nat s)
    as [pts Hrun].
  eexists. exists (with_points s pts).
  split.
  { unfold buildBezierCurveArrayString, bind. rewrite Hrun. reflexivity. }
  split; [rewrite length_map, length_seq; reflexivity|].
  split.
  { intros i Hi. cbv zeta. rewrite list_lookup_fmap.
    rewrite (lookup_seq_lt _ _ _ Hi). cbn [fmap option_fmap option_map].
    replace (1 + i)%nat with (i + 1)%nat by lia. reflexivity. }
  split; [reflexivity|].
  intros outType inType. unfold buildBezierCurveArrayString.
  cbn [numKeys with_interpolation].
  rewrite buildBezierCurveArray_with_interpolation. reflexivity.
Qed.

(** ** The whole path of a property *)

Lemma represents_grow (s s' : State) (path : Path) (cmds : list CommandModel) :
  keeps_points s s' -> represents s path cmds -> represents s' path cmds.
Proof.
  intros Hk Hrep. unfold represents in *.
  eapply Forall2_impl; [exact Hrep|].
  intros c pc [Hc Hp]. split; [exact Hc|].
  eapply Forall2_impl; [exact Hp|]. intros r p Hr. apply Hk. exact Hr.
Qed.

Lemma keeps_points_app (s s' : State) (pts : list Point) :
  heap s' = heap s ++ pts -> keeps_points s s'.
Proof. intros H r p Hp. rewrite H. apply lookup_app_l_Some. exact Hp. Qed.

Lemma fresh_Forall2 (s s' : State) (pts more : list Point) :
  heap s' = heap s ++ pts ++ more ->
  Forall2 (fun (r : ref) (p : Point) => heap s' !! r = Some p)
    (fresh s (length pts)) pts.
Proof.
  intros Hheap. apply Forall2_same_length_lookup.
  split; [unfold fresh; rewrite length_seq; reflexivity|].
  intros i r p Hr Hp. unfold fresh in Hr. apply lookup_seq in Hr as [-> Hi].
  rewrite Hheap, lookup_app_r by lia.
  replace (length (heap s) + i - length (heap s))%nat with i by lia.
  apply lookup_app_l_Some. exact Hp.
Qed.

Lemma represents_snoc (s : State) (cs : list PathCommand) (c : PathCommand)
  (cmds : list CommandModel) (pc : CommandModel) :
  represents s (mkPath cs) cmds ->
  command c = fst pc ->
  Forall2 (fun (r : ref) (p : Point) => heap s !! r = Some p) (points c) (snd pc) ->
  represents s (mkPath (cs ++ [c])) (cmds ++ [pc]).
Proof.
  intros Hr Hc Hp. unfold represents in *. cbn [commands] in *.
  apply Forall2_app; [exact Hr|]. constructor; [split; assumption|constructor].
Qed.

(** The loop of [getPath], in full: the commands added, the Points
    created, the alerts raised and the lines written. *)
Lemma getPath_loop_full (g : Globals) (property : Property) (count : nat) :
  forall (i : nat) (path : Path) (s : State) (cmds0 : list CommandModel),
  represents s path cmds0 ->
  exists cmds pts s',
    getPath_loop g property count i path s
      = (Return (mkPath (commands path ++ cmds)), s') /\
    heap s' = heap s ++ pts /\
    concat (map points cmds) = fresh s (length pts) /\
    Forall (fun c => points c <> []) cmds /\
    represents s' (mkPath (commands path ++ cmds))
      (cmds0 ++ map (command_model g property) (seq i count)) /\
    alerts s' = alerts s ++ getPath_alerts property i count /\
    (debug g = false -> console s' = console s).
Proof.
  induction count as [|count IH]; intros i path s cmds0 Hrep.
  - exists [], [], s. cbn. rewrite !app_nil_r. destruct path.
    repeat split; try constructor. exact Hrep.
  - cbn [getPath_loop]. unfold bind at 1. rewrite getCommand_run.
    unfold bind at 1.
    set (pts1 := getCommand_points g property i).
    set (c1 := mkPathCommand (getCommand_letter property i) (fresh s (length pts1))).
    set (s1 := mkState (heap s ++ pts1) (alerts s ++ getCommand_alerts property i)
                 (console s ++ getCommand_console g property i)).
    assert (Hlog : exists s2, log g None s1 = (Return tt, s2) /\
                     heap s2 = heap s1 /\ alerts s2 = alerts s1 /\
                     (debug g = false -> console s2 = console s1)).
    { unfold log. destruct (debug g).
      - eexists. split; [reflexivity|]. repeat split. discriminate.
      - exists s1. repeat split. }
    destruct Hlog as (s2 & Hlog & Hh2 & Ha2 & Hc2). rewrite Hlog.
    assert (Hrep2 : represents s2 (mkPath (commands path ++ [c1]))
                      (cmds0 ++ [command_model g property i])).
    { destruct path as [cs]. cbn [commands] in *.
      apply represents_snoc.
      - eapply represents_grow; [|exact Hrep].
        apply (keeps_points_app s s2 pts1). rewrite Hh2. reflexivity.
      - reflexivity.
      - cbn [points c1 snd command_model]. fold pts1.
        apply (fresh_Forall2 s s2 pts1 []). rewrite Hh2, app_nil_r. reflexivity. }
    destruct (IH (S i) (mkPath (commands path ++ [c1])) s2 _ Hrep2)
      as (cmds & pts & s' & Hrun & Hheap & Hrefs & Hne & Hrep' & Hal & Hco).
    cbn [commands] in Hrun, Hrep'.
    exists (c1 :: cmds), (pts1 ++ pts), s'.
    split; [rewrite Hrun, <- app_assoc; reflexivity|].
    split; [rewrite Hheap, Hh2; cbn [heap s1]; rewrite <- app_assoc; reflexivity|].
    split.
    { cbn [map concat points c1]. rewrite Hrefs.
      rewrite <- fresh_app. unfold fresh, with_points. rewrite Hh2. reflexivity. }
    split.
    { constructor; [|exact Hne]. cbn [points c1]. unfold fresh.
      pose proof (getCommand_points_nonempty g property i) as Hg. fold pts1 in Hg.
      destruct pts1; [congruence|discriminate]. }
    split.
    { rewrite <- !app_assoc in Hrep'. cbn [app] in Hrep'. exact Hrep'. }
    split.
    { rewrite Hal, Ha2. cbn [alerts s1]. unfold getPath_alerts.
      cbn [seq map concat]. rewrite <- app_assoc. reflexivity. }
    intros Hd. rewrite (Hco Hd), (Hc2 Hd). cbn [console s1].
    unfold getCommand_console. rewrite Hd. apply app_nil_r.
Qed.

Lemma getPath_build_full (g : Globals) (property : Property) (s : State) :
  exists path pts s1,
    getPath_build g property s = (Return path, s1) /\
    heap s1 = heap s ++ pts /\
    path_points path = fresh s (length pts) /\
    represents s1 path (built_commands g property) /\
    alerts s1 = alerts s ++ getPath_alerts property 1 (numKeys property - 1) /\
    (debug g = false -> console s1 = console s).
Proof.
  unfold getPath_build, bind. rewrite new_Path_run.
  set (s0 := with_points s [start_point g property]).
  set (path0 := mkPath [mkPathCommand "M" (fresh s 1)]).
  assert (Hrep0 : represents s0 path0 [("M", [start_point g property])]).
  { constructor; [|constructor]. split; [reflexivity|].
    cbn [points snd]. apply (fresh_Forall2 s s0 [start_point g property] []).
    reflexivity. }
  destruct (getPath_loop_full g property (numKeys property - 1) 1%nat path0 s0 _ Hrep0)
    as (cmds & pts & s1 & Hrun & Hheap & Hrefs & Hne & Hrep & Hal & Hco).
  exists (mkPath (commands path0 ++ cmds)), (start_point g property :: pts), s1.
  split; [exact Hrun|].
  split; [rewrite Hheap; subst s0; cbn [heap with_points];
          rewrite <- app_assoc; reflexivity|].
  split.
  { unfold path_points. cbn [commands path0 app map concat points].
    rewrite Hrefs. unfold fresh. subst s0. cbn [heap with_points length seq].
    rewrite length_app. cbn [length app]. rewrite Nat.add_1_r. reflexivity. }
  split; [exact Hrep|].
  split; [exact Hal|exact Hco].
Qed.

(** The last Point of the last command of the built path is the last
    keyframe. *)
Lemma built_commands_last (g : Globals) (property : Property) :
  (1 < numKeys property)%nat ->
  exists pcs letter ps,
    built_commands g property = pcs ++ [(letter, ps ++ [last_keyframe g property])].
Proof.
  intros Hn. unfold built_commands.
  destruct (numKeys property) as [|[|n]] eqn:Hk; try lia.
  replace (S (S n) - 1)%nat with (n + 1)%nat by lia.
  rewrite seq_app, map_app. cbn [seq map].
  exists (("M", [start_point g property]) ::
          map (command_model g property) (seq 1 n)),
         (getCommand_letter property (1 + n)).
  unfold command_model at 2, getCommand_points.
  assert (Ha : anchor_point (calcTweenData g property (1 + n) (1 + n + 1))
               = last_keyframe g property).
  { unfold anchor_point, last_keyframe, calcTweenData. cbn [endFrame endValue].
    rewrite Hk. replace (1 + n + 1)%nat with (S (S n)) by lia. reflexivity. }
  rewrite Ha.
  destruct (String.eqb _ "linear-linear").
  - exists []. reflexivity.
  - eexists [_; _]. reflexivity.
Qed.

Lemma represents_end_point (s : State) (path : Path)
  (pcs : list CommandModel) (letter : string) (ps : list Point) (p : Point) :
  represents s path (pcs ++ [(letter, ps ++ [p])]) ->
  exists r, Path_getEndPoint path s = (Return (Some r), s) /\
            heap s !! r = Some p /\ r ∈ path_points path.
Proof.
  intros Hrep. destruct path as [cs]. unfold represents in Hrep.
  cbn [commands] in Hrep.
  apply Forall2_app_inv_r in Hrep as (cs1 & cs2 & H1 & H2 & ->).
  apply Forall2_cons_inv_r in H2 as (c & cs3 & [Hc Hp] & H3 & ->).
  apply Forall2_nil_inv_r in H3 as ->.
  cbn [snd] in Hp.
  apply Forall2_app_inv_r in Hp as (rs1 & rs2 & Hp1 & Hp2 & Hpts).
  apply Forall2_cons_inv_r in Hp2 as (r & rs3 & Hr & Hp3 & ->).
  apply Forall2_nil_inv_r in Hp3 as ->.
  exists r. split; [eapply Path_getEndPoint_run; exact Hpts|].
  split; [exact Hr|].
  rewrite path_points_snoc, Hpts. apply elem_of_app. right.
  apply elem_of_app. right. constructor.
Qed.

Lemma represents_valid (s : State) (path : Path) (cmds : list CommandModel) :
  represents s path cmds ->
  Forall (fun c => Forall (fun r : ref => is_Some (heap s !! r)) (points c))
    (commands path).
Proof.
  unfold represents. intros Hrep.
  induction Hrep as [|c pc cs pcs [_ Hp] _ IH]; constructor; [|exact IH].
  clear IH. induction Hp as [|r p rs ps Hr _ IH]; constructor; [eauto|exact IH].
Qed.

Lemma represents_text (s : State) (path : Path) (cmds : list CommandModel) :
  represents s path cmds -> path_text s path = commands_text cmds.
Proof.
  unfold represents, path_text, commands_text. intros Hrep. f_equal.
  induction Hrep as [|c pc cs pcs [Hc Hp] _ IH]; [reflexivity|].
  cbn [map]. rewrite IH. f_equal.
  unfold command_text. rewrite Hc. f_equal. f_equal.
  clear -Hp. induction Hp as [|r p rs ps Hr _ IH]; [reflexivity|].
  cbn [map]. rewrite IH. unfold ref_text at 1. rewrite Hr. reflexivity.
Qed.

Lemma represents_inverted (s s' : State) (cs : list PathCommand)
  (cmds : list CommandModel) :
  represents s (mkPath cs) cmds ->
  (forall (r : ref) (p : Point),
      r ∈ path_points (mkPath cs) -> heap s !! r = Some p ->
      heap s' !! r = Some (inverted p)) ->
  represents s' (mkPath cs) (map inverted_command cmds).
Proof.
  unfold represents. cbn [commands]. intros Hrep.
  induction Hrep as [|c pc cs pcs [Hc Hp] _ IH]; intros Hinv; [constructor|].
  cbn [map]. constructor.
  - split; [exact Hc|]. cbn [inverted_command snd].
    assert (Hin : forall r : ref, r ∈ points c -> r ∈ path_points (mkPath (c :: cs))).
    { intros r Hr. unfold path_points. cbn. apply elem_of_app. left. exact Hr. }
    clear IH. induction Hp as [|r p rs ps Hr _ IH]; [constructor|].
    cbn [map]. constructor.
    + apply Hinv; [apply Hin; left|exact Hr].
    + apply IH. intros r' Hr'. apply Hin. right. exact Hr'.
  - apply IH. intros r p Hr Hp'. apply Hinv; [|exact Hp'].
    unfold path_points in *. cbn. apply elem_of_app. right. exact Hr.
Qed.

(** [getPath], in full, for a property with two keyframes or more. *)
Lemma getPath_full (g : Globals) (property : Property) (s : State) :
  (1 < numKeys property)%nat ->
  exists path s2,
    getPath g property s = (Return (Some path), s2) /\
    represents s2 path (getPath_commands g property) /\
    keeps_points s s2 /\
    alerts s2 = alerts s ++ getPath_alerts property 1 (numKeys property - 1) /\
    (debug g = false -> console s2 = console s) /\
    path_points path = fresh s (length (path_points path)) /\
    length (heap s2) = (length (heap s) + length (path_points path))%nat.
Proof.
  intros Hkeys.
  destruct (getPath_build_full g property s)
    as (path & pts & s1 & Hbuild & Hheap & Hrefs & Hrep & Hal & Hco).
  destruct (built_commands_last g property Hkeys) as (pcs & letter & ps & Hlast).
  pose proof Hrep as Hrep'. rewrite Hlast in Hrep'.
  destruct (represents_end_point s1 path _ _ _ _ Hrep') as (r & Hend & Hr & Hin).
  exists path.
  unfold getPath.
  replace (numKeys property <=? 1)%nat with false
    by (symmetry; apply Nat.leb_gt; exact Hkeys).
  unfold bind at 1. rewrite Hbuild.
  unfold bind at 1. rewrite Hend.
  unfold bind at 1. unfold get_Point at 1. rewrite Hr.
  unfold getPath_commands.
  destruct (Num.gtb (y (last_keyframe g property)) (keyValue_scalar property 1)).
  - destruct (forEach_invert_point_run (path_points path) s1)
      as (s2 & Hrun & Hal2 & Hco2 & Hlen & Hinv & Hother).
    { rewrite Hrefs. apply fresh_NoDup. }
    { intros q Hq. rewrite Hrefs in Hq. eapply fresh_valid; eassumption. }
    exists s2. unfold bind. rewrite Path_invertYAxis_flat, Hrun.
    split; [reflexivity|].
    split; [destruct path as [cs]; eapply represents_inverted; eassumption|].
    split.
    { intros q p Hq. rewrite Hother.
      - apply (keeps_points_app s s1 pts Hheap). exact Hq.
      - rewrite Hrefs. unfold fresh. intros Hin'. apply elem_of_seq in Hin'.
        apply lookup_lt_Some in Hq. lia. }
    split; [rewrite Hal2; exact Hal|].
    split; [intros Hd; rewrite Hco2; apply Hco; exact Hd|].
    rewrite Hlen, Hheap, length_app, Hrefs. unfold fresh.
    rewrite !length_seq. split; reflexivity.
  - exists s1. split; [reflexivity|].
    split; [exact Hrep|].
    split; [apply (keeps_points_app s s1 pts); exact Hheap|].
    split; [exact Hal|]. split; [exact Hco|].
    rewrite Hheap, length_app, Hrefs. unfold fresh.
    rewrite !length_seq. split; reflexivity.
Qed.


Lemma getPath_single (g : Globals) (property : Property) (s : State) :
  (numKeys property <= 1)%nat -> getPath g property s = (Return None, s).
Proof.
  intros Hn. unfold getPath.
  replace (numKeys property <=? 1)%nat with true
    by (symmetry; apply Nat.leb_le; exact Hn).
  reflexivity.
Qed.

Lemma represents_letters (s : State) (path : Path) (cmds : list CommandModel) :
  represents s path cmds -> map command (commands path) = map fst cmds.
Proof.
  unfold represents. intros Hrep.
  induction Hrep as [|c pc cs pcs [Hc _] _ IH]; [reflexivity|].
  cbn [map]. rewrite Hc, IH. reflexivity.
Qed.

Lemma getPath_commands_letters (g : Globals) (property : Property) :
  map fst (getPath_commands g property)
  = "M" :: map (getCommand_letter property) (seq 1 (numKeys property - 1)).
Proof.
  unfold getPath_commands.
  destruct (Num.gtb _ _); unfold built_commands; cbn [map fst];
    rewrite ?map_map; cbn [inverted_command fst]; f_equal;
    rewrite ?map_map; reflexivity.
Qed.

(** X1. For a property with two keyframes or more, [getPath] followed by
    [toString] returns, whatever the state the script is in, the string
    [getPath_string]: the M command at the first keyframe and one L or C
    command per pair of keyframes, every [y] multiplied by [-1] when the
    last keyframe's value is above the first one's. The path has as many
    commands as the property has keyframes, and serializing it changes
    nothing. *)
Theorem getPath_then_toString (g : Globals) (property : Property) (s : State) :
  (1 < numKeys property)%nat ->
  exists path s2,
    getPath g property s = (Return (Some path), s2) /\
    Path_toString path s2 = (Return (getPath_string g property), s2) /\
    map command (commands path)
      = "M" :: map (getCommand_letter property) (seq 1 (numKeys property - 1)) /\
    length (commands path) = numKeys property.
Proof.
  intros Hkeys.
  destruct (getPath_full g property s Hkeys)
    as (path & s2 & Hrun & Hrep & _).
  exists path, s2. split; [exact Hrun|].
  assert (Hl : map command (commands path)
               = "M" :: map (getCommand_letter property)
                          (seq 1 (numKeys property - 1))).
  { rewrite (represents_letters _ _ _ Hrep). apply getPath_commands_letters. }
  split.
  { rewrite (Path_toString_run s2 path (represents_valid _ _ _ Hrep)).
    rewrite (represents_text _ _ _ Hrep). reflexivity. }
  split; [exact Hl|].
  apply (f_equal (@length string)) in Hl.
  rewrite length_map in Hl. rewrite Hl. cbn [length].
  rewrite length_map, length_seq. lia.
Qed.

Lemma getPath_then_toString_witness :
  (1 < numKeys example_property)%nat /\
  exists path s2,
    getPath example_globals example_property initial_state
      = (Return (Some path), s2) /\
    Path_toString path s2
      = (Return "M0,0C7.9992,2.6664,16.0008,-97.3336,24,-100", s2).
Proof.
  split; [cbn; lia|].
  destruct (getPath_then_toString example_globals example_property initial_state)
    as (path & s2 & Hrun & Hstr & _); [cbn; lia|].
  exists path, s2. split; [exact Hrun|].
  rewrite Hstr. vm_compute. reflexivity.
Defined.


(** ** Ease types and warnings *)

Lemma unsupported_iff_hold_pair (property : Property) (k : nat) :
  String.eqb (calcEaseType property k (k + 1)) "unsupported" = hold_pair property k.
Proof.
  unfold calcEaseType, hold_pair.
  destruct (keyOutInterpolationType property k),
           (keyInInterpolationType property (k + 1)); reflexivity.
Qed.

Lemma getPath_alerts_hold_pairs (property : Property) (count : nat) :
  forall i : nat,
  getPath_alerts property i count
  = repeat unsupported_warning
      (length (List.filter (hold_pair property) (seq i count))).
Proof.
  unfold getPath_alerts.
  induction count as [|count IH]; intros i; [reflexivity|].
  cbn [seq map concat List.filter]. rewrite IH.
  unfold getCommand_alerts. rewrite unsupported_iff_hold_pair.
  destruct (hold_pair property i); reflexivity.
Qed.

(** X2. [calcEaseType] names the pair of interpolation types: it answers
    "linear-linear" exactly when the pair leaves and reaches its keyframes
    linearly, "unsupported" exactly when one of the two types is HOLD, and
    otherwise one of the three names of a pair with a BEZIER type. *)
Theorem calcEaseType_classification (property : Property) (startIndex endIndex : nat) :
  let startInterpolation := keyOutInterpolationType property startIndex in
  let endInterpolation := keyInInterpolationType property endIndex in
  let easeType := calcEaseType property startIndex endIndex in
  (easeType = "linear-linear"
     <-> startInterpolation = LINEAR /\ endInterpolation = LINEAR) /\
  (easeType = "unsupported"
     <-> startInterpolation = HOLD \/ endInterpolation = HOLD) /\
  (easeType = "linear-bezier"
     <-> startInterpolation = LINEAR /\ endInterpolation = BEZIER) /\
  (easeType = "bezier-linear"
     <-> startInterpolation = BEZIER /\ endInterpolation = LINEAR) /\
  (easeType = "bezier-bezier"
     <-> startInterpolation = BEZIER /\ endInterpolation = BEZIER).
Proof.
  cbv zeta. unfold calcEaseType.
  destruct (keyOutInterpolationType property startIndex),
           (keyInInterpolationType property endIndex);
    cbn; repeat split; intros; try discriminate; try reflexivity;
    try tauto;
    repeat match goal with
           | H : _ /\ _ |- _ => destruct H
           | H : _ \/ _ |- _ => destruct H
           end; try discriminate; auto.
Qed.

(** X3. [getPath] raises one warning for every pair of keyframes that has a
    HOLD interpolation, in the order of the pairs, and nothing else; when
    [debug] is off it writes nothing to the console. This holds for every
    property: one with fewer than two keyframes has no pair. *)
Theorem getPath_warns_once_per_hold_pair (g : Globals) (property : Property)
  (s : State) :
  let s2 := snd (getPath g property s) in
  alerts s2 = alerts s ++ repeat unsupported_warning (hold_pairs property) /\
  (debug g = false -> console s2 = console s).
Proof.
  cbv zeta. unfold hold_pairs.
  destruct (Nat.le_gt_cases (numKeys property) 1) as [Hle|Hgt].
  - rewrite (getPath_single g property s Hle). cbn [snd].
    replace (numKeys property - 1)%nat with 0%nat by lia.
    cbn. rewrite app_nil_r. split; [reflexivity|intros; reflexivity].
  - destruct (getPath_full g property s Hgt)
      as (path & s2 & Hrun & _ & _ & Hal & Hco & _).
    rewrite Hrun. cbn [snd]. rewrite Hal, getPath_alerts_hold_pairs.
    split; [reflexivity|exact Hco].
Qed.

(** X4. [getPath] changes no Point that existed before the call: the Points
    it inverts are those it has created itself, so a path built earlier (for
    another property) is left as it was. *)
Theorem getPath_keeps_earlier_points (g : Globals) (property : Property) :
  preserves keeps_points (getPath g property).
Proof.
  intros s.
  destruct (Nat.le_gt_cases (numKeys property) 1) as [Hle|Hgt].
  - rewrite (getPath_single g property s Hle). intros r p Hp. exact Hp.
  - destruct (getPath_full g property s Hgt)
      as (path & s2 & Hrun & _ & Hkeep & _).
    rewrite Hrun. exact Hkeep.
Qed.


(** ** Inverting the Y axis *)

(** On a proper number the product with [-1] is exact: the sign flips. *)
Lemma mul_minus_one (v : number) :
  is_binary64 v = true -> Num.mul v (Num.of_Z (-1)) = Num.neg v.
Proof.
  intros Hv.
  replace (Num.of_Z (-1)) with (S754_finite true (2 ^ 52) (-52))
    by (vm_compute; reflexivity).
  destruct v as [s|s| |s m e]; try (destruct s; reflexivity); [reflexivity|].
  apply valid_finite in Hv as [Hc He].
  unfold Num.mul, Num.neg. cbn [SFmul SFopp].
  change Num.prec with 53. change Num.emax with 1024.
  assert (Hm : Zpos (m * 2 ^ 52) = Zpos m * 2 ^ 52) by reflexivity.
  assert (Hd : Zdigits2 (Zpos (m * 2 ^ 52)) = Zpos (digits2_pos m) + 52).
  { cbn [Zdigits2]. apply digits2_pos_unique. rewrite Hm.
    pose proof (digits2_pos_bounds m) as [Dlo Dhi].
    replace (Zpos (digits2_pos m) + 52 - 1) with (Zpos (digits2_pos m) - 1 + 52) by lia.
    rewrite !Z.pow_add_r by lia. nia. }
  unfold binary_round_aux, shr_fexp. rewrite Hd.
  replace (Zpos (digits2_pos m) + 52 + (e + -52)) with (Zpos (digits2_pos m) + e) by lia.
  rewrite Hc. replace (e - (e + -52)) with 52 by lia.
  cbn [shr shr_record_of_loc]. rewrite iter_pos_nat.
  change (Pos.to_nat 52) with (S 51).
  rewrite (round_of_shifts (Zpos (m * 2 ^ 52)) 51) by lia.
  rewrite Hm. change (Z.of_nat 52) with 52. rewrite rne_exact by lia.
  cbn [Zdigits2]. replace (e + -52 + 52) with e by lia.
  rewrite Hc, Z.sub_diag. cbn [shr shr_m].
  replace (e <=? 1024 - 53) with true by (symmetry; apply Z.leb_le; lia).
  destruct s; reflexivity.
Qed.

Lemma neg_is_binary64 (v : number) : is_binary64 (Num.neg v) = is_binary64 v.
Proof. destruct v; reflexivity. Qed.

Lemma neg_involutive (v : number) : Num.neg (Num.neg v) = v.
Proof. destruct v as [s|s| |s m e]; cbn; rewrite ?negb_involutive; reflexivity. Qed.

Lemma inverted_neg (p : Point) :
  is_binary64 (y p) = true -> inverted p = mkPoint (x p) (Num.neg (y p)).
Proof. intros Hv. unfold inverted. rewrite (mul_minus_one _ Hv). reflexivity. Qed.

Lemma inverted_involutive (p : Point) :
  is_binary64 (y p) = true -> inverted (inverted p) = p.
Proof.
  intros Hv. rewrite (inverted_neg p Hv). rewrite inverted_neg.
  - cbn [x y]. rewrite neg_involutive. destruct p; reflexivity.
  - cbn [y]. rewrite neg_is_binary64. exact Hv.
Qed.

Lemma state_ext (s s' : State) :
  heap s = heap s' -> alerts s = alerts s' -> console s = console s' -> s = s'.
Proof. destruct s, s'. cbn. intros -> -> ->. reflexivity. Qed.

(** X5. [invertYAxis] is its own inverse: on a path whose Points are
    distinct objects with proper numbers as [y], inverting twice restores
    every Point, and the whole state, exactly as it was. *)
Theorem Path_invertYAxis_twice (path : Path) (s : State) :
  NoDup (path_points path) ->
  (forall r : ref, r ∈ path_points path ->
     exists p, heap s !! r = Some p /\ is_binary64 (y p) = true) ->
  exists s1,
    Path_invertYAxis path s = (Return tt, s1) /\
    Path_invertYAxis path s1 = (Return tt, s).
Proof.
  intros Hnd Hval. rewrite Path_invertYAxis_flat.
  destruct (forEach_invert_point_run (path_points path) s Hnd)
    as (s1 & Hrun1 & Hal1 & Hco1 & Hlen1 & Hin1 & Hout1).
  { intros r Hr. destruct (Hval r Hr) as (p & Hp & _). eauto. }
  exists s1. split; [exact Hrun1|]. rewrite Path_invertYAxis_flat.
  destruct (forEach_invert_point_run (path_points path) s1 Hnd)
    as (s2 & Hrun2 & Hal2 & Hco2 & Hlen2 & Hin2 & Hout2).
  { intros r Hr. destruct (Hval r Hr) as (p & Hp & _).
    rewrite (Hin1 r p Hr Hp). eauto. }
  rewrite Hrun2. f_equal. apply state_ext; [|congruence|congruence].
  apply list_eq. intros r.
  destruct (decide (r ∈ path_points path)) as [Hr|Hr].
  - destruct (Hval r Hr) as (p & Hp & Hv).
    transitivity (Some (inverted (inverted p)));
      [exact (Hin2 r (inverted p) Hr (Hin1 r p Hr Hp))|].
    rewrite (inverted_involutive p Hv). symmetry. exact Hp.
  - transitivity (heap s1 !! r); [exact (Hout2 r Hr)|exact (Hout1 r Hr)].
Qed.

Lemma Path_invertYAxis_twice_witness :
  exists path s0 s1,
    getPath_build example_globals example_property initial_state
      = (Return path, s0) /\
    Path_invertYAxis path s0 = (Return tt, s1) /\
    Path_invertYAxis path s1 = (Return tt, s0).
Proof.
  eexists. eexists.
  destruct (Path_invertYAxis_twice
              (mkPath [mkPathCommand "M" [0%nat];
                       mkPathCommand "C" [1%nat; 2%nat; 3%nat]])
              (snd (getPath_build example_globals example_property initial_state)))
    as (s1 & H1 & H2).
  - exact (NoDup_seq 0 4).
  - intros r Hr. vm_compute in Hr.
    repeat (apply elem_of_cons in Hr as [->|Hr]);
      [| | | |inversion Hr]; eexists; split; reflexivity.
  - exists s1. split; [vm_compute; reflexivity|]. split; [exact H1|exact H2].
Defined.


(** ** The direction of the returned path *)

Lemma compare_opp (a b : number) :
  SFcompare (SFopp b) (SFopp a) = SFcompare a b.
Proof.
  destruct a as [sa|sa| |sa ma ea], b as [sb|sb| |sb mb eb];
    try reflexivity; try (destruct sa; reflexivity);
    try (destruct sb; reflexivity); try (destruct sa, sb; reflexivity).
  destruct sa, sb; cbn; try reflexivity.
  - rewrite (Z.compare_antisym ea eb).
    destruct (ea ?= eb)%Z; cbn; try reflexivity.
    rewrite Pos.compare_cont_antisym. reflexivity.
  - rewrite (Z.compare_antisym ea eb).
    destruct (ea ?= eb)%Z; cbn; try reflexivity.
    rewrite Pos.compare_cont_antisym. reflexivity.
Qed.

Lemma compare_antisym (a b : number) :
  SFcompare b a = Some Lt -> SFcompare a b = Some Gt.
Proof.
  destruct a as [sa|sa| |sa ma ea], b as [sb|sb| |sb mb eb];
    try discriminate; try (destruct sa; discriminate || reflexivity);
    try (destruct sb; discriminate || reflexivity);
    try (destruct sa, sb; discriminate || reflexivity).
  destruct sa, sb; cbn; try discriminate; try reflexivity;
    rewrite (Z.compare_antisym ea eb);
    destruct (ea ?= eb)%Z; cbn; try discriminate; try reflexivity;
    pose proof (Pos.compare_cont_antisym ma mb Eq) as E;
    change (CompOpp Eq) with Eq in E; rewrite <- E;
    destruct (Pos.compare_cont Eq ma mb); cbn; try discriminate; reflexivity.
Qed.

(** Negation reverses a strict comparison. *)
Lemma gtb_neg (a b : number) :
  Num.gtb a b = true -> Num.gtb (Num.neg a) (Num.neg b) = false.
Proof.
  unfold Num.gtb, Num.neg, SFltb. rewrite compare_opp.
  destruct (SFcompare b a) as [[]|] eqn:Hc; try discriminate.
  intros _. rewrite (compare_antisym a b Hc). reflexivity.
Qed.

Lemma getPath_commands_ends (g : Globals) (property : Property) :
  (1 < numKeys property)%nat ->
  exists rest pcs letter ps,
    getPath_commands g property
      = ("M", [returned_point g property (start_point g property)]) :: rest /\
    getPath_commands g property
      = pcs ++ [(letter, ps ++ [returned_point g property (last_keyframe g property)])].
Proof.
  intros Hkeys.
  destruct (built_commands_last g property Hkeys) as (pcs & letter & ps & Hlast).
  unfold getPath_commands, returned_point.
  destruct (Num.gtb _ _).
  - exists (map inverted_command (map (command_model g property)
                                    (seq 1 (numKeys property - 1)))),
           (map inverted_command pcs), letter, (map inverted ps).
    split; [reflexivity|].
    rewrite Hlast, map_app.
    change (map inverted_command [(letter, ps ++ [last_keyframe g property])])
      with [(letter, map inverted (ps ++ [last_keyframe g property]))].
    rewrite map_app. reflexivity.
  - exists (map (command_model g property) (seq 1 (numKeys property - 1))),
           pcs, letter, ps.
    split; [reflexivity|exact Hlast].
Qed.

Lemma represents_first_point (s : State) (path : Path) (letter : string)
  (p : Point) (ps : list Point) (rest : list CommandModel) :
  represents s path ((letter, p :: ps) :: rest) ->
  exists r : ref, head (path_points path) = Some r /\ heap s !! r = Some p.
Proof.
  unfold represents. intros Hrep.
  apply Forall2_cons_inv_r in Hrep as (c & cs & [_ Hp] & _ & Hcs).
  cbn [snd] in Hp. apply Forall2_cons_inv_r in Hp as (r & rs & Hr & _ & Hpts).
  exists r. split; [|exact Hr].
  unfold path_points. rewrite Hcs. cbn [map concat]. rewrite Hpts. reflexivity.
Qed.

(** X6. The path that [getPath] returns never ends above its start: its
    first Point is the first keyframe and its end point the last keyframe,
    both inverted when the path is, and the end point's [y] is not greater
    than the first Point's [y] (the key values being proper numbers). *)
Theorem getPath_never_ends_above_its_start (g : Globals) (property : Property)
  (s : State) :
  (1 < numKeys property)%nat ->
  is_binary64 (keyValue_scalar property 1) = true ->
  is_binary64 (keyValue_scalar property (numKeys property)) = true ->
  exists path s2 (r0 rend : ref),
    getPath g property s = (Return (Some path), s2) /\
    head (path_points path) = Some r0 /\
    heap s2 !! r0 = Some (returned_point g property (start_point g property)) /\
    Path_getEndPoint path s2 = (Return (Some rend), s2) /\
    heap s2 !! rend = Some (returned_point g property (last_keyframe g property)) /\
    Num.gtb (y (returned_point g property (last_keyframe g property)))
            (y (returned_point g property (start_point g property))) = false.
Proof.
  intros Hkeys Hv1 Hvn.
  destruct (getPath_full g property s Hkeys) as (path & s2 & Hrun & Hrep & _).
  destruct (getPath_commands_ends g property Hkeys)
    as (rest & pcs & letter & ps & Hfirst & Hlast).
  pose proof Hrep as Hrep1. rewrite Hfirst in Hrep1.
  destruct (represents_first_point _ _ _ _ _ _ Hrep1) as (r0 & Hhead & Hr0).
  pose proof Hrep as Hrep2. rewrite Hlast in Hrep2.
  destruct (represents_end_point _ _ _ _ _ _ Hrep2) as (rend & Hend & Hrend & _).
  exists path, s2, r0, rend.
  repeat (split; [assumption|]).
  unfold returned_point.
  destruct (Num.gtb (y (last_keyframe g property)) (keyValue_scalar property 1))
    eqn:Hgt.
  - rewrite !inverted_neg by assumption. cbn [y].
    apply gtb_neg. exact Hgt.
  - exact Hgt.
Qed.

Lemma getPath_never_ends_above_its_start_witness :
  (1 < numKeys rising_property)%nat /\
  is_binary64 (keyValue_scalar rising_property 1) = true /\
  is_binary64 (keyValue_scalar rising_property (numKeys rising_property)) = true /\
  exists path s2,
    getPath example_globals rising_property initial_state
      = (Return (Some path), s2) /\
    y (returned_point example_globals rising_property
         (last_keyframe example_globals rising_property)) = Num.of_Z (-100).
Proof.
  split; [cbn; lia|]. split; [reflexivity|]. split; [reflexivity|].
  destruct (getPath_never_ends_above_its_start example_globals rising_property
              initial_state)
    as (path & s2 & r0 & rend & Hrun & _); [cbn; lia|reflexivity|reflexivity|].
  exists path, s2. split; [exact Hrun|]. vm_compute. reflexivity.
Defined.


(** ** The main logic *)

Lemma run_eta (w : Run) : mkRun (script w) (systemCalls w) = w.
Proof. destruct w; reflexivity. Qed.

Lemma turn_nothing (w : Run) (quiet : bool) :
  turn w w [] [] quiet.
Proof.
  split; rewrite ?app_nil_r; try reflexivity.
  apply keeps_points_refl.
Qed.

Lemma turn_then (w1 w2 w3 : Run)
  (calls1 calls2 alerted1 alerted2 : list string) (quiet : bool) :
  turn w1 w2 calls1 alerted1 quiet ->
  turn w2 w3 calls2 alerted2 quiet ->
  turn w1 w3 (calls1 ++ calls2) (alerted1 ++ alerted2) quiet.
Proof.
  intros [Hc1 Ha1 Hp1 Hq1] [Hc2 Ha2 Hp2 Hq2]. split.
  - rewrite Hc2, Hc1, app_assoc. reflexivity.
  - rewrite Ha2, Ha1, app_assoc. reflexivity.
  - eapply keeps_points_trans; eassumption.
  - intros Hq. rewrite (Hq2 Hq). apply Hq1, Hq.
Qed.

Lemma main_body_without_curve (g : Globals) (host : Host)
  (first currentProperty : Property) (w : Run) :
  outputAsBezierCurveArray g = false ->
  (numKeys currentProperty <= 1)%nat ->
  main_body g host first currentProperty w = (Return tt, w).
Proof.
  intros Hmode Hkeys. unfold main_body. rewrite Hmode.
  unfold bindH, lift. rewrite (getPath_single g _ _ Hkeys).
  rewrite run_eta. reflexivity.
Qed.

Lemma main_body_with_curve (g : Globals) (host : Host)
  (first currentProperty : Property) (w : Run) :
  outputAsBezierCurveArray g = false ->
  (1 < numKeys currentProperty)%nat ->
  exists w',
    main_body g host first currentProperty w = (Return tt, w') /\
    turn w w' [cmdString host (getPath_string g currentProperty)]
      (path_mode_alerts g currentProperty) (negb (debug g)).
Proof.
  intros Hmode Hkeys.
  destruct (getPath_full g currentProperty (script w) Hkeys)
    as (path & s2 & Hrun & Hrep & Hkeep & Hal & Hco & _).
  unfold main_body. rewrite Hmode.
  unfold bindH at 1. unfold lift at 1. rewrite Hrun.
  unfold bindH at 1. unfold lift at 1. cbn [script systemCalls].
  rewrite (Path_toString_run s2 path (represents_valid _ _ _ Hrep)).
  rewrite (represents_text _ _ _ Hrep).
  fold (getPath_string g currentProperty).
  unfold bindH, lift, log, copyTextToClipboard, callSystem, alert, writeln, ret.
  destruct (debug g) eqn:Hd; cbn [script systemCalls heap alerts console];
    eexists; (split; [reflexivity|]);
    (split; cbn [script systemCalls heap alerts console negb];
     [reflexivity
     |rewrite Hal; unfold path_mode_alerts; rewrite app_assoc; reflexivity
     |intros r p Hp; apply Hkeep, Hp
     |]).
  - discriminate.
  - intros _. apply Hco. reflexivity.
Qed.

Lemma main_loop_paths (g : Globals) (host : Host) (first : Property)
  (selectedProperties : list Property) :
  outputAsBezierCurveArray g = false ->
  forall w : Run,
  exists w',
    forEachH (main_body g host first) selectedProperties w = (Return tt, w') /\
    turn w w'
      (map (fun p => cmdString host (getPath_string g p))
         (List.filter has_curve selectedProperties))
      (concat (map (path_mode_alerts g) (List.filter has_curve selectedProperties)))
      (negb (debug g)).
Proof.
  intros Hmode.
  induction selectedProperties as [|p ps IH]; intros w.
  - exists w. split; [reflexivity|apply turn_nothing].
  - cbn [forEachH List.filter]. unfold bindH at 1.
    destruct (has_curve p) eqn:Hk; unfold has_curve in Hk;
      [apply Nat.ltb_lt in Hk|apply Nat.ltb_ge in Hk].
    + destruct (main_body_with_curve g host first p w Hmode Hk) as (w1 & Hrun & Ht1).
      rewrite Hrun. destruct (IH w1) as (w2 & Hloop & Ht2).
      exists w2. split; [exact Hloop|].
      cbn [map concat].
      apply (turn_then w w1 w2 [_] _ _ _ _ Ht1 Ht2).
    + rewrite (main_body_without_curve g host first p w Hmode Hk).
      apply IH.
Qed.

Lemma buildBezierCurveArrayString_run (g : Globals) (property : Property)
  (s : State) :
  exists pts,
    buildBezierCurveArrayString g property s
    = (Return (bezier_array_string g property), with_points s pts).
Proof.
  destruct (buildBezierCurveArray_run g property (numKeys property - 1) 1%nat s)
    as [pts Hrun].
  exists pts. unfold buildBezierCurveArrayString, bind. rewrite Hrun. reflexivity.
Qed.

Lemma main_body_array (g : Globals) (host : Host)
  (first currentProperty : Property) (w : Run) :
  outputAsBezierCurveArray g = true ->
  exists w',
    main_body g host first currentProperty w = (Return tt, w') /\
    turn w w' [cmdString host (bezier_array_string g first)]
      [copied_message_array (bezier_array_string g first)] (negb (debug g)).
Proof.
  intros Hmode.
  destruct (buildBezierCurveArrayString_run g first (script w)) as [pts Hrun].
  unfold main_body. rewrite Hmode.
  unfold bindH at 1. unfold lift at 1. rewrite Hrun.
  unfold bindH, lift, log, copyTextToClipboard, callSystem, alert, writeln, ret.
  destruct (debug g) eqn:Hd; cbn [script systemCalls heap alerts console with_points];
    eexists; (split; [reflexivity|]);
    (split; cbn [script systemCalls heap alerts console negb with_points];
     [reflexivity
     |reflexivity
     |intros r p Hp; apply lookup_app_l_Some, Hp
     |]).
  - discriminate.
  - reflexivity.
Qed.

Lemma main_loop_array (g : Globals) (host : Host) (first : Property)
  (selectedProperties : list Property) :
  outputAsBezierCurveArray g = true ->
  forall w : Run,
  exists w',
    forEachH (main_body g host first) selectedProperties w = (Return tt, w') /\
    turn w w'
      (repeat (cmdString host (bezier_array_string g first))
         (length selectedProperties))
      (repeat (copied_message_array (bezier_array_string g first))
         (length selectedProperties))
      (negb (debug g)).
Proof.
  intros Hmode.
  induction selectedProperties as [|p ps IH]; intros w.
  - exists w. split; [reflexivity|apply turn_nothing].
  - cbn [forEachH length repeat]. unfold bindH at 1.
    destruct (main_body_array g host first p w Hmode) as (w1 & Hrun & Ht1).
    rewrite Hrun. destruct (IH w1) as (w2 & Hloop & Ht2).
    exists w2. split; [exact Hloop|].
    apply (turn_then w w1 w2 [_] _ [_] _ _ Ht1 Ht2).
Qed.


(** X7. In path mode the main logic exports, in the order of the selection,
    every selected property that has two keyframes or more: for each one it
    passes one command to the system, the clipboard command of the
    property's path string, and shows the warnings of [getPath] followed by
    the message that quotes the string. A property with fewer than two
    keyframes is passed over without a message. The run ends normally, no
    existing Point is changed, and nothing is written to the console when
    [debug] is off. *)
Theorem main_path_mode (debug clampInfiniteValues : bool) (host : Host)
  (frameRate : number) (selectedProperties : list Property) (w : Run) :
  activeItem host = Some (CompItem frameRate selectedProperties) ->
  selectedProperties <> [] ->
  let g := mkGlobals debug clampInfiniteValues false frameRate in
  let curves := List.filter has_curve selectedProperties in
  exists w',
    main debug clampInfiniteValues false host w = (Return tt, w') /\
    systemCalls w'
      = systemCalls w ++ map (fun p => cmdString host (getPath_string g p)) curves /\
    alerts (script w')
      = alerts (script w) ++ concat (map (path_mode_alerts g) curves) /\
    keeps_points (script w) (script w') /\
    (debug = false -> console (script w') = console (script w)).
Proof.
  intros Hitem Hsel g curves. unfold main. rewrite Hitem.
  destruct selectedProperties as [|first rest]; [contradiction|].
  destruct (main_loop_paths g host first (first :: rest) eq_refl w)
    as (w' & Hrun & [Hc Ha Hp Hq]).
  exists w'. split; [exact Hrun|].
  split; [exact Hc|]. split; [exact Ha|]. split; [exact Hp|].
  intros ->. apply Hq. reflexivity.
Qed.

Lemma main_path_mode_witness :
  activeItem example_host
    = Some (CompItem (Num.lit 30 0)
              [single_key_property; example_property; rising_property]) /\
  [single_key_property; example_property; rising_property] <> [] /\
  exists w',
    main false true false example_host initial_run = (Return tt, w') /\
    systemCalls w'
      = [cmdString example_host "M0,0C7.9992,2.6664,16.0008,-97.3336,24,-100";
         cmdString example_host "M0,0L24,-100"].
Proof.
  split; [reflexivity|]. split; [discriminate|].
  destruct (main_path_mode false true example_host (Num.lit 30 0)
              [single_key_property; example_property; rising_property]
              initial_run eq_refl)
    as (w' & Hrun & Hcalls & _); [discriminate|].
  exists w'. split; [exact Hrun|].
  rewrite Hcalls. vm_compute. reflexivity.
Defined.

(** X8. In array mode every turn of the main loop exports the FIRST
    selected property: with [n] properties selected the system receives [n]
    times the clipboard command of the first property's array, and [n]
    messages quote that same array; the other properties are never read. *)
Theorem main_array_mode (debug clampInfiniteValues : bool) (host : Host)
  (frameRate : number) (first : Property) (others : list Property) (w : Run) :
  activeItem host = Some (CompItem frameRate (first :: others)) ->
  let g := mkGlobals debug clampInfiniteValues true frameRate in
  let n := S (length others) in
  exists w',
    main debug clampInfiniteValues true host w = (Return tt, w') /\
    systemCalls w'
      = systemCalls w ++ repeat (cmdString host (bezier_array_string g first)) n /\
    alerts (script w')
      = alerts (script w)
        ++ repeat (copied_message_array (bezier_array_string g first)) n /\
    keeps_points (script w) (script w') /\
    (debug = false -> console (script w') = console (script w)).
Proof.
  intros Hitem g n. unfold main. rewrite Hitem.
  destruct (main_loop_array g host first (first :: others) eq_refl w)
    as (w' & Hrun & [Hc Ha Hp Hq]).
  exists w'. split; [exact Hrun|].
  split; [exact Hc|]. split; [exact Ha|]. split; [exact Hp|].
  intros ->. apply Hq. reflexivity.
Qed.

Lemma main_array_mode_witness :
  activeItem example_host
    = Some (CompItem (Num.lit 30 0)
              [single_key_property; example_property; rising_property]) /\
  exists w',
    main false true true example_host initial_run = (Return tt, w') /\
    systemCalls w' = repeat (cmdString example_host "[]") 3.
Proof.
  split; [reflexivity|].
  destruct (main_array_mode false true example_host (Num.lit 30 0)
              single_key_property [example_property; rising_property]
              initial_run eq_refl)
    as (w' & Hrun & Hcalls & _).
  exists w'. split; [exact Hrun|].
  rewrite Hcalls. vm_compute. reflexivity.
Defined.

(** X9. Without a composition (no active item, or an item of another kind)
    or without a selected property, the main logic shows the one message of
    its early return and does nothing else: no command is passed to the
    system, no Point is created and the console is left alone, whatever the
    three settings. *)
Theorem main_without_selection (debug clampInfiniteValues outputAsBezierCurveArray : bool)
  (host : Host) (w : Run) :
  match activeItem host with
  | Some (CompItem _ (_ :: _)) => True
  | item =>
      main debug clampInfiniteValues outputAsBezierCurveArray host w
      = (Return tt,
         mkRun (mkState (heap (script w))
                  (alerts (script w) ++
                   [match item with
                    | Some (CompItem _ _) => no_property_message
                    | _ => no_comp_message
                    end])
                  (console (script w)))
           (systemCalls w))
  end.
Proof.
  unfold main. destruct (activeItem host) as [[frameRate [|first rest]|]|];
    [reflexivity|exact I|reflexivity|reflexivity].
Qed.

(** X10. The main logic never throws: whatever the host, the settings and
    the state of the run, it ends normally. The errors of the classes (the
    Error of [PathCommand] for an odd number of coordinates, the TypeError of
    [getEndPoint] on an empty path) cannot be reached from it. It only adds
    system calls and messages, it changes no existing Point, and it writes
    nothing to the console when [debug] is off. *)
Theorem main_never_throws (debug clampInfiniteValues outputAsBezierCurveArray : bool)
  (host : Host) (w : Run) :
  exists w' calls alerted,
    main debug clampInfiniteValues outputAsBezierCurveArray host w
      = (Return tt, w') /\
    systemCalls w' = systemCalls w ++ calls /\
    alerts (script w') = alerts (script w) ++ alerted /\
    (length calls <= length alerted)%nat /\
    keeps_points (script w) (script w') /\
    (debug = false -> console (script w') = console (script w)).
Proof.
  unfold main.
  destruct (activeItem host) as [[frameRate [|first rest]|]|].
  - eexists. exists [], [no_property_message]. split; [reflexivity|].
    split; [cbn; rewrite app_nil_r; reflexivity|]. split; [reflexivity|].
    split; [cbn; lia|].
    split; [intros r p Hp; exact Hp|intros _; reflexivity].
  - set (g := mkGlobals debug clampInfiniteValues outputAsBezierCurveArray frameRate).
    destruct outputAsBezierCurveArray.
    + destruct (main_loop_array g host first (first :: rest) eq_refl w)
        as (w' & Hrun & [Hc Ha Hp Hq]).
      exists w'. eexists. eexists. split; [exact Hrun|].
      split; [exact Hc|]. split; [exact Ha|].
      split; [rewrite !repeat_length; lia|]. split; [exact Hp|].
      intros ->. apply Hq. reflexivity.
    + destruct (main_loop_paths g host first (first :: rest) eq_refl w)
        as (w' & Hrun & [Hc Ha Hp Hq]).
      exists w'. eexists. eexists. split; [exact Hrun|].
      split; [exact Hc|]. split; [exact Ha|].
      split.
      { rewrite length_map. generalize (List.filter has_curve (first :: rest)).
        intros l. induction l as [|p l IH]; [reflexivity|].
        cbn [map concat length]. rewrite length_app.
        unfold path_mode_alerts at 1. rewrite length_app. cbn [length]. lia. }
      split; [exact Hp|].
      intros ->. apply Hq. reflexivity.
  - eexists. exists [], [no_comp_message]. split; [reflexivity|].
    split; [cbn; rewrite app_nil_r; reflexivity|]. split; [reflexivity|].
    split; [cbn; lia|].
    split; [intros r p Hp; exact Hp|intros _; reflexivity].
  - eexists. exists [], [no_comp_message]. split; [reflexivity|].
    split; [cbn; rewrite app_nil_r; reflexivity|]. split; [reflexivity|].
    split; [cbn; lia|].
    split; [intros r p Hp; exact Hp|intros _; reflexivity].
Qed.


(** ** The characters of the exported strings *)

Section Characters.

Variable P : ascii -> bool.

(** [P] accepts the characters of a finite number, of [NaN] and of
    [Infinity]. *)
Hypothesis P_number : made_of P "0123456789.-+e" = true.
Hypothesis P_NaN : made_of P "NaN" = true.
Hypothesis P_Infinity : made_of P "Infinity" = true.

Lemma made_of_forallb (str : string) :
  made_of P str = forallb P (list_ascii_of_string str).
Proof. induction str as [|c str IH]; cbn; [reflexivity|rewrite IH; reflexivity]. Qed.

Lemma made_of_of_list (l : list ascii) :
  made_of P (string_of_list_ascii l) = forallb P l.
Proof. induction l as [|c l IH]; cbn; [reflexivity|rewrite IH; reflexivity]. Qed.

Lemma P_number_char (c : ascii) :
  In c (list_ascii_of_string "0123456789.-+e") -> P c = true.
Proof.
  intros Hc. pose proof P_number as H. rewrite made_of_forallb in H.
  rewrite forallb_forall in H. apply H, Hc.
Qed.

Lemma made_of_app (a b : string) :
  made_of P (a ++ b)%string = made_of P a && made_of P b.
Proof.
  induction a as [|c a IH]; cbn; [reflexivity|].
  rewrite IH, andb_assoc. reflexivity.
Qed.

Lemma made_of_substring (str : string) :
  made_of P str = true -> forall n m, made_of P (substring n m str) = true.
Proof.
  induction str as [|c str IH]; intros Hs n m.
  - destruct n, m; reflexivity.
  - cbn in Hs. apply andb_true_iff in Hs as [Hc Hs].
    destruct n, m; cbn; try reflexivity; try (apply IH; exact Hs).
    rewrite Hc. apply IH. exact Hs.
Qed.

Lemma made_of_zeros (n : nat) : made_of P (Conv.zeros n) = true.
Proof.
  induction n as [|n IH]; [reflexivity|].
  cbn. rewrite IH, P_number_char; [reflexivity|cbn; tauto].
Qed.

Lemma made_of_uint (d : Decimal.uint) :
  made_of P (NilEmpty.string_of_uint d) = true.
Proof.
  induction d; cbn; [reflexivity|..];
    rewrite IHd, P_number_char; try reflexivity; cbn; tauto.
Qed.

Lemma made_of_digits (n : N) : made_of P (Conv.digits n) = true.
Proof.
  unfold Conv.digits, NilZero.string_of_uint.
  destruct (N.to_uint n) eqn:Hd;
    try (rewrite <- Hd; apply made_of_uint);
    try (match goal with |- context [NilEmpty.string_of_uint ?d] =>
           apply (made_of_uint d) end).
  cbn. rewrite P_number_char; [reflexivity|cbn; tauto].
Qed.

Lemma made_of_strip (str : string) :
  made_of P str = true -> made_of P (Conv.strip_trailing_zeros str) = true.
Proof.
  intros Hs. unfold Conv.strip_trailing_zeros.
  rewrite made_of_of_list. apply forallb_forall.
  intros c Hc. apply in_rev in Hc. apply strip_zeros_rev_incl in Hc.
  apply in_rev in Hc.
  rewrite made_of_forallb in Hs.
  rewrite forallb_forall in Hs. apply Hs. exact Hc.
Qed.

Lemma made_of_format_digits (ds : string) (n : Z) :
  made_of P ds = true -> made_of P (Conv.format_digits ds n) = true.
Proof.
  intros Hds. unfold Conv.format_digits.
  repeat match goal with
         | |- context [if ?b then _ else _] => destruct b
         end;
    repeat (rewrite made_of_app; apply andb_true_iff; split);
    auto using made_of_substring, made_of_zeros, made_of_digits;
    cbn; rewrite ?P_number_char; try reflexivity; cbn; tauto.
Qed.

(** A number other than [NaN] and the infinities is printed with the
    characters of a number. *)
Lemma made_of_ToString_finite (v : number) :
  Num.is_nan v = false -> is_infinite v = false ->
  made_of P (Conv.ToString v) = true.
Proof.
  destruct v as [sv|sv| |sv m e]; try discriminate; intros _ _.
  - cbn. rewrite P_number_char; [reflexivity|cbn; tauto].
  - unfold Conv.ToString.
    destruct (Conv.shortest m e) as [ds n] eqn:Hs.
    rewrite made_of_app. apply andb_true_iff. split.
    { destruct sv; [|reflexivity].
      cbn. rewrite P_number_char; [reflexivity|cbn; tauto]. }
    apply made_of_format_digits.
    unfold Conv.shortest in Hs.
    destruct (Conv.fraction m e) as [num den].
    destruct (Conv.search_digits _ _ _ _ _ _) as [sd k].
    injection Hs as <- _.
    apply made_of_strip, made_of_digits.
Qed.

Lemma made_of_ToString (v : number) : made_of P (Conv.ToString v) = true.
Proof.
  destruct v as [sv|sv| |sv m e] eqn:Hv.
  - apply made_of_ToString_finite; reflexivity.
  - unfold Conv.ToString. rewrite made_of_app, P_Infinity.
    destruct sv; [|reflexivity].
    cbn. rewrite P_number_char; [reflexivity|cbn; tauto].
  - exact P_NaN.
  - apply made_of_ToString_finite; reflexivity.
Qed.

(** [toFixed], of a number that is not infinite. *)
Lemma made_of_toFixed (f : nat) (v : number) :
  is_infinite v = false -> made_of P (Conv.toFixed f v) = true.
Proof.
  intros Hinf. unfold Conv.toFixed.
  destruct (Num.is_nan v) eqn:Hnan; [exact P_NaN|].
  cbv zeta. rewrite made_of_app. apply andb_true_iff. split.
  { destruct (Num.ltb v (S754_zero false)); [|reflexivity].
    cbn. rewrite P_number_char; [reflexivity|cbn; tauto]. }
  set (v' := if Num.ltb v (S754_zero false) then Num.neg v else v).
  assert (Hv' : Num.is_nan v' = false /\ is_infinite v' = false).
  { subst v'. destruct (Num.ltb v (S754_zero false)); [|split; assumption].
    destruct v; try discriminate; split; reflexivity. }
  destruct Hv' as [Hn' Hi'].
  destruct (Num.geb v' Conv.ten_pow_21).
  - apply made_of_ToString_finite; assumption.
  - set (n := match v' with
              | S754_finite _ m e => Conv.round_half_up_scaled m e f
              | _ => 0%N
              end).
    destruct f as [|f]; [apply made_of_digits|].
    rewrite !made_of_app.
    assert (Hm : made_of P
                   (if (Conv.strlen (Conv.digits n) <=? S f)%nat
                    then (Conv.zeros (S f + 1 - Conv.strlen (Conv.digits n))
                          ++ Conv.digits n)%string
                    else Conv.digits n) = true).
    { destruct (_ <=? _)%nat; [|apply made_of_digits].
      rewrite made_of_app, made_of_zeros, made_of_digits. reflexivity. }
    rewrite !(made_of_substring _ Hm).
    cbn. rewrite P_number_char; [reflexivity|cbn; tauto].
Qed.

Lemma made_of_join (sep : string) (l : list string) :
  made_of P sep = true ->
  Forall (fun a => made_of P a = true) l ->
  made_of P (Conv.join sep l) = true.
Proof.
  intros Hsep. induction l as [|a l IH]; intros Hl; [reflexivity|].
  apply Forall_cons in Hl as [Ha Hl].
  destruct l as [|b l]; [exact Ha|].
  change (Conv.join sep (a :: b :: l))
    with (a ++ sep ++ Conv.join sep (b :: l))%string.
  rewrite !made_of_app, Ha, Hsep, (IH Hl). reflexivity.
Qed.

Lemma made_of_concat (l : list string) :
  Forall (fun a => made_of P a = true) l ->
  made_of P (String.concat "" l) = true.
Proof.
  induction l as [|a l IH]; intros Hl; [reflexivity|].
  apply Forall_cons in Hl as [Ha Hl].
  destruct l as [|b l]; [exact Ha|].
  change (String.concat "" (a :: b :: l))
    with (a ++ "" ++ String.concat "" (b :: l))%string.
  rewrite !made_of_app, Ha, (IH Hl). reflexivity.
Qed.

End Characters.


Lemma getPath_string_run (g : Globals) (property : Property) (s : State) :
  (1 < numKeys property)%nat ->
  exists path s2,
    getPath g property s = (Return (Some path), s2) /\
    Path_toString path s2 = (Return (getPath_string g property), s2).
Proof.
  intros Hkeys.
  destruct (getPath_full g property s Hkeys) as (path & s2 & Hrun & Hrep & _).
  exists path, s2. split; [exact Hrun|].
  rewrite (Path_toString_run s2 path (represents_valid _ _ _ Hrep)).
  rewrite (represents_text _ _ _ Hrep). reflexivity.
Qed.

Lemma path_char_point_text (p : Point) : made_of path_char (point_text p) = true.
Proof.
  unfold point_text.
  rewrite !made_of_app, !made_of_ToString; reflexivity.
Qed.

Lemma path_char_getPath_string (g : Globals) (property : Property) :
  made_of path_char (getPath_string g property) = true.
Proof.
  unfold getPath_string, commands_text.
  apply made_of_concat, Forall_map.
  assert (Hl : Forall (fun letter => made_of path_char letter = true)
                 (map fst (getPath_commands g property))).
  { rewrite getPath_commands_letters. constructor; [reflexivity|].
    apply Forall_map, Forall_forall. intros k _.
    unfold getCommand_letter. destruct (String.eqb _ _); reflexivity. }
  apply Forall_map in Hl.
  eapply Forall_impl; [exact Hl|].
  intros pc Hpc. cbn beta in Hpc. rewrite made_of_app, Hpc.
  apply made_of_join; [reflexivity|].
  apply Forall_map, Forall_forall. intros p _. apply path_char_point_text.
Qed.

(** X11. The path string of a property is written with the digits, the
    signs [+] and [-], the decimal point, the comma, the exponent mark [e],
    the command letters [M], [L], [C] and the letters of [NaN] and
    [Infinity], and with no other character: so it holds no quote, no
    space and no character that a command line treats specially. *)
Theorem Path_toString_characters (g : Globals) (property : Property) (s : State) :
  (1 < numKeys property)%nat ->
  exists path s2 pathString,
    getPath g property s = (Return (Some path), s2) /\
    Path_toString path s2 = (Return pathString, s2) /\
    made_of path_char pathString = true.
Proof.
  intros Hkeys.
  destruct (getPath_string_run g property s Hkeys) as (path & s2 & Hrun & Hstr).
  exists path, s2, (getPath_string g property).
  split; [exact Hrun|]. split; [exact Hstr|].
  apply path_char_getPath_string.
Qed.

Lemma Path_toString_characters_witness :
  (1 < numKeys example_property)%nat /\
  exists path s2 pathString,
    getPath example_globals example_property initial_state
      = (Return (Some path), s2) /\
    Path_toString path s2 = (Return pathString, s2) /\
    made_of path_char pathString = true.
Proof.
  split; [cbn; lia|].
  apply (Path_toString_characters example_globals example_property initial_state).
  cbn; lia.
Defined.

(** ** Clamping *)

Lemma normalize_not_infinite (g : Globals) (val min max : number) :
  clampInfiniteValues g = true ->
  is_infinite (normalize g val min max) = false.
Proof.
  intros Hclamp. unfold normalize. rewrite Hclamp. cbv zeta.
  destruct (Num.div (Num.sub val min) (Num.sub max min)) as [s|[]| |s m e];
    reflexivity.
Qed.

(** X12. With [clampInfiniteValues] set, [normalize] never returns an
    infinity: a quotient of [+Infinity] becomes 10, one of [-Infinity]
    becomes -10, and any other quotient (NaN too) is returned as it is.
    Without the setting the quotient is returned as it is. *)
Theorem normalize_clamps (g : Globals) (val min max : number) :
  let quotient := Num.div (Num.sub val min) (Num.sub max min) in
  (clampInfiniteValues g = true ->
     is_infinite (normalize g val min max) = false /\
     (quotient = Num.POSITIVE_INFINITY -> normalize g val min max = Num.of_Z 10) /\
     (quotient = Num.NEGATIVE_INFINITY -> normalize g val min max = Num.of_Z (-10))) /\
  (is_infinite quotient = false \/ clampInfiniteValues g = false ->
     normalize g val min max = quotient).
Proof.
  cbv zeta. split.
  - intros Hclamp. split; [apply normalize_not_infinite, Hclamp|].
    unfold normalize. rewrite Hclamp. cbv zeta.
    split; intros ->; reflexivity.
  - unfold normalize. cbv zeta.
    destruct (clampInfiniteValues g); intros [Hq|Hc]; try discriminate;
      try reflexivity.
    destruct (Num.div (Num.sub val min) (Num.sub max min)) as [s|[]| |s m e];
      try discriminate; reflexivity.
Qed.

Lemma array_char_normalized (g : Globals) (tweenData : TweenData) (p : Point) :
  clampInfiniteValues g = true ->
  made_of array_char (normalized_x g tweenData p) = true /\
  made_of array_char (normalized_y g tweenData p) = true.
Proof.
  intros Hclamp.
  assert (Hx : made_of array_char (normalized_x g tweenData p) = true).
  { unfold normalized_x.
    apply made_of_toFixed; try reflexivity.
    apply normalize_not_infinite, Hclamp. }
  split; [exact Hx|].
  unfold normalized_y. cbv zeta. destruct (Conv.isNaN _); [exact Hx|].
  apply made_of_toFixed; try reflexivity.
  apply normalize_not_infinite, Hclamp.
Qed.

(** X13. With [clampInfiniteValues] set, the array string of a property is
    written with the digits, the signs, the decimal point, the exponent
    mark, the comma, the brackets and the letters of [NaN], and with no
    other character: [Infinity] never appears in it. *)
Theorem buildBezierCurveArrayString_characters (g : Globals) (property : Property)
  (s : State) :
  clampInfiniteValues g = true ->
  exists bezierCurveArrayString s',
    buildBezierCurveArrayString g property s
      = (Return bezierCurveArrayString, s') /\
    made_of array_char bezierCurveArrayString = true.
Proof.
  intros Hclamp.
  destruct (buildBezierCurveArrayString_run g property s) as [pts Hrun].
  eexists. eexists. split; [exact Hrun|].
  unfold bezier_array_string.
  rewrite !made_of_app. apply andb_true_iff. split; [reflexivity|].
  apply andb_true_iff. split; [|reflexivity].
  apply made_of_join; [reflexivity|].
  apply Forall_map, Forall_map, Forall_forall. intros k _.
  apply made_of_join; [reflexivity|].
  unfold normalized_group. cbv zeta.
  repeat constructor; apply array_char_normalized; exact Hclamp.
Qed.

Lemma buildBezierCurveArrayString_characters_witness :
  clampInfiniteValues example_globals = true /\
  exists bezierCurveArrayString s',
    buildBezierCurveArrayString example_globals flat_property initial_state
      = (Return bezierCurveArrayString, s') /\
    made_of array_char bezierCurveArrayString = true.
Proof.
  split; [reflexivity|].
  apply (buildBezierCurveArrayString_characters example_globals flat_property
           initial_state).
  reflexivity.
Defined.

(** ** The objects of a path *)

(** X14. The Points of the path that [getPath] returns are distinct
    objects, all of them created by the call, and the call creates no other
    Point: the store after the call is the store before it followed by the
    path's Points, command after command. Two commands never share a Point
    object, even where the end point of one has the coordinates of the next
    one's start. *)
Theorem getPath_points_are_its_own (g : Globals) (property : Property) (s : State) :
  (1 < numKeys property)%nat ->
  exists path s2,
    getPath g property s = (Return (Some path), s2) /\
    path_points path = seq (length (heap s)) (length (path_points path)) /\
    NoDup (path_points path) /\
    length (heap s2) = (length (heap s) + length (path_points path))%nat /\
    take (length (heap s)) (heap s2) = heap s.
Proof.
  intros Hkeys.
  destruct (getPath_full g property s Hkeys)
    as (path & s2 & Hrun & _ & Hkeep & _ & _ & Hfresh & Hlen).
  exists path, s2. split; [exact Hrun|].
  split; [exact Hfresh|].
  split; [rewrite Hfresh; apply fresh_NoDup|].
  split; [exact Hlen|].
  apply list_eq. intros i.
  destruct (decide (i < length (heap s))%nat) as [Hi|Hi].
  - rewrite lookup_take_lt by exact Hi.
    destruct (lookup_lt_is_Some_2 (heap s) i Hi) as [p Hp].
    transitivity (Some p); [exact (Hkeep i p Hp)|symmetry; exact Hp].
  - rewrite lookup_take_ge by lia.
    symmetry. apply lookup_ge_None. lia.
Qed.

Lemma getPath_points_are_its_own_witness :
  (1 < numKeys example_property)%nat /\
  exists path s2,
    getPath example_globals example_property initial_state
      = (Return (Some path), s2) /\
    path_points path = [0; 1; 2; 3]%nat.
Proof.
  split; [cbn; lia|].
  destruct (getPath_points_are_its_own example_globals example_property
              initial_state)
    as (path & s2 & Hrun & Hpts & _); [cbn; lia|].
  exists path, s2. split; [exact Hrun|].
  assert (Hp : (Return (Some path), s2)
               = getPath example_globals example_property initial_state)
    by (symmetry; exact Hrun).
  vm_compute in Hp. injection Hp as -> _. reflexivity.
Defined.


(** ** The second variant *)

Lemma incoming_point_variant1_equivalent (g : Globals) (tweenData : TweenData)
  (property : Property) (keyIndex : nat) :
  incoming_point g tweenData (variant1_equivalent property) keyIndex
  = incoming_point_variant2 g tweenData property keyIndex.
Proof.
  unfold incoming_point, incoming_point_variant2, variant1_equivalent.
  cbn [keyInTemporalEase fst speed influence].
  rewrite neg_involutive. reflexivity.
Qed.

Lemma getCommand_points_variant1_equivalent (g : Globals) (property : Property)
  (keyIndex : nat) :
  getCommand_points g (variant1_equivalent property) keyIndex
  = let tweenData := calcTweenData g property keyIndex (keyIndex + 1) in
    if String.eqb (calcEaseType property keyIndex (keyIndex + 1)) "linear-linear"
    then [anchor_point tweenData]
    else [outgoing_point g tweenData property keyIndex;
          incoming_point_variant2 g tweenData property keyIndex;
          anchor_point tweenData].
Proof.
  unfold getCommand_points. cbv zeta.
  rewrite incoming_point_variant1_equivalent. reflexivity.
Qed.

(** One turn of the second variant's loop over the keyframes adds the
    command that [getCommand] returns for the equivalent property. *)
Lemma keyframe_turn_run (g : Globals) (property : Property) (i : nat)
  (path : Path) (s : State) :
  let property' := variant1_equivalent property in
  exists lines,
    Variant2Main.keyframe_turn g property i path s =
      (Return (mkPath (commands path ++
                 [mkPathCommand (getCommand_letter property' i)
                    (fresh s (length (getCommand_points g property' i)))])),
       mkState (heap s ++ getCommand_points g property' i)
               (alerts s ++ getCommand_alerts property' i)
               (console s ++ lines)).
Proof.
  cbv zeta. rewrite getCommand_points_variant1_equivalent. cbv zeta.
  unfold Variant2Main.keyframe_turn, getCommand_letter, getCommand_alerts, fresh.
  change (calcEaseType (variant1_equivalent property) i (i + 1))
    with (calcEaseType property i (i + 1)).
  destruct (String.eqb (calcEaseType property i (i + 1)) "linear-linear") eqn:Hlin.
  - exists ["easeType: " ++ calcEaseType property i (i + 1)]%string.
    apply String.eqb_eq in Hlin. rewrite Hlin.
    cbn. rewrite ?app_nil_r. reflexivity.
  - destruct (String.eqb (calcEaseType property i (i + 1)) "unsupported") eqn:Huns;
      [exists ["easeType: " ++ calcEaseType property i (i + 1);
               "UNSUPPORTED EASING PAIR!"; ""]%string
      |exists ["easeType: " ++ calcEaseType property i (i + 1); ""]%string];
      cbn;
      rewrite ?app_nil_r, ?length_app, <- ?app_assoc; cbn;
      rewrite ?(Nat.add_1_r (length (heap s))), ?(Nat.add_1_r (S (length (heap s))));
      reflexivity.
Qed.


Lemma keyframes_loop_full (g : Globals) (property : Property) (count : nat) :
  forall (i : nat) (path : Path) (s : State) (cmds0 : list CommandModel),
  represents s path cmds0 ->
  exists cmds pts s',
    Variant2Main.keyframes_loop g property count i path s
      = (Return (mkPath (commands path ++ cmds), (i + count)%nat), s') /\
    heap s' = heap s ++ pts /\
    concat (map points cmds) = fresh s (length pts) /\
    represents s' (mkPath (commands path ++ cmds))
      (cmds0 ++ map (command_model g (variant1_equivalent property)) (seq i count)) /\
    alerts s' = alerts s ++ getPath_alerts (variant1_equivalent property) i count.
Proof.
  set (property' := variant1_equivalent property).
  induction count as [|count IH]; intros i path s cmds0 Hrep.
  - exists [], [], s. cbn. rewrite !app_nil_r, Nat.add_0_r. destruct path.
    repeat split; try constructor. exact Hrep.
  - cbn [Variant2Main.keyframes_loop]. unfold bind at 1.
    destruct (keyframe_turn_run g property i path s) as [lines Hturn].
    cbv zeta in Hturn. fold property' in Hturn. rewrite Hturn.
    set (pts1 := getCommand_points g property' i) in *.
    set (c1 := mkPathCommand (getCommand_letter property' i) (fresh s (length pts1))) in *.
    set (s1 := mkState (heap s ++ pts1) (alerts s ++ getCommand_alerts property' i)
                 (console s ++ lines)) in *.
    assert (Hrep1 : represents s1 (mkPath (commands path ++ [c1]))
                      (cmds0 ++ [command_model g property' i])).
    { destruct path as [cs]. cbn [commands] in *.
      apply represents_snoc.
      - eapply represents_grow; [|exact Hrep].
        apply (keeps_points_app s s1 pts1). reflexivity.
      - reflexivity.
      - cbn [points c1 snd command_model]. fold pts1.
        apply (fresh_Forall2 s s1 pts1 []). rewrite app_nil_r. reflexivity. }
    destruct (IH (S i) (mkPath (commands path ++ [c1])) s1 _ Hrep1)
      as (cmds & pts & s' & Hrun & Hheap & Hrefs & Hrep' & Hal).
    cbn [commands] in Hrun, Hrep'.
    exists (c1 :: cmds), (pts1 ++ pts), s'.
    split.
    { replace (i + S count)%nat with (S i + count)%nat by lia.
      rewrite Hrun, <- app_assoc. reflexivity. }
    split; [rewrite Hheap; cbn [heap s1]; rewrite <- app_assoc; reflexivity|].
    split.
    { cbn [map concat points c1]. rewrite Hrefs.
      rewrite <- fresh_app. reflexivity. }
    split.
    { rewrite <- !app_assoc in Hrep'. cbn [app] in Hrep'. exact Hrep'. }
    rewrite Hal. cbn [alerts s1]. unfold getPath_alerts.
    cbn [seq map concat]. rewrite <- app_assoc. reflexivity.
Qed.

(** Inverting a path, or not, according to a test. *)
Lemma invert_when_run (b : bool) (path : Path) (cmds : list CommandModel)
  (s : State) :
  represents s path cmds ->
  NoDup (path_points path) ->
  (forall r : ref, r ∈ path_points path -> is_Some (heap s !! r)) ->
  exists s',
    (if b then Path_invertYAxis path else ret tt) s = (Return tt, s') /\
    represents s' path (if b then map inverted_command cmds else cmds) /\
    alerts s' = alerts s /\ console s' = console s /\
    (forall r : ref, r ∉ path_points path -> heap s' !! r = heap s !! r).
Proof.
  intros Hrep Hnd Hvalid. destruct b.
  - destruct (forEach_invert_point_run (path_points path) s Hnd Hvalid)
      as (s' & Hrun & Hal & Hco & _ & Hinv & Hother).
    exists s'. rewrite Path_invertYAxis_flat. split; [exact Hrun|].
    split; [destruct path as [cs]; eapply represents_inverted; eassumption|].
    split; [exact Hal|]. split; [exact Hco|exact Hother].
  - exists s. repeat split. exact Hrep.
Qed.

(** One turn of the second variant's loop over the properties, for a
    property that has a curve. *)
Lemma property_turn_with_curve (g : Globals) (host : Host) (i : nat)
  (property : Property) (w : Run) :
  (1 < numKeys property)%nat ->
  exists w',
    Variant2Main.property_turn g host i property w
      = (Return (numKeys property), w') /\
    turn w w' [cmdString host (variant2_string g property)]
      (path_mode_alerts g (variant1_equivalent property)) false.
Proof.
  intros Hkeys. set (property' := variant1_equivalent property).
  unfold Variant2Main.property_turn.
  replace (numKeys property <=? 1)%nat with false
    by (symmetry; apply Nat.leb_gt; exact Hkeys).
  unfold bindH at 1. unfold lift at 1. rewrite new_Path_run.
  set (s := script w).
  set (s0 := with_points s [start_point g property']).
  set (path0 := mkPath [mkPathCommand "M" (fresh s 1)]).
  assert (Hrep0 : represents s0 path0 [("M", [start_point g property'])]).
  { constructor; [|constructor]. split; [reflexivity|].
    cbn [points snd]. apply (fresh_Forall2 s s0 [start_point g property'] []).
    reflexivity. }
  destruct (keyframes_loop_full g property (numKeys property - 1) 1%nat path0 s0 _ Hrep0)
    as (cmds & pts & s1 & Hrun & Hheap & Hrefs & Hrep & Hal).
  fold property' in Hrep, Hal.
  replace (1 + (numKeys property - 1))%nat with (numKeys property) in Hrun by lia.
  change (with_points s
            [mkPoint (Num.mul (keyTime property 1) (framerate g))
               (keyValue_scalar property 1)]) with s0.
  unfold bindH at 1. unfold lift at 1. cbn [script systemCalls].
  fold path0. rewrite Hrun. cbn [fst snd].
  set (path := mkPath (commands path0 ++ cmds)) in *.
  change ([("M", [start_point g property'])] ++
          map (command_model g property') (seq 1 (numKeys property - 1)))
    with (built_commands g property') in Hrep.
  assert (Hpts : path_points path = fresh s (length (start_point g property' :: pts))).
  { unfold path_points, path. cbn [commands path0 app map concat points].
    rewrite Hrefs. unfold fresh. subst s0. cbn [heap with_points length seq].
    rewrite length_app. cbn [length app]. rewrite Nat.add_1_r. reflexivity. }
  destruct (built_commands_last g property' Hkeys) as (pcs & letter & ps & Hlast).
  pose proof Hrep as Hrep'. rewrite Hlast in Hrep'.
  destruct (represents_end_point s1 path _ _ _ _ Hrep') as (r & Hend & Hr & Hin).
  unfold bindH at 1. unfold lift at 1. cbn [script systemCalls].
  rewrite Hend.
  unfold bindH at 1. unfold lift at 1. cbn [script systemCalls].
  unfold get_Point at 1. rewrite Hr.
  destruct (invert_when_run
              (Num.gtb (y (last_keyframe g property')) (keyValue_scalar property 1))
              path _ s1 Hrep)
    as (s2 & Hinv & Hrep2 & Hal2 & Hco2 & Hother).
  { rewrite Hpts. apply fresh_NoDup. }
  { intros q Hq. rewrite Hpts in Hq.
    apply (fresh_valid s s1 (start_point g property' :: pts)); [|exact Hq].
    rewrite Hheap. subst s0. cbn [heap with_points].
    rewrite <- app_assoc. reflexivity. }
  unfold bindH at 1. unfold lift at 1. cbn [script systemCalls].
  rewrite Hinv.
  unfold bindH at 1. unfold lift at 1. cbn [script systemCalls].
  change (if Num.gtb (y (last_keyframe g property')) (keyValue_scalar property 1)
          then map inverted_command (built_commands g property')
          else built_commands g property')
    with (getPath_commands g property') in Hrep2.
  rewrite (Path_toString_run s2 path (represents_valid _ _ _ Hrep2)).
  rewrite (represents_text _ _ _ Hrep2).
  fold (getPath_string g property'). fold (variant2_string g property).
  unfold bindH, lift, copyTextToClipboard, callSystem, alert, writeln, retH.
  cbn [script systemCalls heap alerts console].
  eexists. split; [reflexivity|].
  split; cbn [script systemCalls heap alerts console].
  - reflexivity.
  - rewrite Hal2, Hal. subst s0. cbn [alerts with_points].
    unfold path_mode_alerts. rewrite app_assoc. reflexivity.
  - intros q p Hq. fold s in Hq. rewrite Hother.
    + rewrite Hheap. subst s0. cbn [heap with_points].
      apply lookup_app_l_Some, lookup_app_l_Some. exact Hq.
    + rewrite Hpts. unfold fresh. intros Hin'. apply elem_of_seq in Hin'.
      apply lookup_lt_Some in Hq. lia.
  - discriminate.
Qed.

Lemma property_turn_without_curve (g : Globals) (host : Host) (i : nat)
  (property : Property) (w : Run) :
  (numKeys property <= 1)%nat ->
  Variant2Main.property_turn g host i property w = (Return i, w).
Proof.
  intros Hkeys. unfold Variant2Main.property_turn.
  replace (numKeys property <=? 1)%nat with true
    by (symmetry; apply Nat.leb_le; exact Hkeys).
  reflexivity.
Qed.


Lemma i_after_cons (i : nat) (p : Property) (ps : list Property) :
  i_after i (p :: ps) = i_after (if has_curve p then numKeys p else i) ps.
Proof.
  unfold i_after. cbn [List.filter].
  destruct (has_curve p); [|reflexivity].
  destruct (List.filter has_curve ps) as [|q l]; [reflexivity|].
  change (last (p :: q :: l)) with (last (q :: l)).
  destruct (last_is_Some (q :: l)) as [_ [p' Hp']]; [discriminate|].
  rewrite Hp'. reflexivity.
Qed.

Lemma properties_loop_run (g : Globals) (host : Host)
  (selectedProperties : list Property) :
  forall (i : nat) (w : Run),
  exists w',
    Variant2Main.properties_loop g host i selectedProperties w
      = (Return (i_after i selectedProperties), w') /\
    turn w w' (variant2_calls g host selectedProperties)
      (variant2_alerts g selectedProperties) false.
Proof.
  induction selectedProperties as [|p ps IH]; intros i w.
  - exists w. split; [reflexivity|apply turn_nothing].
  - cbn [Variant2Main.properties_loop]. unfold bindH at 1.
    rewrite i_after_cons. unfold variant2_calls, variant2_alerts.
    cbn [List.filter].
    destruct (has_curve p) eqn:Hk; unfold has_curve in Hk;
      [apply Nat.ltb_lt in Hk|apply Nat.ltb_ge in Hk].
    + destruct (property_turn_with_curve g host i p w Hk) as (w1 & Hrun & Ht1).
      rewrite Hrun. destruct (IH (numKeys p) w1) as (w2 & Hloop & Ht2).
      exists w2. split; [exact Hloop|].
      cbn [map concat].
      apply (turn_then w w1 w2 [_] _ _ _ _ Ht1 Ht2).
    + rewrite (property_turn_without_curve g host i p w Hk).
      apply IH.
Qed.

Lemma properties_loop_without_curve (g : Globals) (host : Host)
  (selectedProperties : list Property) (i : nat) (w : Run) :
  List.filter has_curve selectedProperties = [] ->
  Variant2Main.properties_loop g host i selectedProperties w = (Return i, w).
Proof.
  induction selectedProperties as [|p ps IH]; intros Hnone; [reflexivity|].
  cbn [List.filter] in Hnone.
  destruct (has_curve p) eqn:Hk; [discriminate|].
  unfold has_curve in Hk. apply Nat.ltb_ge in Hk.
  cbn [Variant2Main.properties_loop]. unfold bindH.
  rewrite (property_turn_without_curve g host i p w Hk). apply IH, Hnone.
Qed.

Lemma layers_loop_never_ends (g : Globals) (host : Host) (selectedLayers : nat)
  (selectedProperties : list Property) (p : Property) :
  last (List.filter has_curve selectedProperties) = Some p ->
  (numKeys p + 1 < selectedLayers)%nat ->
  forall (fuel i : nat) (w : Run),
  (i < selectedLayers)%nat ->
  exists w',
    Variant2Main.layers_loop g host fuel selectedLayers selectedProperties i w
      = (Return None, w') /\
    turn w w'
      (concat (repeat (variant2_calls g host selectedProperties) fuel))
      (concat (repeat (variant2_alerts g selectedProperties) fuel)) false.
Proof.
  intros Hlast Hmany.
  induction fuel as [|fuel IH]; intros i w Hi.
  - exists w. split; [reflexivity|apply turn_nothing].
  - cbn [Variant2Main.layers_loop repeat concat].
    replace (i <? selectedLayers)%nat with true
      by (symmetry; apply Nat.ltb_lt; exact Hi).
    unfold bindH at 1.
    destruct (properties_loop_run g host selectedProperties i w)
      as (w1 & Hrun & Ht1).
    rewrite Hrun. unfold i_after. rewrite Hlast.
    destruct (IH (numKeys p + 1)%nat w1 Hmany) as (w2 & Hloop & Ht2).
    exists w2. split; [exact Hloop|].
    apply (turn_then w w1 w2 _ _ _ _ _ Ht1 Ht2).
Qed.

Lemma layers_loop_one_pass (g : Globals) (host : Host) (selectedLayers : nat)
  (selectedProperties : list Property) (p : Property) (fuel : nat) (w : Run) :
  last (List.filter has_curve selectedProperties) = Some p ->
  (0 < selectedLayers <= numKeys p + 1)%nat ->
  exists w',
    Variant2Main.layers_loop g host (S (S fuel)) selectedLayers
      selectedProperties 0 w
      = (Return (Some tt), w') /\
    turn w w' (variant2_calls g host selectedProperties)
      (variant2_alerts g selectedProperties) false.
Proof.
  intros Hlast [Hpos Hfew].
  cbn [Variant2Main.layers_loop].
  replace (0 <? selectedLayers)%nat with true
    by (symmetry; apply Nat.ltb_lt; exact Hpos).
  unfold bindH at 1.
  destruct (properties_loop_run g host selectedProperties 0%nat w)
    as (w1 & Hrun & Ht1).
  rewrite Hrun. unfold i_after. rewrite Hlast.
  replace (numKeys p + 1 <? selectedLayers)%nat with false
    by (symmetry; apply Nat.ltb_ge; exact Hfew).
  exists w1. split; [reflexivity|exact Ht1].
Qed.

Lemma layers_loop_without_curve (g : Globals) (host : Host) (selectedLayers : nat)
  (selectedProperties : list Property) (w : Run) :
  List.filter has_curve selectedProperties = [] ->
  forall fuel i : nat,
  (selectedLayers - i < fuel)%nat ->
  Variant2Main.layers_loop g host fuel selectedLayers selectedProperties i w
  = (Return (Some tt), w).
Proof.
  intros Hnone. induction fuel as [|fuel IH]; intros i Hfuel; [lia|].
  cbn [Variant2Main.layers_loop].
  destruct (Nat.ltb_spec i selectedLayers) as [Hi|Hi]; [|reflexivity].
  unfold bindH.
  rewrite (properties_loop_without_curve g host selectedProperties i w Hnone).
  apply IH. lia.
Qed.

(** X15. The loop variable of the second variant. Its loop over the
    keyframes reuses the variable [i] of the loop over the selected layers:
    after a turn of the outer loop [i] is the number of keyframes of the
    last selected property that has a curve. When more layers are selected
    than that number plus one, the outer loop never ends: whatever the
    number of turns granted, the run has not finished after them, and each
    turn has copied every curve again. *)
Theorem variant2_main_never_ends (host : Host) (frameRate : number)
  (selectedProperties : list Property) (selectedLayers : nat) (p : Property)
  (w : Run) :
  activeItem host = Some (CompItem frameRate selectedProperties) ->
  last (List.filter has_curve selectedProperties) = Some p ->
  (numKeys p + 1 < selectedLayers)%nat ->
  let g := mkGlobals false false false frameRate in
  forall fuel : nat,
  exists w',
    Variant2Main.main fuel host selectedLayers w = (Return None, w') /\
    systemCalls w'
      = systemCalls w
        ++ concat (repeat (variant2_calls g host selectedProperties) fuel) /\
    alerts (script w')
      = alerts (script w)
        ++ concat (repeat (variant2_alerts g selectedProperties) fuel).
Proof.
  intros Hitem Hlast Hmany g fuel. unfold Variant2Main.main. rewrite Hitem.
  replace (selectedLayers =? 0)%nat with false
    by (symmetry; apply Nat.eqb_neq; lia).
  destruct selectedProperties as [|first rest]; [discriminate|].
  destruct (layers_loop_never_ends g host selectedLayers (first :: rest) p
              Hlast Hmany fuel 0%nat w)
    as (w' & Hrun & [Hc Ha _ _]); [lia|].
  exists w'. split; [exact Hrun|]. split; [exact Hc|exact Ha].
Qed.

Lemma variant2_main_never_ends_witness :
  activeItem one_property_host
    = Some (CompItem (Num.lit 30 0) [example_property]) /\
  last (List.filter has_curve [example_property]) = Some example_property /\
  (numKeys example_property + 1 < 5)%nat /\
  exists w',
    Variant2Main.main 3 one_property_host 5 initial_run = (Return None, w') /\
    systemCalls w'
      = repeat (cmdString one_property_host
                  "M0,0C7.9992,2.6664,16.0008,-97.3336,24,-100") 3.
Proof.
  split; [reflexivity|]. split; [reflexivity|]. split; [cbn; lia|].
  destruct (variant2_main_never_ends one_property_host (Num.lit 30 0)
              [example_property] 5 example_property initial_run
              eq_refl eq_refl)
    with (fuel := 3%nat)
    as (w' & Hrun & Hcalls & _); [cbn; lia|].
  exists w'. split; [exact Hrun|].
  rewrite Hcalls. vm_compute. reflexivity.
Defined.

(** X16. When no more layers are selected than the last curve's number of
    keyframes plus one, the second variant ends after ONE turn of its loop
    over the layers, however many layers are selected: every selected
    property that has a curve is copied once, in order, and what is copied
    is the string that the first variant gives for the equivalent property
    (incoming speeds [s] replaced by [-|s|]). *)
Theorem variant2_main_exports_once (host : Host) (frameRate : number)
  (selectedProperties : list Property) (selectedLayers : nat) (p : Property)
  (fuel : nat) (w : Run) :
  activeItem host = Some (CompItem frameRate selectedProperties) ->
  last (List.filter has_curve selectedProperties) = Some p ->
  (0 < selectedLayers <= numKeys p + 1)%nat ->
  let g := mkGlobals false false false frameRate in
  exists w',
    Variant2Main.main (S (S fuel)) host selectedLayers w
      = (Return (Some tt), w') /\
    systemCalls w' = systemCalls w ++ variant2_calls g host selectedProperties /\
    alerts (script w')
      = alerts (script w) ++ variant2_alerts g selectedProperties /\
    keeps_points (script w) (script w').
Proof.
  intros Hitem Hlast Hfew g. unfold Variant2Main.main. rewrite Hitem.
  replace (selectedLayers =? 0)%nat with false
    by (symmetry; apply Nat.eqb_neq; lia).
  destruct selectedProperties as [|first rest]; [discriminate|].
  destruct (layers_loop_one_pass g host selectedLayers (first :: rest) p fuel w
              Hlast Hfew)
    as (w' & Hrun & [Hc Ha Hp _]).
  exists w'. split; [exact Hrun|].
  split; [exact Hc|]. split; [exact Ha|exact Hp].
Qed.

Lemma variant2_main_exports_once_witness :
  activeItem one_property_host
    = Some (CompItem (Num.lit 30 0) [example_property]) /\
  last (List.filter has_curve [example_property]) = Some example_property /\
  (0 < 3 <= numKeys example_property + 1)%nat /\
  exists w',
    Variant2Main.main 2 one_property_host 3 initial_run
      = (Return (Some tt), w') /\
    systemCalls w'
      = [cmdString one_property_host
           "M0,0C7.9992,2.6664,16.0008,-97.3336,24,-100"].
Proof.
  split; [reflexivity|]. split; [reflexivity|]. split; [cbn; lia|].
  destruct (variant2_main_exports_once one_property_host (Num.lit 30 0)
              [example_property] 3 example_property 0 initial_run
              eq_refl eq_refl)
    as (w' & Hrun & Hcalls & _); [cbn; lia|].
  exists w'. split; [exact Hrun|].
  rewrite Hcalls. vm_compute. reflexivity.
Defined.

(** X17. The second variant does not test the active item: without a
    composition it throws a TypeError before any message. With a
    composition it shows one message and stops when no layer, or no
    property, is selected; and when no selected property has two keyframes
    it ends (after as many idle turns as there are layers) having done
    nothing at all. *)
Theorem variant2_main_nothing_to_export (fuel : nat) (host : Host)
  (selectedLayers : nat) (w : Run) :
  match activeItem host with
  | None =>
      Variant2Main.main fuel host selectedLayers w
      = (Throw (TypeError "null is not an object"), w)
  | Some OtherItem =>
      Variant2Main.main fuel host selectedLayers w
      = (Throw (TypeError "undefined is not an object"), w)
  | Some (CompItem _ selectedProperties) =>
      let shows message :=
        Variant2Main.main fuel host selectedLayers w
        = (Return (Some tt),
           mkRun (mkState (heap (script w)) (alerts (script w) ++ [message])
                    (console (script w)))
             (systemCalls w)) in
      if (selectedLayers =? 0)%nat then shows "Please Select at least one Layer"
      else
        match selectedProperties with
        | [] => shows no_property_message
        | _ :: _ =>
            List.filter has_curve selectedProperties = [] ->
            (selectedLayers < fuel)%nat ->
            Variant2Main.main fuel host selectedLayers w = (Return (Some tt), w)
        end
  end.
Proof.
  unfold Variant2Main.main.
  destruct (activeItem host) as [[frameRate selectedProperties|]|].
  - cbv zeta. destruct (selectedLayers =? 0)%nat; [reflexivity|].
    destruct selectedProperties as [|first rest]; [reflexivity|].
    intros Hnone Hfuel.
    apply layers_loop_without_curve; [exact Hnone|lia].
  - unfold lift, throw. cbn. rewrite run_eta. reflexivity.
  - unfold lift, throw. cbn. rewrite run_eta. reflexivity.
Qed.

(** X18. The two variants agree on equivalent properties: for a property
    with a curve, one turn of the second variant's loop over the properties
    passes to the system the command, and shows the messages, of one turn of
    the first variant's main loop (in path mode) for the property whose
    incoming speeds [s] are replaced by [-|s|]; besides, it leaves the
    property's number of keyframes in the loop variable. *)
Theorem variants_agree_on_equivalent_property (g : Globals) (host : Host)
  (first property : Property) (i : nat) (w : Run) :
  outputAsBezierCurveArray g = false ->
  (1 < numKeys property)%nat ->
  exists w1 w2,
    main_body g host first (variant1_equivalent property) w = (Return tt, w1) /\
    Variant2Main.property_turn g host i property w
      = (Return (numKeys property), w2) /\
    systemCalls w2 = systemCalls w1 /\
    alerts (script w2) = alerts (script w1).
Proof.
  intros Hmode Hkeys.
  destruct (main_body_with_curve g host first (variant1_equivalent property) w
              Hmode Hkeys)
    as (w1 & Hrun1 & [Hc1 Ha1 _ _]).
  destruct (property_turn_with_curve g host i property w Hkeys)
    as (w2 & Hrun2 & [Hc2 Ha2 _ _]).
  exists w1, w2. split; [exact Hrun1|]. split; [exact Hrun2|].
  unfold variant2_string in Hc2.
  split; congruence.
Qed.

Lemma variants_agree_on_equivalent_property_witness :
  outputAsBezierCurveArray example_globals = false /\
  (1 < numKeys positive_speed_property)%nat /\
  exists w1 w2,
    main_body example_globals example_host example_property
      (variant1_equivalent positive_speed_property) initial_run
      = (Return tt, w1) /\
    Variant2Main.property_turn example_globals example_host 0
      positive_speed_property initial_run
      = (Return 2%nat, w2) /\
    systemCalls w2 = systemCalls w1.
Proof.
  split; [reflexivity|]. split; [cbn; lia|].
  destruct (variants_agree_on_equivalent_property example_globals example_host
              example_property positive_speed_property 0 initial_run eq_refl)
    as (w1 & w2 & H1 & H2 & Hc & _); [cbn; lia|].
  exists w1, w2. split; [exact H1|]. split; [exact H2|exact Hc].
Defined.
